(** * Diagrama scrollytelling framework: a shallow embedding

    The development follows the JavaScript sources of the repository:

    - [ScrollytellingEngine]   (src/js/scrollytelling-engine.js)
    - [MediaController]        (src/js/content-manager.js, second class)
    - [NavigationController]   (public/content/galleries.json, second part)
    - [ProgressIndicator]      (unnamed/part_001)
    - [AnimationController]    (src/js/animation-controller.js)
    - [AccessibilityController] (src/js/accessibility-controller.js)
    - [ContentManager]         (src/js/content-manager.js, first class)
    - [GalleryManager]         (src/js/gallery-manager.js)
    - [AppleNavigation]        (src/js/apple-navigation.js)

    Objects become records, methods become functions from state to
    state, and everything the code does to the outside (DOM writes,
    timers, animation frames, console output) is appended to an
    explicit trace.  Asynchronous continuations ([then], [await],
    [setTimeout], [requestAnimationFrame]) become events that the
    environment feeds to a step function. *)

From Stdlib Require Import ZArith QArith Qround Lqa Lia Bool List.
From stdpp Require Import base gmap strings list pretty.
Import ListNotations.

Local Open Scope Z_scope.
Local Open Scope list_scope.

(** ** JavaScript numbers

    A JS number is an IEEE double.  The claims below depend on the
    special values (division by zero, [NaN] propagation through
    [Math.min]) but not on rounding, so finite values are exact
    rationals.  Zero is unsigned: every denominator in the modelled
    code is a difference of two finite numbers, which is [+0] when
    they are equal. *)
Module JsNum.

Inductive jsnum : Type :=
| Finite (q : Q)
| PosInf
| NegInf
| NaN.

Definition Qlt_bool (a b : Q) : bool := negb (Qle_bool b a).

(** [a / b] *)
Definition js_div (a b : jsnum) : jsnum :=
  match a, b with
  | NaN, _ | _, NaN => NaN
  | Finite x, Finite y =>
      if Qeq_bool y 0 then
        if Qeq_bool x 0 then NaN
        else if Qlt_bool 0 x then PosInf else NegInf
      else Finite (x / y)
  | Finite _, (PosInf | NegInf) => Finite 0
  | PosInf, Finite y => if Qlt_bool y 0 then NegInf else PosInf
  | NegInf, Finite y => if Qlt_bool y 0 then PosInf else NegInf
  | (PosInf | NegInf), (PosInf | NegInf) => NaN
  end.

(** [a * b] *)
Definition js_mul (a b : jsnum) : jsnum :=
  match a, b with
  | NaN, _ | _, NaN => NaN
  | Finite x, Finite y => Finite (x * y)
  | Finite x, PosInf | PosInf, Finite x =>
      if Qeq_bool x 0 then NaN else if Qlt_bool 0 x then PosInf else NegInf
  | Finite x, NegInf | NegInf, Finite x =>
      if Qeq_bool x 0 then NaN else if Qlt_bool 0 x then NegInf else PosInf
  | PosInf, PosInf | NegInf, NegInf => PosInf
  | PosInf, NegInf | NegInf, PosInf => NegInf
  end.

(** [a + b] *)
Definition js_add (a b : jsnum) : jsnum :=
  match a, b with
  | NaN, _ | _, NaN => NaN
  | Finite x, Finite y => Finite (x + y)
  | PosInf, NegInf | NegInf, PosInf => NaN
  | PosInf, _ | _, PosInf => PosInf
  | NegInf, _ | _, NegInf => NegInf
  end.

(** [a - b] *)
Definition js_sub (a b : jsnum) : jsnum :=
  match a, b with
  | NaN, _ | _, NaN => NaN
  | Finite x, Finite y => Finite (x - y)
  | PosInf, PosInf | NegInf, NegInf => NaN
  | PosInf, _ | _, NegInf => PosInf
  | NegInf, _ | _, PosInf => NegInf
  end.

(** [a <= b]; every comparison with [NaN] is false *)
Definition js_le (a b : jsnum) : bool :=
  match a, b with
  | NaN, _ | _, NaN => false
  | NegInf, _ => true
  | _, PosInf => true
  | Finite x, Finite y => Qle_bool x y
  | _, _ => false
  end.

(** [Math.min(a, b)] *)
Definition js_min (a b : jsnum) : jsnum :=
  match a, b with
  | NaN, _ | _, NaN => NaN
  | _, _ => if js_le a b then a else b
  end.

(** [Math.max(a, b)] *)
Definition js_max (a b : jsnum) : jsnum :=
  match a, b with
  | NaN, _ | _, NaN => NaN
  | _, _ => if js_le a b then b else a
  end.

(** A number is a proper fraction when it is finite and in [0, 1]. *)
Definition in_unit (a : jsnum) : Prop :=
  match a with
  | Finite q => (0 <= q <= 1)%Q
  | _ => False
  end.

(** Same value, up to the representation of the rational. *)
Definition same (a b : jsnum) : Prop :=
  match a, b with
  | Finite x, Finite y => (x == y)%Q
  | PosInf, PosInf | NegInf, NegInf | NaN, NaN => True
  | _, _ => False
  end.

End JsNum.

(** ** Completions

    A JavaScript statement either completes normally or throws.  In
    both cases it may already have changed the state. *)
Inductive completion (S : Type) : Type :=
| Normal (s : S)
| Abrupt (err : string) (s : S).
Arguments Normal {S} s.
Arguments Abrupt {S} err s.

Definition andThen {S : Type} (c : completion S) (k : S -> completion S)
  : completion S :=
  match c with
  | Normal s => k s
  | Abrupt err s => Abrupt err s
  end.

Notation "c >>> k" := (andThen c k) (at level 61, left associativity).

(** [try { body } catch (error) { handler(error) }] *)
Definition tryCatch {S : Type} (body : completion S)
  (handler : string -> S -> completion S) : completion S :=
  match body with
  | Normal s => Normal s
  | Abrupt err s => handler err s
  end.

(** [xs.forEach(f)]: an exception leaving [f] ends the loop. *)
Fixpoint forEach {A S : Type} (f : A -> S -> completion S) (xs : list A)
  (s : S) : completion S :=
  match xs with
  | [] => Normal s
  | x :: rest => f x s >>> forEach f rest
  end.

(** [returns P c]: [c] completes normally in a state that satisfies [P]. *)
Definition returns {S : Type} (P : S -> Prop) (c : completion S) : Prop :=
  match c with
  | Normal s => P s
  | Abrupt _ _ => False
  end.

(** ** What the browser reports *)
Module Browser.

(** What [window] and [document] report when progress is recomputed. *)
Record viewport : Type := {
  pageYOffset : Q;
  scrollTop : Q;          (* document.documentElement.scrollTop *)
  scrollHeight : Q;       (* document.documentElement.scrollHeight *)
  innerHeight : Q;
  progress_bar : bool     (* querySelector('.scroll-progress-bar') *)
}.

(** [a || b] on numbers: [0] is falsy *)
Definition js_or (a b : Q) : Q := if Qeq_bool a 0 then b else a.

End Browser.

(** ** ScrollytellingEngine (src/js/scrollytelling-engine.js) *)
Module Engine.
Import JsNum Browser.

(** *** Data *)

(** A DOM element found by a selector inside a section, or one of its
    children.  Sections are referred to by their position in the
    engine's [sections] map, which iterates in insertion order. *)
Inductive elem : Type :=
| Query (sec : nat) (selector : string) (k : nat)
| Child (parent : elem) (k : nat).

(** An element carrying [data-animate], as [discoverSectionAnimations]
    reads it. *)
Record animated_element : Type := {
  data_animate : string;
  data_animateDelay : option Q;     (* parseFloat(...), None for NaN *)
  data_animateDuration : option Q;
  child_count : nat                 (* element.children.length *)
}.

(** An Animation Entry. *)
Record animation : Type := {
  anim_type : string;
  anim_children : nat;
  delay : Q;
  duration : Q;
  triggered : bool
}.

(** A [.story-section] element: what the engine's selectors see. *)
Record section_element : Type := {
  el_id : string;                         (* element.id, empty if absent *)
  el_sectionType : option string;         (* dataset.sectionType *)
  el_animated : list animated_element;    (* [data-animate] *)
  el_counters : nat;                      (* [data-target] *)
  el_timeline_items : nat;                (* .timeline-item *)
  el_tier_items : nat;                    (* .tier-item *)
  el_before : bool;                       (* .comparison-before *)
  el_arrow : bool;                        (* .comparison-arrow *)
  el_after : bool;                        (* .comparison-after *)
  el_hero_video_paused : option bool      (* .hero-video and its paused flag *)
}.

(** A section record ([sectionData]); [media] and [bounds] are not
    read by any modelled operation and are left out. *)
Record section : Type := {
  id : string;
  element : section_element;
  type : string;
  index : nat;
  isVisible : bool;
  visibilityRatio : Q;
  animations : list animation
}.

(** An [IntersectionObserverEntry]. *)
Record entry : Type := {
  target_id : string;                 (* entry.target.id *)
  target_sectionId : option string;   (* entry.target.dataset.sectionId *)
  isIntersecting : bool;
  intersectionRatio : Q
}.

(** Argument of an emitted event. *)
Inductive payload : Type :=
| Undefined
| SectionData (sec : nat)
| SectionChange (current : nat) (previous : option nat)
| AnimationData (sec idx : nat)
| ScrollData (progress : jsnum) (current : option nat).

(** Closures handed to [setTimeout]. *)
Inductive task : Type :=
| TriggerAnimation (sec idx : nat)
| AnimateCounter (el : elem)
| AddClasses (el : elem) (classes : list string)
| ScrollEnd.

(** Everything the engine does to its environment, in order. *)
Inductive effect : Type :=
| SetTimeout (t : task) (ms : Q)
| ClearTimeout (t : task)
| ClassListAdd (el : elem) (classes : list string)
| CounterStarted (el : elem)
| VideoPlay (el : elem)
| ProgressBarWidth (percent : jsnum)
| ScrollIntoView (sec : nat)
| Invoke (cb : nat) (data : payload)
| ConsoleError (msg : string) (err : string)
| ConsoleWarn (msg : string).

(** A registered listener: its identity (for [indexOf]) and what a call
    does to the rest of the page, which may end in an exception. *)
Record callback (W : Type) : Type := {
  cb_ref : nat;
  cb_call : payload -> W -> completion W
}.
Arguments cb_ref {W} c.
Arguments cb_call {W} c data w.

Record engine (W : Type) : Type := {
  sections : list section;
  currentSection : option nat;
  scrollProgress : jsnum;
  isScrolling : bool;
  callbacks : gmap string (list (callback W));
  world : W;
  trace : list effect
}.
Arguments sections {W} e.
Arguments currentSection {W} e.
Arguments scrollProgress {W} e.
Arguments isScrolling {W} e.
Arguments callbacks {W} e.
Arguments world {W} e.
Arguments trace {W} e.
Arguments Build_engine {W}.

Section Methods.
Context {W : Type}.

(** *** Field updates *)

Definition set_sections (v : list section) (e : engine W) : engine W :=
  Build_engine v (currentSection e) (scrollProgress e) (isScrolling e)
               (callbacks e) (world e) (trace e).

Definition set_currentSection (v : option nat) (e : engine W) : engine W :=
  Build_engine (sections e) v (scrollProgress e) (isScrolling e)
               (callbacks e) (world e) (trace e).

Definition set_scrollProgress (v : jsnum) (e : engine W) : engine W :=
  Build_engine (sections e) (currentSection e) v (isScrolling e)
               (callbacks e) (world e) (trace e).

Definition set_isScrolling (v : bool) (e : engine W) : engine W :=
  Build_engine (sections e) (currentSection e) (scrollProgress e) v
               (callbacks e) (world e) (trace e).

Definition set_callbacks (v : gmap string (list (callback W))) (e : engine W)
  : engine W :=
  Build_engine (sections e) (currentSection e) (scrollProgress e)
               (isScrolling e) v (world e) (trace e).

Definition set_world (v : W) (e : engine W) : engine W :=
  Build_engine (sections e) (currentSection e) (scrollProgress e)
               (isScrolling e) (callbacks e) v (trace e).

Definition perform (effs : list effect) (e : engine W) : engine W :=
  Build_engine (sections e) (currentSection e) (scrollProgress e)
               (isScrolling e) (callbacks e) (world e) (trace e ++ effs).

Definition set_visibility (v : bool) (r : Q) (s : section) : section :=
  Build_section (id s) (element s) (type s) (index s) v r (animations s).

Definition set_animations (l : list animation) (s : section) : section :=
  Build_section (id s) (element s) (type s) (index s) (isVisible s)
                (visibilityRatio s) l.

Definition mark_triggered (a : animation) : animation :=
  Build_animation (anim_type a) (anim_children a) (delay a) (duration a) true.

(** *** Event system *)

(** [on(event, callback)] *)
Definition on (event : string) (cb : callback W) (e : engine W) : engine W :=
  let registered := default [] (callbacks e !! event) in
  set_callbacks (<[event := registered ++ [cb]]> (callbacks e)) e.

(** [callbacks.indexOf(callback)] followed by [splice(index, 1)] *)
Fixpoint remove_first (ref : nat) (cbs : list (callback W)) : list (callback W) :=
  match cbs with
  | [] => []
  | c :: rest => if Nat.eqb (cb_ref c) ref then rest
                 else c :: remove_first ref rest
  end.

(** [off(event, callback)] *)
Definition off (event : string) (cb : callback W) (e : engine W) : engine W :=
  match callbacks e !! event with
  | Some cbs => set_callbacks (<[event := remove_first (cb_ref cb) cbs]>
                                 (callbacks e)) e
  | None => e
  end.

(** [callback(data)]: the call itself, which may throw. *)
Definition call (data : payload) (cb : callback W) (e : engine W)
  : completion (engine W) :=
  let e1 := perform [Invoke (cb_ref cb) data] e in
  match cb_call cb data (world e1) with
  | Normal w => Normal (set_world w e1)
  | Abrupt err w => Abrupt err (set_world w e1)
  end.

Definition error_in_callback (event : string) : string :=
  ("Error in event callback for " ++ event ++ ":")%string.

(** The body of the loop in [emit]: the call wrapped in [try]/[catch]. *)
Definition guarded_call (event : string) (data : payload) (cb : callback W)
  (e : engine W) : completion (engine W) :=
  tryCatch (call data cb e)
           (fun err e' =>
              Normal (perform [ConsoleError (error_in_callback event) err] e')).

(** [emit(event, data)] *)
Definition emit (event : string) (data : payload) (e : engine W)
  : completion (engine W) :=
  match callbacks e !! event with
  | Some cbs => forEach (guarded_call event data) cbs e
  | None => Normal e
  end.

(** *** Discovery *)

(** [parsed || fallback] for a number that may be [NaN] *)
Definition or_default (parsed : option Q) (fallback : Q) : Q :=
  match parsed with
  | Some q => if Qeq_bool q 0 then fallback else q
  | None => fallback
  end.

(** [index * step] milliseconds or seconds *)
Definition times (k : nat) (step : Q) : Q := (inject_Z (Z.of_nat k) * step)%Q.

(** [discoverSectionAnimations(element)] *)
Definition discoverSectionAnimations (el : section_element) : list animation :=
  imap (fun index a =>
          Build_animation (data_animate a) (child_count a)
            (or_default (data_animateDelay a) (times index (1 # 10)))
            (or_default (data_animateDuration a) (8 # 10))
            false)
       (el_animated el).

(** [sections.set(key, value)]: an existing key keeps its place. *)
Fixpoint map_set (key : string) (value : section) (m : list section)
  : list section :=
  match m with
  | [] => [value]
  | s :: rest => if String.eqb (id s) key then value :: rest
                 else s :: map_set key value rest
  end.

(** The place of [key] in the map; [sections.get(key)] is the section
    stored there. *)
Fixpoint position (key : string) (m : list section) : option nat :=
  match m with
  | [] => None
  | s :: rest => if String.eqb (id s) key then Some 0%nat
                 else S <$> position key rest
  end.

Definition sectionData (index : nat) (el : section_element) : section :=
  Build_section
    (if String.eqb (el_id el) "" then ("section-" ++ pretty index)%string
     else el_id el)
    el
    (match el_sectionType el with
     | Some t => if String.eqb t "" then "default"%string else t
     | None => "default"%string
     end)
    index false 0%Q (discoverSectionAnimations el).

(** [discoverSections()] over the [.story-section] elements of the page *)
Definition discoverSections (els : list section_element) : list section :=
  fold_left (fun m '(index, el) =>
               let data := sectionData index el in map_set (id data) data m)
            (imap pair els) [].

(** The engine after its constructor and [discoverSections]. *)
Definition create (els : list section_element) (w : W) : engine W :=
  Build_engine (discoverSections els) None (Finite 0) false ∅ w [].

(** *** Current section *)

(** The loop of [updateCurrentSection]: [i] is the place of the next
    section visited. *)
Fixpoint scan (secs : list section) (i : nat) (maxVisibility : Q)
  (newCurrentSection : option nat) : option nat :=
  match secs with
  | [] => newCurrentSection
  | s :: rest =>
      if isVisible s && Qlt_bool maxVisibility (visibilityRatio s)
      then scan rest (S i) (visibilityRatio s) (Some i)
      else scan rest (S i) maxVisibility newCurrentSection
  end.

(** [updateCurrentSection()] *)
Definition updateCurrentSection (e : engine W) : completion (engine W) :=
  match scan (sections e) 0 0%Q None with
  | Some n =>
      if bool_decide (currentSection e = Some n) then Normal e
      else
        let previousSection := currentSection e in
        emit "sectionChange" (SectionChange n previousSection)
             (set_currentSection (Some n) e)
  | None => Normal e
  end.

(** *** Animation entries *)

(** The loop of [triggerSectionAnimations]: every untriggered entry gets
    a timer and is marked at once. *)
Fixpoint trigger_entries (sec idx : nat) (anims : list animation)
  : list animation * list effect :=
  match anims with
  | [] => ([], [])
  | a :: rest =>
      let '(rest', effs) := trigger_entries sec (S idx) rest in
      if triggered a then (a :: rest', effs)
      else (mark_triggered a :: rest',
            SetTimeout (TriggerAnimation sec idx) (delay a * 1000)%Q :: effs)
  end.

(** [triggerSectionAnimations(section)] *)
Definition triggerSectionAnimations (sec : nat) (e : engine W) : engine W :=
  match sections e !! sec with
  | Some s =>
      let '(anims, effs) := trigger_entries sec 0 (animations s) in
      perform effs
        (set_sections (<[sec := set_animations anims s]> (sections e)) e)
  | None => e
  end.

(** Classes added by [triggerAnimation] for the plain animation types. *)
Definition animation_classes (type : string) : list string :=
  if String.eqb type "fade-up" then ["fade-up"; "visible"]
  else if String.eqb type "slide-up" then ["slide-up"; "visible"]
  else if String.eqb type "slide-left" then ["slide-left"; "visible"]
  else if String.eqb type "slide-right" then ["slide-right"; "visible"]
  else if String.eqb type "scale-in" then ["scale-in"; "visible"]
  else if String.eqb type "timeline" then ["timeline-item"; "visible"]
  else ["fade-in"; "visible"].

(** [triggerRevealAnimation(element)] *)
Definition triggerRevealAnimation (el : elem) (children : nat) : list effect :=
  map (fun k => SetTimeout (AddClasses (Child el k) ["fade-up"; "visible"])
                           (times k 100))
      (seq 0 children).

(** [triggerAnimation(animation)], run by the entry's timer *)
Definition triggerAnimation (sec idx : nat) (e : engine W)
  : completion (engine W) :=
  match sections e !! sec ≫= (fun s => animations s !! idx) with
  | Some a =>
      let el := Query sec "[data-animate]" idx in
      let effs :=
        if String.eqb (anim_type a) "counter" then [CounterStarted el]
        else if String.eqb (anim_type a) "reveal"
             then triggerRevealAnimation el (anim_children a)
             else [ClassListAdd el (animation_classes (anim_type a))] in
      emit "animationTriggered" (AnimationData sec idx) (perform effs e)
  | None => Normal e
  end.

(** [triggerCounterAnimations(section)] *)
Definition triggerCounterAnimations (sec : nat) (s : section) : list effect :=
  map (fun k => SetTimeout (AnimateCounter (Query sec "[data-target]" k))
                           (times k 200))
      (seq 0 (el_counters (element s))).

(** [triggerComparisonAnimation(section)] *)
Definition triggerComparisonAnimation (sec : nat) (s : section) : list effect :=
  let reveal (present : bool) (selector : string) (ms : Q) :=
    if present
    then [SetTimeout (AddClasses (Query sec selector 0) ["visible"]) ms]
    else [] in
  reveal (el_before (element s)) ".comparison-before" 0%Q
  ++ reveal (el_arrow (element s)) ".comparison-arrow" 300%Q
  ++ reveal (el_after (element s)) ".comparison-after" 600%Q.

(** [triggerTimelineAnimations(section)] *)
Definition triggerTimelineAnimations (sec : nat) (s : section) : list effect :=
  map (fun k => SetTimeout (AddClasses (Query sec ".timeline-item" k) ["visible"])
                           (times k 300))
      (seq 0 (el_timeline_items (element s))).

(** [triggerTierAnimations(section)] *)
Definition triggerTierAnimations (sec : nat) (s : section) : list effect :=
  map (fun k => SetTimeout (AddClasses (Query sec ".tier-item" k)
                                       ["slide-up"; "visible"])
                           (times k 200))
      (seq 0 (el_tier_items (element s))).

(** [handleSectionVisibility(section, entry)] with the six handlers it
    dispatches to *)
Definition handleSectionVisibility (sec : nat) (en : entry) (e : engine W)
  : engine W :=
  match sections e !! sec with
  | None => e
  | Some s =>
      if String.eqb (type s) "hero" then
        if isIntersecting en then
          match el_hero_video_paused (element s) with
          | Some true => perform [VideoPlay (Query sec ".hero-video" 0)] e
          | _ => e
          end
        else e
      else if String.eqb (type s) "crisis" then
        if isIntersecting en && Qlt_bool (1 # 2) (intersectionRatio en)
        then perform (triggerCounterAnimations sec s) e else e
      else if String.eqb (type s) "solution" then
        if isIntersecting en
        then perform (triggerComparisonAnimation sec s) e else e
      else if String.eqb (type s) "timeline" then
        if isIntersecting en
        then perform (triggerTimelineAnimations sec s) e else e
      else if String.eqb (type s) "investment" then
        if isIntersecting en
        then perform (triggerTierAnimations sec s) e else e
      else
        if isIntersecting en then triggerSectionAnimations sec e else e
  end.

(** *** Observer callbacks *)

(** [entry.target.id || entry.target.dataset.sectionId] *)
Definition entry_key (en : entry) : option string :=
  if String.eqb (target_id en) "" then target_sectionId en
  else Some (target_id en).

(** [this.sections.get(sectionId)], as a place in the map *)
Definition sections_get (key : option string) (m : list section) : option nat :=
  key ≫= (fun k => position k m).

(** The body of the loop in [handleIntersection] *)
Definition handleEntry (en : entry) (e : engine W) : completion (engine W) :=
  match sections_get (entry_key en) (sections e) with
  | None => Normal e
  | Some sec =>
      let e1 :=
        set_sections
          (alter (set_visibility (isIntersecting en) (intersectionRatio en))
                 sec (sections e)) e in
      updateCurrentSection e1
      >>> emit (if isIntersecting en then "sectionEnter" else "sectionLeave")
               (SectionData sec)
      >>> (fun e3 => Normal (handleSectionVisibility sec en e3))
  end.

(** [handleIntersection(entries)] *)
Definition handleIntersection (entries : list entry) (e : engine W)
  : completion (engine W) :=
  forEach handleEntry entries e.

(** [handleAnimationTrigger(entries)] *)
Definition handleAnimationTrigger (entries : list entry) (e : engine W)
  : engine W :=
  fold_left
    (fun e en =>
       if isIntersecting en then
         match sections_get (entry_key en) (sections e) with
         | Some sec =>
             match sections e !! sec with
             | Some s => if (0 <? length (animations s))%nat
                         then triggerSectionAnimations sec e else e
             | None => e
             end
         | None => e
         end
       else e)
    entries e.

(** *** Scroll progress *)

(** [updateProgress()] *)
Definition updateProgress (vp : viewport) (e : engine W) : engine W :=
  let scrollTop := js_or (pageYOffset vp) (scrollTop vp) in
  let scrollHeight := (scrollHeight vp - innerHeight vp)%Q in
  let progress := js_min (js_div (Finite scrollTop) (Finite scrollHeight))
                         (Finite 1) in
  let e1 := set_scrollProgress progress e in
  if progress_bar vp
  then perform [ProgressBarWidth (js_mul progress (Finite 100))] e1
  else e1.

(** [handleScroll()]; the section bounds it refreshes are not modelled. *)
Definition handleScroll (vp : viewport) (e : engine W) : completion (engine W) :=
  let e1 := updateProgress vp e in
  emit "scroll" (ScrollData (scrollProgress e1) (currentSection e1)) e1.

(** The listener installed by [setupScrollListeners] *)
Definition debouncedScroll (vp : viewport) (e : engine W)
  : completion (engine W) :=
  (if isScrolling e then Normal e
   else emit "scrollStart" Undefined (set_isScrolling true e))
  >>> handleScroll vp
  >>> (fun e2 => Normal (perform [ClearTimeout ScrollEnd;
                                  SetTimeout ScrollEnd 150%Q] e2)).

(** [handleResize()] *)
Definition handleResize (vp : viewport) (e : engine W) : completion (engine W) :=
  emit "resize" Undefined (updateProgress vp e).

(** *** Navigation, start, timers *)

(** [navigateToSection(sectionId)] *)
Definition navigateToSection (sectionId : string) (e : engine W)
  : completion (engine W) :=
  match position sectionId (sections e) with
  | None =>
      Normal (perform [ConsoleWarn ("Section " ++ sectionId ++ " not found")] e)
  | Some sec =>
      emit "navigationTriggered" (SectionData sec) (perform [ScrollIntoView sec] e)
  end.

(** [start()]: [in_view sec] tells whether the section's box meets the
    viewport. *)
Definition start (in_view : nat -> bool) (e : engine W) : engine W :=
  fold_left (fun e sec => if in_view sec then triggerSectionAnimations sec e
                          else e)
            (seq 0 (length (sections e))) e.

(** A timer fires. *)
Definition timeout (t : task) (e : engine W) : completion (engine W) :=
  match t with
  | TriggerAnimation sec idx => triggerAnimation sec idx e
  | AnimateCounter el => Normal (perform [CounterStarted el] e)
  | AddClasses el classes => Normal (perform [ClassListAdd el classes] e)
  | ScrollEnd => emit "scrollEnd" Undefined (set_isScrolling false e)
  end.

(** What can happen to a running engine. *)
Inductive event : Type :=
| SectionBatch (entries : list entry)
| AnimationBatch (entries : list entry)
| Scrolled (vp : viewport)
| Resized (vp : viewport)
| Started (in_view : nat -> bool)
| TimerFired (t : task)
| Subscribed (name : string) (cb : callback W)
| Unsubscribed (name : string) (cb : callback W)
| NavigationRequested (sectionId : string).

Definition step (ev : event) (e : engine W) : completion (engine W) :=
  match ev with
  | SectionBatch entries => handleIntersection entries e
  | AnimationBatch entries => Normal (handleAnimationTrigger entries e)
  | Scrolled vp => debouncedScroll vp e
  | Resized vp => handleResize vp e
  | Started in_view => Normal (start in_view e)
  | TimerFired t => timeout t e
  | Subscribed name cb => Normal (on name cb e)
  | Unsubscribed name cb => Normal (off name cb e)
  | NavigationRequested sectionId => navigateToSection sectionId e
  end.

Definition run (evs : list event) (e : engine W) : completion (engine W) :=
  forEach step evs e.

End Methods.

(** *** Observations used to state the claims *)

(** A section that is visible with a positive ratio. *)
Definition candidate (secs : list section) (n : nat) : Prop :=
  exists s, secs !! n = Some s /\ isVisible s = true /\
            (0 < visibilityRatio s)%Q.

(** The first section, in iteration order, among the visible sections
    of greatest (and positive) ratio. *)
Definition leading (secs : list section) (n : nat) : Prop :=
  exists s,
    secs !! n = Some s /\ isVisible s = true /\ (0 < visibilityRatio s)%Q /\
    (forall j t, secs !! j = Some t -> isVisible t = true ->
                 (visibilityRatio t <= visibilityRatio s)%Q) /\
    (forall j t, (j < n)%nat -> secs !! j = Some t -> isVisible t = true ->
                 (visibilityRatio t < visibilityRatio s)%Q).

(** The [triggered] flag of entry [idx] of section [sec]. *)
Definition is_triggered {W : Type} (e : engine W) (sec idx : nat) : bool :=
  match sections e !! sec ≫= (fun s => animations s !! idx) with
  | Some a => triggered a
  | None => false
  end.

(** [eff] is the [setTimeout] that schedules entry [idx] of section [sec]. *)
Definition entry_timer (sec idx : nat) (eff : effect) : bool :=
  match eff with
  | SetTimeout (TriggerAnimation s i) _ => Nat.eqb s sec && Nat.eqb i idx
  | _ => false
  end.

(** How many times the entry's animation has been scheduled. *)
Fixpoint scheduled (tr : list effect) (sec idx : nat) : nat :=
  match tr with
  | [] => 0
  | eff :: rest =>
      ((if entry_timer sec idx eff then 1 else 0) + scheduled rest sec idx)%nat
  end.

(** The listener calls recorded in a trace, in order. *)
Fixpoint invocations (tr : list effect) : list (nat * payload) :=
  match tr with
  | [] => []
  | Invoke cb data :: rest => (cb, data) :: invocations rest
  | _ :: rest => invocations rest
  end.

(** The errors written to the console, in order. *)
Fixpoint logged_errors (tr : list effect) : list (string * string) :=
  match tr with
  | [] => []
  | ConsoleError msg err :: rest => (msg, err) :: logged_errors rest
  | _ :: rest => logged_errors rest
  end.


(** *** The claim about the current section, in the specification's words

    Update every reported section, then recompute once per batch: the
    visible section of greatest ratio found by a strict comparison
    against a running maximum that starts at 0, and the value before
    the batch when there is none. *)
Definition spec_update_sections (entries : list entry) (secs : list section)
  : list section :=
  fold_left
    (fun secs en =>
       match sections_get (entry_key en) secs with
       | Some sec =>
           alter (set_visibility (isIntersecting en) (intersectionRatio en))
                 sec secs
       | None => secs
       end)
    entries secs.

Definition spec_current_after_batch (entries : list entry)
  (secs : list section) (previous : option nat) : option nat :=
  match scan (spec_update_sections entries secs) 0 0%Q None with
  | Some n => Some n
  | None => previous
  end.

End Engine.

(** ** ProgressIndicator (unnamed/part_001) *)
Module Progress.
Import JsNum Browser.

(** The indicator's state; the section-local progress and the DOM
    elements it paints are not modelled. *)
Record indicator : Type := {
  smoothing : bool;              (* options.smoothing *)
  scrollProgress : jsnum;
  isUpdating : bool
}.

(** The indicator after its constructor. *)
Definition create (options_smoothing : option bool) : indicator :=
  Build_indicator
    (match options_smoothing with Some false => false | _ => true end)
    (Finite 0) false.

Definition set_scrollProgress (v : jsnum) (p : indicator) : indicator :=
  Build_indicator (smoothing p) v (isUpdating p).

Definition set_isUpdating (v : bool) (p : indicator) : indicator :=
  Build_indicator (smoothing p) (scrollProgress p) v.

(** [lerp(start, end, factor)] *)
Definition lerp (start end_ factor : jsnum) : jsnum :=
  js_add start (js_mul (js_sub end_ start) factor).

(** [calculateScrollProgress()] *)
Definition calculateScrollProgress (vp : viewport) (p : indicator) : indicator :=
  let scrollTop := js_or (pageYOffset vp) (scrollTop vp) in
  let scrollHeight := (scrollHeight vp - innerHeight vp)%Q in
  if js_le (Finite scrollHeight) (Finite 0) then
    set_scrollProgress (Finite 0) p
  else
    let newProgress :=
      js_min (js_max (js_div (Finite scrollTop) (Finite scrollHeight))
                     (Finite 0))
             (Finite 1) in
    if smoothing p
    then set_scrollProgress (lerp (scrollProgress p) newProgress (Finite (1 # 10))) p
    else set_scrollProgress newProgress p.

(** [updateProgress()]: asks for one animation frame unless one is
    already pending; the result tells whether a frame was requested. *)
Definition updateProgress (p : indicator) : indicator * bool :=
  if isUpdating p then (p, false) else (set_isUpdating true p, true).

(** The frame callback installed by [updateProgress]. *)
Definition frame (vp : viewport) (p : indicator) : indicator :=
  set_isUpdating false (calculateScrollProgress vp p).

(** A scroll event followed by the frame it asked for, if any. *)
Definition recompute (vp : viewport) (p : indicator) : indicator :=
  let '(p1, requested) := updateProgress p in
  if requested then frame vp p1 else p1.

(** [n] scroll events in a row, before any frame runs: the indicator
    and the number of frames asked for. *)
Fixpoint scroll_events (n : nat) (p : indicator) : indicator * nat :=
  match n with
  | O => (p, O)
  | S k =>
      let '(p1, requested) := updateProgress p in
      let '(p2, frames) := scroll_events k p1 in
      (p2, ((if requested then 1 else 0) + frames)%nat)
  end.

(** [clamp(x, lo, hi)], as the specification writes it *)
Definition clamp (x lo hi : Q) : Q :=
  if Qlt_bool x lo then lo else if Qlt_bool hi x then hi else x.

(** The page scroll fraction of the specification. *)
Definition spec_fraction (vp : viewport) : Q :=
  let range := (scrollHeight vp - innerHeight vp)%Q in
  if Qle_bool range 0 then 0%Q
  else clamp (js_or (pageYOffset vp) (scrollTop vp) / range) 0 1.

End Progress.

(** ** Counter animations

    [ScrollytellingEngine.animateCounter] and
    [AnimationController.animateCounterCSS] run the same frame callback;
    they differ in where the target, the start value, the duration and
    the formatter come from.  Times are milliseconds as
    [performance.now()] and the frame timestamps give them. *)
Module Counter.
Import JsNum.

(** The element's text and whether [requestAnimationFrame(animate)] is
    outstanding. *)
Record counter : Type := {
  textContent : string;
  requested : bool
}.

(** [Math.min(a, b)] on finite numbers *)
Definition Qmin (a b : Q) : Q := if Qle_bool a b then a else b.

Section Animate.
Variables (target : Z) (startValue : Q) (duration : Q) (startTime : Q).
Variable (display : Z -> string).

(** [Math.floor(startValue + (target - startValue) * easeOut)] *)
Definition currentValue (progress : Q) : Z :=
  let easeOut := (1 - (1 - progress) ^ 3)%Q in
  Qfloor (startValue + (inject_Z target - startValue) * easeOut).

(** The closure [animate], called with the frame's timestamp.  The
    duration is never 0 where it is called from. *)
Definition animate (currentTime : Q) (c : counter) : counter :=
  let elapsed := (currentTime - startTime)%Q in
  let progress := Qmin (elapsed / duration) 1 in
  let c1 := Build_counter (display (currentValue progress)) (requested c) in
  if Qlt_bool progress 1
  then Build_counter (textContent c1) true
  else Build_counter (display target) false.

(** The browser runs the callback only when a frame was requested. *)
Definition on_frame (c : counter) (currentTime : Q) : counter :=
  if requested c then animate currentTime c else c.

Definition frames (timestamps : list Q) (c : counter) : counter :=
  fold_left on_frame timestamps c.

End Animate.

(** [parseInt(element.dataset.target) || 0]; [None] stands for [NaN]. *)
Definition parse_target (data_target : option Z) : Z := default 0 data_target.

(** [ScrollytellingEngine.animateCounter(element)], called at time
    [now] on an element showing [text]: the counter it starts and the
    frame callback it installs. *)
Definition engine_start (text : string) : counter := Build_counter text true.

Definition engine_animate (data_target : option Z) (now : Q)
  : Q -> counter -> counter :=
  animate (parse_target data_target) 0 2000 now pretty.

Definition engine_frames (data_target : option Z) (now : Q)
  (timestamps : list Q) (text : string) : counter :=
  frames (parse_target data_target) 0 2000 now pretty timestamps
         (engine_start text).

(** The specification's formula for a frame at normalised time [t]. *)
Definition spec_value (start : Q) (target : Z) (t : Q) : Z :=
  Qfloor (start + (inject_Z target - start) * (1 - (1 - t) ^ 3)).

(** [t] clamped to [0, 1] *)
Definition clamp01 (t : Q) : Q :=
  if Qlt_bool t 0 then 0%Q else if Qlt_bool 1 t then 1%Q else t.

End Counter.

(** ** AnimationController (src/js/animation-controller.js) *)
Module Animation.
Import JsNum.

(** The part of a DOM element the controller writes. *)
Record element : Type := {
  style_opacity : option string;
  style_transform : option string;
  classList : list string;
  textContent : string
}.

(** [classList.add(cls)]: a token list holds each class once. *)
Definition classList_add (cls : string) (classes : list string) : list string :=
  if bool_decide (cls ∈ classes) then classes else classes ++ [cls].

Record options : Type := {
  duration : Q;
  easing : string;
  stagger : Q;
  respectReducedMotion : bool
}.

Record controller : Type := {
  opts : options;
  isGSAPLoaded : bool;
  reducedMotion : bool
}.

(** The [options] argument of [animateIn] and [animateStagger]. *)
Record entrance_options : Type := {
  o_duration : option Q;
  o_delay : option Q;
  o_ease : option string;
  o_stagger : option Q
}.

(** The [options] argument of [animateCounter]. *)
Record counter_options : Type := {
  c_duration : option Q;
  c_ease : option string;
  c_startValue : option Q;
  c_formatter : option (Z -> string)
}.

(** A GSAP property set. *)
Record tween_state : Type := {
  opacity : Q; x : Q; y : Q; scale : Q
}.

(** What the controller asks of the browser and of GSAP. *)
Inductive effect : Type :=
| GsapSet (el : nat) (state : tween_state)
| GsapTo (el : nat) (state : tween_state) (duration delay : Q) (ease : string)
| GsapCount (el : nat) (from : Q) (target : Z) (duration : Q) (ease : string)
| SetTimeout (el : nat) (classes : list string) (ms : Q)
| RequestAnimationFrame (el : nat).

(** [options.x || fallback] *)
Definition or_else (given : option Q) (fallback : Q) : Q :=
  match given with
  | Some q => if Qeq_bool q 0 then fallback else q
  | None => fallback
  end.

Definition or_else_string (given : option string) (fallback : string) : string :=
  match given with
  | Some s => if String.eqb s "" then fallback else s
  | None => fallback
  end.

(** [shouldSkipAnimation()] *)
Definition shouldSkipAnimation (c : controller) : bool :=
  reducedMotion c && respectReducedMotion (opts c).

(** [showElementImmediately(element)] *)
Definition showElementImmediately (e : element) : element :=
  Build_element (Some "1"%string) (Some "none"%string)
                (classList_add "visible" (classList e)) (textContent e).

(** [getInitialState(type)] *)
Definition getInitialState (type : string) : tween_state :=
  if String.eqb type "fadeDown" then Build_tween_state 0 0 (-30) 1
  else if String.eqb type "fadeLeft" then Build_tween_state 0 30 0 1
  else if String.eqb type "fadeRight" then Build_tween_state 0 (-30) 0 1
  else if String.eqb type "scaleIn" then Build_tween_state 0 0 0 (8 # 10)
  else if String.eqb type "slideUp" then Build_tween_state 0 0 50 1
  else if String.eqb type "slideDown" then Build_tween_state 0 0 (-50) 1
  else if String.eqb type "slideLeft" then Build_tween_state 0 50 0 1
  else if String.eqb type "slideRight" then Build_tween_state 0 (-50) 0 1
  else Build_tween_state 0 0 30 1.

(** [getFinalState(type)] *)
Definition getFinalState (type : string) : tween_state :=
  Build_tween_state 1 0 0 1.

(** [getCSSAnimationClass(type)] *)
Definition getCSSAnimationClass (type : string) : string :=
  if String.eqb type "fadeDown" then "fade-down"
  else if String.eqb type "fadeLeft" then "fade-left"
  else if String.eqb type "fadeRight" then "fade-right"
  else if String.eqb type "scaleIn" then "scale-in"
  else if String.eqb type "slideUp" then "slide-up"
  else if String.eqb type "slideDown" then "slide-down"
  else if String.eqb type "slideLeft" then "slide-left"
  else if String.eqb type "slideRight" then "slide-right"
  else "fade-up".

(** [animateInGSAP(element, type, options)] *)
Definition animateInGSAP (c : controller) (el : nat) (type : string)
  (o : entrance_options) : list effect :=
  [GsapSet el (getInitialState type);
   GsapTo el (getFinalState type)
          (or_else (o_duration o) (duration (opts c)))
          (or_else (o_delay o) 0)
          (or_else_string (o_ease o) (easing (opts c)))].

(** [animateInCSS(element, type, options)]: the classes are added when
    the timer fires. *)
Definition animateInCSS (c : controller) (el : nat) (type : string)
  (o : entrance_options) : list effect :=
  [SetTimeout el [getCSSAnimationClass type; "visible"%string]
              (or_else (o_delay o) 0 * 1000)].

(** [animateIn(element, type, options)]; [gsap] tells whether
    [window.gsap] is there, [el] names the element in the effects. *)
Definition animateIn (c : controller) (gsap : bool) (el : nat) (e : element)
  (type : string) (o : entrance_options) : element * list effect :=
  if shouldSkipAnimation c then (showElementImmediately e, [])
  else if negb (isGSAPLoaded c) || negb gsap
       then (e, animateInCSS c el type o)
       else (e, animateInGSAP c el type o).

(** The frame callback of [animateCounterCSS(element, target, options)]. *)
Definition counter_display (o : counter_options) : Z -> string :=
  match c_formatter o with
  | Some formatter => formatter
  | None => pretty
  end.

Definition animateCounterCSS_animate (target : Z) (o : counter_options)
  (now : Q) : Q -> Counter.counter -> Counter.counter :=
  Counter.animate target (or_else (c_startValue o) 0)
                  (or_else (c_duration o) 2 * 1000) now (counter_display o).

Definition animateCounterCSS_frames (target : Z) (o : counter_options)
  (now : Q) (timestamps : list Q) (text : string) : Counter.counter :=
  Counter.frames target (or_else (c_startValue o) 0)
                 (or_else (c_duration o) 2 * 1000) now (counter_display o)
                 timestamps (Counter.Build_counter text true).

(** [animateCounter(element, target, options)] *)
Definition animateCounter (c : controller) (gsap : bool) (el : nat)
  (e : element) (target : Z) (o : counter_options) : element * list effect :=
  if shouldSkipAnimation c then
    (Build_element (style_opacity e) (style_transform e) (classList e)
                   (pretty target), [])
  else if negb (isGSAPLoaded c) || negb gsap
       then (e, [RequestAnimationFrame el])
       else (e, [GsapCount el (or_else (c_startValue o) 0) target
                           (or_else (c_duration o) 2)
                           (or_else_string (c_ease o) "power2.out")]).

(** [animateStagger(elements, type, options)]: the elements are numbered
    from [el0] in the effects. *)
Definition animateStagger (c : controller) (gsap : bool) (el0 : nat)
  (es : list element) (type : string) (o : entrance_options)
  : list element * list effect :=
  if shouldSkipAnimation c then (showElementImmediately <$> es, [])
  else if negb (isGSAPLoaded c) || negb gsap
       then (es,
             concat
               (imap (fun index _ =>
                        animateInCSS c (el0 + index) type
                          (Build_entrance_options
                             (o_duration o)
                             (Some (or_else (o_delay o) 0
                                    + Engine.times index
                                        (or_else (o_stagger o) (stagger (opts c))
                                         * 1000) / 1000)%Q)
                             (o_ease o) (o_stagger o)))
                     es))
       else (es,
             [GsapSet el0 (getInitialState type);
              GsapTo el0 (getFinalState type)
                     (or_else (o_duration o) (duration (opts c))) 0
                     (or_else_string (o_ease o) (easing (opts c)))]).

End Animation.

(** ** NavigationController (public/content/galleries.json, second part) *)
Module Navigation.

(** A navigable section: [title] and [bounds] are not read by the
    operations modelled here. *)
Record section : Type := {
  id : string;
  index : nat;
  offsetTop : Q
}.

Record options : Type := {
  keyboardNavigation : bool;
  smoothScroll : bool;
  updateURL : bool;
  scrollOffset : Q
}.

Record history_entry : Type := {
  from : nat;
  to : nat;
  timestamp : Q
}.

(** The callback given to [scrollToSection(section).then(...)], with the
    variables it closes over. *)
Record continuation : Type := {
  k_section : section;
  k_sectionId : string;
  k_updateURL : bool;
  k_previousIndex : nat
}.

Inductive effect : Type :=
| ConsoleWarn (msg : string)
| WindowScrollTo (y : Q)
| SmoothScrollTo (y : Q)
| PushState (hash : string)
| ActiveNavigation (link : string) (current total : nat)
| Dispatch (event : string) (section : string) (previousIndex currentIndex : nat)
| PreventDefault
| FocusMainNavigation.

Record controller : Type := {
  opts : options;
  sections : list section;
  currentSectionIndex : nat;
  isNavigating : bool;
  navigationHistory : list history_entry;
  pending : list continuation;   (* scroll promises not yet resolved *)
  location_hash : string;        (* the fragment of the page's URL *)
  trace : list effect
}.

Definition set_currentSectionIndex (v : nat) (c : controller) : controller :=
  Build_controller (opts c) (sections c) v (isNavigating c)
                   (navigationHistory c) (pending c) (location_hash c) (trace c).

Definition set_isNavigating (v : bool) (c : controller) : controller :=
  Build_controller (opts c) (sections c) (currentSectionIndex c) v
                   (navigationHistory c) (pending c) (location_hash c) (trace c).

Definition set_navigationHistory (v : list history_entry) (c : controller)
  : controller :=
  Build_controller (opts c) (sections c) (currentSectionIndex c) (isNavigating c)
                   v (pending c) (location_hash c) (trace c).

Definition set_pending (v : list continuation) (c : controller) : controller :=
  Build_controller (opts c) (sections c) (currentSectionIndex c) (isNavigating c)
                   (navigationHistory c) v (location_hash c) (trace c).

Definition set_location_hash (v : string) (c : controller) : controller :=
  Build_controller (opts c) (sections c) (currentSectionIndex c) (isNavigating c)
                   (navigationHistory c) (pending c) v (trace c).

Definition perform (effs : list effect) (c : controller) : controller :=
  Build_controller (opts c) (sections c) (currentSectionIndex c) (isNavigating c)
                   (navigationHistory c) (pending c) (location_hash c)
                   (trace c ++ effs).

(** [discoverSections()] over the [.story-section[id]] elements, given
    as their ids and offsets *)
Definition discoverSections (els : list (string * Q)) : list section :=
  imap (fun index el => Build_section el.1 index el.2) els.

(** The controller after its constructor and [discoverSections]. *)
Definition create (o : options) (els : list (string * Q)) (hash : string)
  : controller :=
  Build_controller o (discoverSections els) 0 false [] [] hash [].

(** [this.sections.find(s => s.id === sectionId)] *)
Definition find_section (sectionId : string) (secs : list section)
  : option section :=
  List.find (fun s => String.eqb (id s) sectionId) secs.

(** [this.sections.findIndex(s => s.id === sectionId)] *)
Fixpoint findIndex (sectionId : string) (secs : list section) : option nat :=
  match secs with
  | [] => None
  | s :: rest => if String.eqb (id s) sectionId then Some 0%nat
                 else S <$> findIndex sectionId rest
  end.

(** [updateActiveNavigation()] with [updateProgressIndicators()] *)
Definition updateActiveNavigation (c : controller) : controller :=
  match sections c !! currentSectionIndex c with
  | Some currentSection =>
      perform [ActiveNavigation (id currentSection)
                                (currentSectionIndex c + 1)
                                (length (sections c))] c
  | None => c
  end.

(** [scrollToSection(section)]: what it asks of the window *)
Definition scrollToSection (s : section) (c : controller) : controller :=
  let targetY := (offsetTop s + scrollOffset (opts c))%Q in
  if smoothScroll (opts c) then perform [SmoothScrollTo targetY] c
  else perform [WindowScrollTo targetY] c.

(** [navigateToSection(sectionId, updateURL)] called at time [now] *)
Definition navigateToSection (sectionId : string) (update_url : bool)
  (now : Q) (c : controller) : controller :=
  if isNavigating c then c
  else
    match find_section sectionId (sections c) with
    | None => perform [ConsoleWarn ("Section " ++ sectionId ++ " not found")] c
    | Some s =>
        let c1 := set_isNavigating true c in
        let previousIndex := currentSectionIndex c1 in
        let c2 := set_currentSectionIndex (index s) c1 in
        let c3 :=
          set_navigationHistory
            (navigationHistory c2
             ++ [Build_history_entry previousIndex (currentSectionIndex c2) now])
            c2 in
        let c4 := scrollToSection s c3 in
        set_pending
          (pending c4 ++ [Build_continuation s sectionId update_url previousIndex])
          c4
    end.

(** The scroll promise of the [k]-th pending navigation resolves. *)
Definition scrollDone (k : nat) (c : controller) : controller :=
  match pending c !! k with
  | None => c
  | Some cont =>
      let c0 := set_pending (delete k (pending c)) c in
      let c1 :=
        if k_updateURL cont && updateURL (opts c0)
        then perform [PushState (k_sectionId cont)]
                     (set_location_hash (k_sectionId cont) c0)
        else c0 in
      let c2 := updateActiveNavigation c1 in
      let c3 :=
        perform [Dispatch "navigation:navigate" (id (k_section cont))
                          (k_previousIndex cont) (currentSectionIndex c2)] c2 in
      set_isNavigating false c3
  end.

(** [navigateNext()] *)
Definition navigateNext (now : Q) (c : controller) : controller :=
  if (currentSectionIndex c + 1 <? length (sections c))%nat then
    match sections c !! (currentSectionIndex c + 1)%nat with
    | Some nextSection => navigateToSection (id nextSection) true now c
    | None => c
    end
  else c.

(** [navigatePrevious()] *)
Definition navigatePrevious (now : Q) (c : controller) : controller :=
  if (0 <? currentSectionIndex c)%nat then
    match sections c !! (currentSectionIndex c - 1)%nat with
    | Some prevSection => navigateToSection (id prevSection) true now c
    | None => c
    end
  else c.

(** [href.slice(1)] *)
Definition slice1 (href : string) : string :=
  match href with
  | EmptyString => EmptyString
  | String _ rest => rest
  end.

(** [handleHashChange()] with the hash the window now has *)
Definition handleHashChange (hash : string) (now : Q) (c : controller)
  : controller :=
  let c0 := set_location_hash hash c in
  if negb (String.eqb hash "") && bool_decide (is_Some (find_section hash (sections c0)))
  then navigateToSection hash false now c0
  else c0.

(** [handleNavClick(event)] *)
Definition handleNavClick (href : string) (now : Q) (c : controller)
  : controller :=
  let c0 := perform [PreventDefault] c in
  let sectionId := slice1 href in
  if negb (String.eqb sectionId "")
     && bool_decide (is_Some (find_section sectionId (sections c0)))
  then navigateToSection sectionId true now c0
  else c0.

(** [handleFocusChange(target)], given the id of the section around the
    focused element *)
Definition handleFocusChange (section_id : option string) (c : controller)
  : controller :=
  match section_id with
  | Some sid =>
      if String.eqb sid "" then c
      else match findIndex sid (sections c) with
           | Some sectionIndex =>
               if Nat.eqb sectionIndex (currentSectionIndex c) then c
               else updateActiveNavigation (set_currentSectionIndex sectionIndex c)
           | None => c
           end
  | None => c
  end.

(** The digit keys "1" to "9" *)
Definition digit_key (key : string) : option nat :=
  if String.eqb key "1" then Some 1%nat
  else if String.eqb key "2" then Some 2%nat
  else if String.eqb key "3" then Some 3%nat
  else if String.eqb key "4" then Some 4%nat
  else if String.eqb key "5" then Some 5%nat
  else if String.eqb key "6" then Some 6%nat
  else if String.eqb key "7" then Some 7%nat
  else if String.eqb key "8" then Some 8%nat
  else if String.eqb key "9" then Some 9%nat
  else None.

(** [handleKeydown(event)]: [in_form] tells whether the target matches
    [input, textarea, select, [contenteditable]]; reading [.id] of a
    section that is not there throws. *)
Definition handleKeydown (key : string) (ctrlOrMeta in_form : bool) (now : Q)
  (c : controller) : completion controller :=
  if in_form then Normal c
  else if String.eqb key "ArrowDown" || String.eqb key "PageDown"
          || String.eqb key " "
  then Normal (navigateNext now (perform [PreventDefault] c))
  else if String.eqb key "ArrowUp" || String.eqb key "PageUp"
  then Normal (navigatePrevious now (perform [PreventDefault] c))
  else if String.eqb key "Home" then
    let c0 := perform [PreventDefault] c in
    match sections c0 !! 0%nat with
    | Some s => Normal (navigateToSection (id s) true now c0)
    | None => Abrupt "TypeError" c0
    end
  else if String.eqb key "End" then
    let c0 := perform [PreventDefault] c in
    match sections c0 !! (length (sections c0) - 1)%nat with
    | Some s => Normal (navigateToSection (id s) true now c0)
    | None => Abrupt "TypeError" c0
    end
  else if String.eqb key "Escape" then
    Normal (perform [PreventDefault; FocusMainNavigation] c)
  else
    match digit_key key with
    | Some digit =>
        if ctrlOrMeta then
          let c0 := perform [PreventDefault] c in
          match sections c0 !! (digit - 1)%nat with
          | Some s => Normal (navigateToSection (id s) true now c0)
          | None => Normal c0
          end
        else Normal c
    | None => Normal c
    end.

(** What can happen to a running controller. *)
Inductive event : Type :=
| Keydown (key : string) (ctrlOrMeta in_form : bool)
| HashChanged (hash : string)
| NavClicked (href : string)
| NavigateTo (sectionId : string) (update_url : bool)
| Next
| Previous
| FocusIn (section_id : option string)
| ScrollDone (k : nat).

(** An event at time [now].  The key and focus listeners are installed
    only with [keyboardNavigation], the hash listener only with
    [updateURL]; the browser has already changed the fragment when it
    reports a hash change. *)
Definition step (ev : event) (now : Q) (c : controller) : completion controller :=
  match ev with
  | Keydown key ctrlOrMeta in_form =>
      if keyboardNavigation (opts c)
      then handleKeydown key ctrlOrMeta in_form now c
      else Normal c
  | HashChanged hash =>
      Normal (if updateURL (opts c) then handleHashChange hash now c
              else set_location_hash hash c)
  | NavClicked href => Normal (handleNavClick href now c)
  | NavigateTo sectionId update_url =>
      Normal (navigateToSection sectionId update_url now c)
  | Next => Normal (navigateNext now c)
  | Previous => Normal (navigatePrevious now c)
  | FocusIn section_id =>
      Normal (if keyboardNavigation (opts c) then handleFocusChange section_id c
              else c)
  | ScrollDone k => Normal (scrollDone k c)
  end.

(** A listener that throws does not stop the page: the exception is
    reported and the next event is handled from the state reached. *)
Definition after (r : completion controller) : controller :=
  match r with
  | Normal c => c
  | Abrupt _ c => c
  end.

Fixpoint run (evs : list (event * Q)) (c : controller) : controller :=
  match evs with
  | [] => c
  | (ev, now) :: rest => run rest (after (step ev now c))
  end.

(** The fragments written with [history.pushState], in order. *)
Fixpoint pushed (tr : list effect) : list string :=
  match tr with
  | [] => []
  | PushState hash :: rest => hash :: pushed rest
  | _ :: rest => pushed rest
  end.

(** Whether an event asks for a navigation. *)
Definition is_request (ev : event) : bool :=
  match ev with
  | FocusIn _ | ScrollDone _ => false
  | _ => true
  end.

End Navigation.

(** ** NavigationController.smoothScrollTo *)
Module SmoothScroll.

(** [Math.min(a, b)] and [Math.abs(a)] on finite numbers *)
Definition Qmin (a b : Q) : Q := if Qle_bool a b then a else b.
Definition Qabs (a : Q) : Q := if Qle_bool 0 a then a else (- a)%Q.

(** [easeInOutCubic(t)] *)
Definition easeInOutCubic (t : Q) : Q :=
  if negb (Qle_bool (1 # 2) t) then (4 * t * t * t)%Q
  else ((t - 1) * (2 * t - 2) * (2 * t - 2) + 1)%Q.

(** [Math.min(Math.abs(distance) / 2, 1000)] *)
Definition scroll_duration (distance : Q) : Q := Qmin (Qabs distance / 2) 1000.

(** The window's vertical position, whether a frame is requested and
    whether the promise has resolved. *)
Record scroll : Type := {
  position : Q;
  requested : bool;
  resolved : bool
}.

(** [smoothScrollTo(targetY)] called at time [startTime] with the
    window at [startY]: the state before the first frame.  The model
    takes the distance to be non-zero, so that the duration is not 0. *)
Definition smoothScrollTo (startY : Q) : scroll := Build_scroll startY true false.

(** The closure [animateScroll] *)
Definition animateScroll (startY targetY startTime : Q) (currentTime : Q)
  (s : scroll) : scroll :=
  let distance := (targetY - startY)%Q in
  let duration := scroll_duration distance in
  let elapsed := (currentTime - startTime)%Q in
  let progress := Qmin (elapsed / duration) 1 in
  let easedProgress := easeInOutCubic progress in
  let currentY := (startY + distance * easedProgress)%Q in
  if negb (Qle_bool 1 progress)
  then Build_scroll currentY true false
  else Build_scroll currentY false true.

Definition on_frame (startY targetY startTime : Q) (s : scroll)
  (currentTime : Q) : scroll :=
  if requested s then animateScroll startY targetY startTime currentTime s else s.

Definition frames (startY targetY startTime : Q) (timestamps : list Q)
  : scroll :=
  fold_left (on_frame startY targetY startTime) timestamps (smoothScrollTo startY).

End SmoothScroll.

(** ** AccessibilityController: the focus history
    (src/js/accessibility-controller.js) *)
Module Accessibility.

Record focus_entry : Type := {
  element : nat;
  timestamp : Q;
  section : option string      (* the id of the closest [.story-section] *)
}.

Record controller : Type := {
  focusHistory : list focus_entry;
  currentFocusIndex : Z;
  announced : list nat          (* elements whose focus was announced *)
}.

(** The controller after its constructor. *)
Definition create : controller := Build_controller [] (-1) [].

(** [handleFocus(event)]: [announce] is [shouldAnnounceFocus(target)]. *)
Definition handleFocus (target : nat) (now : Q) (sec : option string)
  (announce : bool) (c : controller) : controller :=
  let pushed := focusHistory c ++ [Build_focus_entry target now sec] in
  let limited := if (50 <? length pushed)%nat then tail pushed else pushed in
  Build_controller limited (Z.of_nat (length limited) - 1)
                   (if announce then announced c ++ [target] else announced c).

(** A focus event: the target, the time, the section around the target
    and whether [shouldAnnounceFocus] holds for it. *)
Record focus_event : Type := {
  ev_target : nat;
  ev_now : Q;
  ev_section : option string;
  ev_announce : bool
}.

Definition entry_of (ev : focus_event) : focus_entry :=
  Build_focus_entry (ev_target ev) (ev_now ev) (ev_section ev).

(** The controller after the focus events [evs], oldest first. *)
Definition focuses (evs : list focus_event) (c : controller) : controller :=
  fold_left (fun c ev => handleFocus (ev_target ev) (ev_now ev)
                                     (ev_section ev) (ev_announce ev) c)
            evs c.

End Accessibility.

(** ** MediaController (src/js/content-manager.js, second class) *)
Module Media.

Inductive media_type : Type := Image | Video | BackgroundVideo | Picture.

(** A media record ([mediaData]).  For a [picture], [has_img] tells
    whether it contains an [img]. *)
Record media : Type := {
  id : string;
  type : media_type;
  loaded : bool;
  loading : bool;
  error : bool;
  src : option string;
  fallbackSrc : option string;
  priority : Z;
  has_img : bool
}.

Inductive effect : Type :=
| LoadStarted (source : option string)
| SourceApplied (source : string)
| ConsoleError (msg : string)
| ConsoleLog (msg : string)
| Dispatch (event : string) (mediaId : string).

(** What the controller shares between records.  [attempts] counts the
    loads started so far. *)
Record world : Type := {
  loadedMedia : gset string;
  attempts : nat;
  trace : list effect
}.

(** Whether the load started as attempt number [n] from [source]
    succeeds. *)
Definition network : Type := nat -> option string -> bool.

Definition set_flags (is_loaded is_loading is_error : bool) (m : media) : media :=
  Build_media (id m) (type m) is_loaded is_loading is_error (src m)
              (fallbackSrc m) (priority m) (has_img m).

Definition set_src (v : option string) (m : media) : media :=
  Build_media (id m) (type m) (loaded m) (loading m) (error m) v
              (fallbackSrc m) (priority m) (has_img m).

Definition set_type (v : media_type) (m : media) : media :=
  Build_media (id m) v (loaded m) (loading m) (error m) (src m)
              (fallbackSrc m) (priority m) (has_img m).

Definition perform (effs : list effect) (w : world) : world :=
  Build_world (loadedMedia w) (attempts w) (trace w ++ effs).

(** A string that is there and not empty. *)
Definition truthy (s : option string) : bool :=
  match s with
  | Some v => negb (String.eqb v "")
  | None => false
  end.

(** One load from the network. *)
Definition fetch (net : network) (source : option string) (w : world)
  : world * bool :=
  (Build_world (loadedMedia w) (S (attempts w)) (trace w ++ [LoadStarted source]),
   net (attempts w) source).

(** [loadImage(media)]: the promise resolves ([true]) or rejects. *)
Definition loadImage (net : network) (m : media) (w : world) : world * bool :=
  if truthy (src m) then
    let '(w1, ok) := fetch net (src m) w in
    if ok then (perform [SourceApplied (default "" (src m))] w1, true)
    else (w1, false)
  else (w, false).

(** [loadVideo(media)] *)
Definition loadVideo (net : network) (m : media) (w : world) : world * bool :=
  fetch net (src m) w.

(** [loadPicture(media)]: the record becomes an image record. *)
Definition loadPicture (net : network) (m : media) (w : world)
  : media * world * bool :=
  if has_img m then
    let m1 := set_type Image m in
    let '(w1, ok) := loadImage net m1 w in (m1, w1, ok)
  else (m, w, false).

(** The [switch] inside the [try] of [loadMedia] *)
Definition load (net : network) (m : media) (w : world) : media * world * bool :=
  match type m with
  | Image => let '(w1, ok) := loadImage net m w in (m, w1, ok)
  | Video | BackgroundVideo => let '(w1, ok) := loadVideo net m w in (m, w1, ok)
  | Picture => loadPicture net m w
  end.

(** A call either returns, or is still awaiting a load when the
    observation ends. *)
Inductive outcome : Type :=
| Returned (m : media) (w : world)
| Awaiting (m : media) (w : world).

(** [loadFallback(media)], given [loadMedia].  [loadMedia] never
    rejects, so the [catch] that would restore the original source is
    never entered. *)
Definition loadFallback (loadMedia : media -> world -> outcome)
  (m : media) (w : world) : outcome :=
  match loadMedia (set_src (fallbackSrc m) m) w with
  | Returned m' w' =>
      Returned m' (perform [ConsoleLog ("Loaded fallback for " ++ id m')] w')
  | Awaiting m' w' => Awaiting m' w'
  end.

(** [loadMedia(media)], observed for at most [fuel] nested calls. *)
Fixpoint loadMedia (fuel : nat) (net : network) (m : media) (w : world)
  : outcome :=
  if loading m || loaded m then Returned m w
  else
    match fuel with
    | O => Awaiting m w
    | S fuel' =>
        let m1 := set_flags (loaded m) true (error m) m in
        let '(m2, w2, ok) := load net m1 w in
        if ok then
          Returned (set_flags true false (error m2) m2)
                   (perform [Dispatch "media:loaded" (id m2)]
                            (Build_world ({[id m2]} ∪ loadedMedia w2)
                                         (attempts w2) (trace w2)))
        else
          let m3 := set_flags (loaded m2) false true m2 in
          let w3 := perform [ConsoleError ("Failed to load media " ++ id m3)] w2 in
          if truthy (fallbackSrc m3) then
            match loadFallback (loadMedia fuel' net) m3 w3 with
            | Returned m4 w4 =>
                Returned m4 (perform [Dispatch "media:error" (id m4)] w4)
            | Awaiting m4 w4 => Awaiting m4 w4
            end
          else Returned m3 (perform [Dispatch "media:error" (id m3)] w3)
    end.

(** The guard of [handleIntersection] for one intersecting element *)
Definition handleIntersection (fuel : nat) (net : network) (m : media)
  (w : world) : outcome :=
  if negb (loaded m) && negb (loading m) then loadMedia fuel net m w
  else Returned m w.

(** The media record and world of an outcome. *)
Definition record (o : outcome) : media :=
  match o with Returned m _ | Awaiting m _ => m end.

Definition world_of (o : outcome) : world :=
  match o with Returned _ w | Awaiting _ w => w end.

(** [getLoadingProgress()] for [total] registered records *)
Definition getLoadingProgress (total : nat) (w : world) : Q :=
  if (0 <? total)%nat
  then (inject_Z (Z.of_nat (size (loadedMedia w))) / inject_Z (Z.of_nat total))%Q
  else 1%Q.

(** The specification's retry rule, for comparison: the primary source
    and then, if it fails and a fallback is configured, the fallback,
    once. *)
Definition spec_max_attempts : nat := 2.

End Media.

(** ** ContentManager: the content cache
    (src/js/content-manager.js, first class)

    The content structure is taken to be loaded.  Section content is
    any JSON value but [null]; [validateSectionContent] reads
    properties of it and only warns, so it throws exactly on [null]. *)
Module Content.

Record section : Type := {
  id : string;
  title : string;
  type : string;
  contentFile : string
}.

(** What [fetch] and [response.json()] give for one URL. *)
Inductive response (content : Type) : Type :=
| NetworkError                   (* [fetch] rejects *)
| NotOk (status : Z)             (* [response.ok] is false *)
| BadJson                        (* [response.json()] rejects *)
| JsonNull                       (* the body is [null] *)
| Json (c : content).
Arguments NetworkError {content}.
Arguments NotOk {content} status.
Arguments BadJson {content}.
Arguments JsonNull {content}.
Arguments Json {content} c.

(** The manager: its options, the cache, the sections of the content
    structure, and what it has asked of the network and written with
    [console.error], oldest first. *)
Record manager (content : Type) : Type := {
  contentPath : string;
  cacheContent : bool;
  contentCache : gmap string content;
  sections : list section;
  requests : list string;
  errors : list string
}.
Arguments contentPath {content} m.
Arguments cacheContent {content} m.
Arguments contentCache {content} m.
Arguments sections {content} m.
Arguments requests {content} m.
Arguments errors {content} m.

Section Manager.
Context {content : Type}.

(** [getDefaultSectionContent(section)] *)
Variable getDefaultSectionContent : section -> content.

Definition set_cache (v : gmap string content) (m : manager content)
  : manager content :=
  Build_manager content (contentPath m) (cacheContent m) v (sections m)
                (requests m) (errors m).

Definition request (url : string) (m : manager content) : manager content :=
  Build_manager content (contentPath m) (cacheContent m) (contentCache m)
                (sections m) (requests m ++ [url]) (errors m).

Definition console_error (msg : string) (m : manager content)
  : manager content :=
  Build_manager content (contentPath m) (cacheContent m) (contentCache m)
                (sections m) (requests m) (errors m ++ [msg]).

(** [sections.find(s => s.id === sectionId)] *)
Fixpoint find_section (sectionId : string) (ss : list section)
  : option section :=
  match ss with
  | [] => None
  | s :: rest =>
      if String.eqb (id s) sectionId then Some s
      else find_section sectionId rest
  end.

(** [loadSectionContent(sectionId)]: the promise rejects ([inl]) or
    resolves with content ([inr]). *)
Definition loadSectionContent (net : string -> response content)
  (sectionId : string) (m : manager content)
  : manager content * (string + content) :=
  match (if cacheContent m then contentCache m !! sectionId else None) with
  | Some c => (m, inr c)
  | None =>
      match find_section sectionId (sections m) with
      | None =>
          (m, inl ("Section " ++ sectionId
                  ++ " not found in content structure")%string)
      | Some s =>
          let url := (contentPath m ++ contentFile s)%string in
          let m1 := request url m in
          match net url with
          | Json c =>
              (if cacheContent m
               then set_cache (<[sectionId := c]> (contentCache m1)) m1
               else m1,
               inr c)
          | _ =>
              (console_error
                 ("Error loading content for section " ++ sectionId ++ ":")%string
                 m1,
               inr (getDefaultSectionContent s))
          end
      end
  end.

(** [updateSectionContent(sectionId, newContent)]: [newContent] is
    [None] for [null], [dom] tells whether [updateSectionDOM] and the
    event dispatch after it complete.  The promise resolves ([None]) or
    rejects. *)
Definition updateSectionContent (dom : bool) (sectionId : string)
  (newContent : option content) (m : manager content)
  : manager content * option string :=
  let failed :=
    console_error ("Failed to update content for " ++ sectionId ++ ":")%string
  in
  match find_section sectionId (sections m) with
  | None => (failed m, Some ("Section " ++ sectionId ++ " not found")%string)
  | Some s =>
      match newContent with
      | None => (failed m, Some "TypeError"%string)
      | Some c =>
          let m1 := set_cache (<[sectionId := c]> (contentCache m)) m in
          if dom then (m1, None) else (failed m1, Some "Error"%string)
      end
  end.

(** [clearCache(sectionId)]: [None] is a call without argument. *)
Definition clearCache (sectionId : option string) (m : manager content)
  : manager content :=
  match sectionId with
  | Some i =>
      if String.eqb i ""%string then set_cache ∅ m
      else set_cache (delete i (contentCache m)) m
  | None => set_cache ∅ m
  end.

(** Loading the sections [ids] one after the other, each load awaited:
    the manager afterwards and what each promise settled with. *)
Fixpoint loads (net : string -> response content) (ids : list string)
  (m : manager content) : manager content * list (string + content) :=
  match ids with
  | [] => (m, [])
  | i :: rest =>
      let '(m1, r) := loadSectionContent net i m in
      let '(m2, rs) := loads net rest m1 in
      (m2, r :: rs)
  end.

(** The same manager constructed with [cacheContent: false]. *)
Definition without_cache (m : manager content) : manager content :=
  Build_manager content (contentPath m) false (contentCache m) (sections m)
                (requests m) (errors m).

End Manager.

End Content.

(** ** GalleryManager: the lightbox (src/js/gallery-manager.js)

    The galleries are taken to be loaded and the lightbox element to
    be in the page ([setupLightbox] has run).  A gallery is known by
    the number of its images (or members). *)
Module Gallery.

(** [currentImageIndex] is [None] when it is [NaN]; [shown] is the
    index whose image and counter the lightbox displays. *)
Record lightbox : Type := {
  lightboxOpen : bool;
  currentImageIndex : option Z;
  currentGallery : option string;
  shown : option Z
}.

(** The manager after its constructor. *)
Definition create : lightbox := Build_lightbox false (Some 0) None None.

(** [a % n] on integers: the remainder has the sign of [a], and is
    [NaN] for [n = 0]. *)
Definition js_rem (a : option Z) (n : Z) : option Z :=
  match a with
  | Some v => if n =? 0 then None else Some (Z.rem v n)
  | None => None
  end.

(** [a + k] *)
Definition js_plus (a : option Z) (k : Z) : option Z :=
  match a with
  | Some v => Some (v + k)
  | None => None
  end.

(** [!this.currentGallery]: [null] and the empty string *)
Definition no_gallery (g : option string) : bool :=
  match g with
  | Some name => String.eqb name ""
  | None => true
  end.

(** [images[index]] is there *)
Definition has_item (n : nat) (index : option Z) : bool :=
  match index with
  | Some v => (0 <=? v) && (v <? Z.of_nat n)
  | None => false
  end.

Section Lightbox.
Variable galleries : gmap string nat.

(** [updateLightboxContent()].  Reading the images of a gallery that
    is not there throws. *)
Definition updateLightboxContent (st : lightbox) : completion lightbox :=
  if no_gallery (currentGallery st) then Normal st
  else
    match currentGallery st ≫= (galleries !!.) with
    | Some n =>
        if has_item n (currentImageIndex st)
        then Normal (Build_lightbox (lightboxOpen st) (currentImageIndex st)
                                    (currentGallery st) (currentImageIndex st))
        else Normal st
    | None => Abrupt "TypeError" st
    end.

(** [openLightbox(galleryType, imageIndex)] *)
Definition openLightbox (galleryType : string) (imageIndex : Z)
  (st : lightbox) : completion lightbox :=
  match galleries !! galleryType with
  | None => Normal st
  | Some _ =>
      updateLightboxContent
        (Build_lightbox true (Some imageIndex) (Some galleryType) (shown st))
  end.

(** [closeLightbox()] *)
Definition closeLightbox (st : lightbox) : completion lightbox :=
  Normal (Build_lightbox false (currentImageIndex st) (currentGallery st)
                         (shown st)).

(** [nextImage()] and [previousImage()] move the index by [delta]. *)
Definition move (next : option Z -> Z -> option Z) (st : lightbox)
  : completion lightbox :=
  if no_gallery (currentGallery st) then Normal st
  else
    match currentGallery st ≫= (galleries !!.) with
    | Some n =>
        updateLightboxContent
          (Build_lightbox (lightboxOpen st)
                          (next (currentImageIndex st) (Z.of_nat n))
                          (currentGallery st) (shown st))
    | None => Abrupt "TypeError" st
    end.

Definition nextImage : lightbox -> completion lightbox :=
  move (fun index n => js_rem (js_plus index 1) n).

Definition previousImage : lightbox -> completion lightbox :=
  move (fun index n => js_rem (js_plus (js_plus index (-1)) n) n).

(** The [keydown] listener *)
Definition keydown (key : string) (st : lightbox) : completion lightbox :=
  if negb (lightboxOpen st) then Normal st
  else if String.eqb key "Escape" then closeLightbox st
  else if String.eqb key "ArrowLeft" then previousImage st
  else if String.eqb key "ArrowRight" then nextImage st
  else Normal st.

(** The key presses [keys], one after the other. *)
Definition presses (keys : list string) (st : lightbox) : completion lightbox :=
  forEach keydown keys st.

End Lightbox.

End Gallery.

(** ** AppleNavigation: showing and hiding the navigation bar
    (src/js/apple-navigation.js)

    The page is taken to have its [.main-nav] and [.nav-toggle]
    elements.  Of the bar's class list the model keeps [visible] and
    [mobile-open], of the toggle's [active], of the body's style
    whether [overflow] is [hidden]. *)
Module AppleNav.

Inductive direction : Type := Up | Down.

Record nav : Type := {
  isVisible : bool;
  isMobile : bool;
  scrollPosition : Q;
  scrollDirection : direction;
  visible_class : bool;
  mobile_open_class : bool;
  toggle_active : bool;
  body_locked : bool
}.

(** [a > b] on finite numbers *)
Definition gt (a b : Q) : bool := negb (Qle_bool a b).

(** The object after the field initialisers of the constructor, on a
    window [innerWidth] wide and a bar with the given classes. *)
Definition create (innerWidth : Q) (visible mobile_open : bool) : nav :=
  Build_nav false (Qle_bool innerWidth 768) 0 Up visible mobile_open false false.

(** [showNav()] *)
Definition showNav (st : nav) : nav :=
  if negb (isMobile st)
  then Build_nav true (isMobile st) (scrollPosition st) (scrollDirection st)
                 true (mobile_open_class st) (toggle_active st) (body_locked st)
  else st.

(** [hideNav()] *)
Definition hideNav (st : nav) : nav :=
  if negb (isMobile st) && negb (mobile_open_class st)
  then Build_nav false (isMobile st) (scrollPosition st) (scrollDirection st)
                 false (mobile_open_class st) (toggle_active st) (body_locked st)
  else st.

(** [showMobileNav()] *)
Definition showMobileNav (st : nav) : nav :=
  Build_nav true (isMobile st) (scrollPosition st) (scrollDirection st)
            true true true true.

(** [hideMobileNav()] *)
Definition hideMobileNav (st : nav) : nav :=
  Build_nav false (isMobile st) (scrollPosition st) (scrollDirection st)
            false false false false.

(** [toggleMobileNav()] *)
Definition toggleMobileNav (st : nav) : nav :=
  if mobile_open_class st then hideMobileNav st else showMobileNav st.

(** [handleScroll()] with the window at [currentScroll] *)
Definition handleScroll (currentScroll : Q) (st : nav) : nav :=
  let scrollDelta := (currentScroll - scrollPosition st)%Q in
  let dir :=
    if gt scrollDelta 0 && gt currentScroll 100 then Down
    else if gt 0 scrollDelta then Up
    else scrollDirection st in
  let st1 := Build_nav (isVisible st) (isMobile st) (scrollPosition st) dir
                       (visible_class st) (mobile_open_class st)
                       (toggle_active st) (body_locked st) in
  let is_up := match dir with Up => true | Down => false end in
  let st2 :=
    if gt currentScroll 200 && is_up && negb (isVisible st1) then showNav st1
    else if Qle_bool currentScroll 100 || negb is_up then hideNav st1
    else st1 in
  Build_nav (isVisible st2) (isMobile st2) currentScroll (scrollDirection st2)
            (visible_class st2) (mobile_open_class st2)
            (toggle_active st2) (body_locked st2).

(** The [resize] listener on a window now [innerWidth] wide *)
Definition handleResize (innerWidth : Q) (st : nav) : nav :=
  let st1 := Build_nav (isVisible st) (Qle_bool innerWidth 768)
                       (scrollPosition st) (scrollDirection st)
                       (visible_class st) (mobile_open_class st)
                       (toggle_active st) (body_locked st) in
  if negb (isMobile st1) && mobile_open_class st1 then hideMobileNav st1
  else st1.

(** The [click] listener of the document for a click outside the bar
    and the toggle *)
Definition handleOutsideClick (st : nav) : nav :=
  if isMobile st && isVisible st then hideMobileNav st else st.

(** What happens to the bar: a frame after scrolling, a click on the
    toggle, a resize, a click elsewhere, and the timer that a click on
    a link sets on a mobile window. *)
Inductive event : Type :=
| Scrolled (currentScroll : Q)
| ToggleClicked
| Resized (innerWidth : Q)
| ClickedOutside
| LinkTimerFired.

Definition step (st : nav) (ev : event) : nav :=
  match ev with
  | Scrolled currentScroll => handleScroll currentScroll st
  | ToggleClicked => toggleMobileNav st
  | Resized innerWidth => handleResize innerWidth st
  | ClickedOutside => handleOutsideClick st
  | LinkTimerFired => hideMobileNav st
  end.

Definition run (evs : list event) (st : nav) : nav := fold_left step evs st.

End AppleNav.

(** ** Concrete pages and inputs used by the examples *)
Module Scenarios.
Import Engine.
Local Open Scope string_scope.

(** A section element with an id and nothing inside. *)
Definition plain_section (name : string) : section_element :=
  Build_section_element name None [] 0 0 0 false false false None.

(** A page of two sections, freshly discovered. *)
Definition two_sections : engine unit :=
  create [plain_section "intro"; plain_section "problem"] tt.

Definition report (name : string) (intersecting : bool) (ratio : Q) : entry :=
  Build_entry name None intersecting ratio.

(** Both sections come into view, "problem" more than "intro". *)
Definition both_enter : list entry :=
  [report "intro" true (3 # 10); report "problem" true (6 # 10)].

(** Both sections leave the viewport in one batch (a jump far away). *)
Definition both_leave : list entry :=
  [report "problem" false 0; report "intro" false 0].


(** A section with two animated elements: a heading that fades up and
    a counter. *)
Definition animated_section : section_element :=
  Build_section_element "story" None
    [Build_animated_element "fade-up" None None 0;
     Build_animated_element "counter" (Some (1 # 2)) None 0]
    1 0 0 false false false None.

Definition animated_page : engine unit := create [animated_section] tt.


(** Three listeners on a page that records who was called; the second
    one throws after leaving its mark. *)
Definition noting (ref : nat) : callback (list nat) :=
  Build_callback (list nat) ref (fun _ w => Normal (w ++ [ref])%list).

Definition failing (ref : nat) : callback (list nat) :=
  Build_callback (list nat) ref (fun _ w => Abrupt "boom" (w ++ [ref])%list).

Definition three_listeners : engine (list nat) :=
  on "scroll" (noting 3)
     (on "scroll" (failing 2)
         (on "scroll" (noting 1) (create [] []))).


(** A page 1800 pixels high in a viewport of 800, scrolled half way. *)
Definition half_way : Browser.viewport :=
  Browser.Build_viewport 500 500 1800 800 true.

(** A page that fits the viewport: nothing to scroll. *)
Definition short_page : Browser.viewport :=
  Browser.Build_viewport 0 0 800 800 true.

(** Elastic scrolling above the top of the page. *)
Definition bounced : Browser.viewport :=
  Browser.Build_viewport (-40) (-40) 1800 800 true.


(** A controller that honours an active reduced-motion preference. *)
Definition calm_controller : Animation.controller :=
  Animation.Build_controller
    (Animation.Build_options (8 # 10) "power2.out" (1 # 10) true) true true.


(** A heading that is still hidden. *)
Definition hidden_heading : Animation.element :=
  Animation.Build_element (Some "0") (Some "translateY(30px)") ["fade-up"] "1200".

Definition no_entrance_options : Animation.entrance_options :=
  Animation.Build_entrance_options None None None None.

Definition no_counter_options : Animation.counter_options :=
  Animation.Build_counter_options None None None None.

(** A counter asked to run for one second. *)
Definition one_second : Animation.counter_options :=
  Animation.Build_counter_options (Some 1%Q) None None None.

(** A counter given a negative duration. *)
Definition minus_one_second : Animation.counter_options :=
  Animation.Build_counter_options (Some (-1)%Q) None None None.


(** An image whose primary source and whose fallback both fail. *)
Definition broken_image : Media.media :=
  Media.Build_media "hero" Media.Image false false false
                    (Some "bad.jpg") (Some "worse.jpg") 1 false.

Definition offline : Media.network := fun _ _ => false.

(** The specification's example: the primary source fails, the
    fallback loads. *)
Definition patched_image : Media.media :=
  Media.Build_media "hero" Media.Image false false false
                    (Some "bad.jpg") (Some "good.jpg") 1 false.

Definition only_good_loads : Media.network :=
  fun _ source => match source with
                  | Some s => String.eqb s "good.jpg"
                  | None => false
                  end.

(** A content manager for two sections with nothing cached, and a
    server that has the first section's file only. *)
Definition two_files : Content.manager string :=
  Content.Build_manager string "./content/" true ∅
    [Content.Build_section "hero" "Welcome" "hero" "hero.json";
     Content.Build_section "crisis" "The crisis" "crisis" "crisis.json"]
    [] [].

Definition hero_only : string -> Content.response string :=
  fun url => if String.eqb url "./content/hero.json"
             then Content.Json "hero content"
             else Content.NotOk 404.

Definition placeholder : Content.section -> string :=
  fun s => Content.title s.

(** The two galleries of the site, with three centres and two team
    members. *)
Definition site_galleries : gmap string nat :=
  {[ "spainCenters" := 3%nat; "team" := 2%nat ]}.

Definition fresh_world : Media.world := Media.Build_world ∅ 0 [].

(** An image without a fallback. *)
Definition lone_image : Media.media :=
  Media.Build_media "hero" Media.Image false false false
                    (Some "bad.jpg") None 1 false.

(** A [picture] element with no [img] inside, with a fallback. *)
Definition empty_picture : Media.media :=
  Media.Build_media "hero" Media.Picture false false false
                    (Some "bad.jpg") (Some "good.jpg") 1 false.

(** A page of two sections for the navigation controller. *)
Definition two_stops : Navigation.controller :=
  Navigation.create (Navigation.Build_options true true true 0)
                    [("intro", 0%Q); ("problem", 900%Q)] "".

(** Fifty-one navigations to "problem", each followed by the end of its
    scroll. *)
Definition fifty_one_navigations : list (Navigation.event * Q) :=
  concat (replicate 51 [(Navigation.NavigateTo "problem" true, 0%Q);
                        (Navigation.ScrollDone 0, 1%Q)]).


(** The page of two sections while it scrolls to "problem". *)
Definition scrolling_to_problem : Navigation.controller :=
  Navigation.navigateToSection "problem" true 0 two_stops.

End Scenarios.

(** * Properties *)

(** ** Comparisons on rationals *)
Module JsNumFacts.
Import JsNum.

Lemma Qlt_bool_iff (a b : Q) : Qlt_bool a b = true <-> (a < b)%Q.
Proof.
  unfold Qlt_bool. rewrite negb_true_iff.
  split; intros H.
  - apply Qnot_le_lt. intros Hle. apply Qle_bool_iff in Hle. congruence.
  - destruct (Qle_bool b a) eqn:E; [|reflexivity].
    apply Qle_bool_iff in E. exfalso. apply (Qlt_not_le _ _ H E).
Qed.

Lemma Qlt_bool_false_iff (a b : Q) : Qlt_bool a b = false <-> (b <= a)%Q.
Proof.
  unfold Qlt_bool. rewrite negb_false_iff. apply Qle_bool_iff.
Qed.

End JsNumFacts.

(** ** Reasoning about completions *)

Lemma returns_andThen {S : Type} (P Q : S -> Prop) c k :
  returns Q c ->
  (forall s, Q s -> returns P (k s)) ->
  returns P (c >>> k).
Proof.
  destruct c as [s|err s]; simpl; [|tauto].
  intros HQ Hk. apply Hk, HQ.
Qed.

Lemma returns_weaken {S : Type} (P Q : S -> Prop) (c : completion S) :
  returns Q c -> (forall s, Q s -> P s) -> returns P c.
Proof. destruct c; simpl; [auto | tauto]. Qed.

Lemma returns_forEach {A S : Type} (I : S -> Prop)
      (f : A -> S -> completion S) (xs : list A) :
  (forall x s, In x xs -> I s -> returns I (f x s)) ->
  forall s, I s -> returns I (forEach f xs s).
Proof.
  induction xs as [|x rest IH]; intros Hf s Hs; simpl; [exact Hs|].
  apply returns_andThen with (Q := I).
  - apply Hf; [left; reflexivity | exact Hs].
  - intros s' Hs'. apply IH; [|exact Hs'].
    intros y t Hy. apply Hf. right. exact Hy.
Qed.

Lemma returns_inv {S : Type} (P : S -> Prop) (c : completion S) :
  returns P c -> exists s, c = Normal s /\ P s.
Proof. destruct c as [s|err s]; simpl; [eauto | tauto]. Qed.

(** Steps related by a preorder compose. *)
Lemma returns_rel_andThen {S : Type} (R : S -> S -> Prop) (s0 : S) c k :
  (forall a b d, R a b -> R b d -> R a d) ->
  returns (R s0) c ->
  (forall s, returns (R s) (k s)) ->
  returns (R s0) (c >>> k).
Proof.
  intros Htrans Hc Hk. eapply returns_andThen; [exact Hc|].
  intros s Hs. eapply returns_weaken; [apply Hk|].
  intros s' Hs'. eapply Htrans; eauto.
Qed.

Lemma returns_rel_forEach {A S : Type} (R : S -> S -> Prop)
      (f : A -> S -> completion S) (xs : list A) :
  (forall a, R a a) ->
  (forall a b d, R a b -> R b d -> R a d) ->
  (forall x s, returns (R s) (f x s)) ->
  forall s, returns (R s) (forEach f xs s).
Proof.
  intros Hrefl Htrans Hf. induction xs as [|x rest IH]; intros s; simpl.
  - apply Hrefl.
  - apply returns_rel_andThen; auto.
Qed.

Lemma returns_rel_after {S : Type} (R : S -> S -> Prop) (s0 s1 : S) c :
  (forall a b d, R a b -> R b d -> R a d) ->
  R s0 s1 -> returns (R s1) c -> returns (R s0) c.
Proof.
  intros Htrans H01 Hc. eapply returns_weaken; [exact Hc|].
  intros s Hs. eapply Htrans; eauto.
Qed.

(** ** ScrollytellingEngine *)
Module EngineFacts.
Import JsNum JsNumFacts Browser Engine.

(** The fields of the engine that callbacks cannot reach. *)
Definition same_state {W : Type} (e e' : engine W) : Prop :=
  sections e' = sections e /\
  currentSection e' = currentSection e /\
  scrollProgress e' = scrollProgress e /\
  isScrolling e' = isScrolling e /\
  callbacks e' = callbacks e.

(** What delivering an event leaves in the trace. *)
Definition listener_effect (eff : effect) : Prop :=
  match eff with
  | Invoke _ _ | ConsoleError _ _ => True
  | _ => False
  end.

(** The engine after some listeners ran: its own fields are as before
    and the trace has grown by calls and logged errors only. *)
Definition listened {W : Type} (e e' : engine W) : Prop :=
  same_state e e' /\
  exists more, trace e' = trace e ++ more /\ Forall listener_effect more.

(** The visibility part of the section records. *)
Definition visibility (secs : list section) : list (bool * Q) :=
  (fun s => (isVisible s, visibilityRatio s)) <$> secs.

(** Operations that leave the tracker's view of the page alone. *)
Definition same_tracking {W : Type} (e e' : engine W) : Prop :=
  visibility (sections e') = visibility (sections e) /\
  currentSection e' = currentSection e.

(** An effect other than the timer of an animation entry. *)
Definition quiet (eff : effect) : Prop :=
  match eff with
  | SetTimeout (TriggerAnimation _ _) _ => False
  | _ => True
  end.

(** A step that touches no animation entry. *)
Definition quiet_step {W : Type} (e e' : engine W) : Prop :=
  (forall sec idx, is_triggered e' sec idx = is_triggered e sec idx) /\
  exists more, trace e' = trace e ++ more /\ Forall quiet more.

(** A step in which, for every entry, the timers added and the flag
    raised go together, and no flag is lowered. *)
Definition entries_step {W : Type} (e e' : engine W) : Prop :=
  forall sec idx,
    (is_triggered e sec idx = true -> is_triggered e' sec idx = true) /\
    (scheduled (trace e') sec idx + (if is_triggered e sec idx then 1 else 0)
     = scheduled (trace e) sec idx + (if is_triggered e' sec idx then 1 else 0))%nat.

(** Every entry has been scheduled once if its flag is set and never
    otherwise. *)
Definition scheduled_iff_triggered {W : Type} (e : engine W) : Prop :=
  forall sec idx,
    scheduled (trace e) sec idx = if is_triggered e sec idx then 1%nat else 0%nat.

(** The invariant kept by the section tracker. *)
Definition tracks_leading {W : Type} (e : engine W) : Prop :=
  forall n, scan (sections e) 0 0%Q None = Some n -> currentSection e = Some n.

Section WithWorld.
Context {W : Type}.
Implicit Types (e : engine W) (cb : callback W).

Lemma same_state_refl e : same_state e e.
Proof. repeat split. Qed.

Lemma same_state_trans e1 e2 e3 :
  same_state e1 e2 -> same_state e2 e3 -> same_state e1 e3.
Proof.
  unfold same_state. intros (?&?&?&?&?) (?&?&?&?&?).
  repeat split; congruence.
Qed.

Lemma listened_refl e : listened e e.
Proof.
  split; [apply same_state_refl|]. exists []. rewrite app_nil_r. auto.
Qed.

Lemma listened_trans e1 e2 e3 :
  listened e1 e2 -> listened e2 e3 -> listened e1 e3.
Proof.
  intros [H12 (m1 & Ht1 & Hm1)] [H23 (m2 & Ht2 & Hm2)].
  split; [eapply same_state_trans; eauto|].
  exists (m1 ++ m2). rewrite Ht2, Ht1, app_assoc.
  split; [reflexivity | apply Forall_app; auto].
Qed.

Lemma guarded_call_returns event data cb e :
  returns (listened e) (guarded_call event data cb e).
Proof.
  unfold guarded_call, call.
  destruct (cb_call cb data _) as [w|err w]; simpl.
  - split; [repeat split|]. exists [Invoke (cb_ref cb) data].
    split; [reflexivity|]. repeat constructor.
  - split; [repeat split|].
    exists [Invoke (cb_ref cb) data; ConsoleError (error_in_callback event) err].
    split; [unfold perform, set_world; simpl; rewrite <- app_assoc; reflexivity|].
    repeat constructor.
Qed.

Lemma emit_returns event data e :
  returns (listened e) (emit event data e).
Proof.
  unfold emit. destruct (callbacks e !! event) as [cbs|]; simpl.
  - apply returns_forEach; [|apply listened_refl].
    intros cb s _ Hs.
    eapply returns_weaken; [apply guarded_call_returns|].
    intros s' Hs'. eapply listened_trans; eauto.
  - apply listened_refl.
Qed.

(** *** The scan of [updateCurrentSection] *)

Lemma scan_cases (secs : list section) :
  forall (i : nat) (m : Q) (b : option nat),
    (scan secs i m b = b /\
     forall k s, secs !! k = Some s -> isVisible s = true ->
                 (visibilityRatio s <= m)%Q)
    \/
    (exists k s,
        scan secs i m b = Some (i + k)%nat /\
        secs !! k = Some s /\ isVisible s = true /\
        (m < visibilityRatio s)%Q /\
        (forall j t, secs !! j = Some t -> isVisible t = true ->
                     (visibilityRatio t <= visibilityRatio s)%Q) /\
        (forall j t, (j < k)%nat -> secs !! j = Some t -> isVisible t = true ->
                     (visibilityRatio t < visibilityRatio s)%Q)).
Proof.
  induction secs as [|s rest IH]; intros i m b; simpl.
  - left. split; [reflexivity|]. intros k s Hk. rewrite lookup_nil in Hk.
    discriminate.
  - destruct (isVisible s && Qlt_bool m (visibilityRatio s)) eqn:Hc.
    + apply andb_true_iff in Hc. destruct Hc as [Hv Hlt].
      apply Qlt_bool_iff in Hlt.
      destruct (IH (S i) (visibilityRatio s) (Some i))
        as [[Heq Hall] | (k & s' & Heq & Hk & Hv' & Hlt' & Hmax & Hfirst)].
      * right. exists 0%nat, s. rewrite Heq, Nat.add_0_r.
        repeat split; auto.
        -- intros [|j] t Hj Ht; simpl in Hj.
           ++ inversion Hj; subst. apply Qle_refl.
           ++ eapply Hall; eauto.
        -- intros j t Hj. lia.
      * right. exists (S k), s'. rewrite Heq.
        replace (S i + k)%nat with (i + S k)%nat by lia.
        repeat split; auto.
        -- eapply Qlt_trans; eauto.
        -- intros [|j] t Hj Ht; simpl in Hj.
           ++ inversion Hj; subst. apply Qlt_le_weak; assumption.
           ++ eapply Hmax; eauto.
        -- intros [|j] t Hlt2 Hj Ht; simpl in Hj.
           ++ inversion Hj; subst. assumption.
           ++ eapply Hfirst; eauto. lia.
    + assert (Hs : isVisible s = true -> (visibilityRatio s <= m)%Q).
      { intros Hv. rewrite Hv in Hc. simpl in Hc.
        apply Qlt_bool_false_iff in Hc. exact Hc. }
      destruct (IH (S i) m b)
        as [[Heq Hall] | (k & s' & Heq & Hk & Hv' & Hlt' & Hmax & Hfirst)].
      * left. split; [exact Heq|].
        intros [|j] t Hj Ht; simpl in Hj.
        -- inversion Hj; subst. auto.
        -- eapply Hall; eauto.
      * right. exists (S k), s'. rewrite Heq.
        replace (S i + k)%nat with (i + S k)%nat by lia.
        repeat split; auto.
        -- intros [|j] t Hj Ht; simpl in Hj.
           ++ inversion Hj; subst. apply Qlt_le_weak.
              eapply Qle_lt_trans; [apply Hs; assumption | exact Hlt'].
           ++ eapply Hmax; eauto.
        -- intros [|j] t Hlt2 Hj Ht; simpl in Hj.
           ++ inversion Hj; subst.
              eapply Qle_lt_trans; [apply Hs; assumption | exact Hlt'].
           ++ eapply Hfirst; eauto. lia.
Qed.

Lemma scan_leading (secs : list section) (n : nat) :
  scan secs 0 0%Q None = Some n <-> leading secs n.
Proof.
  destruct (scan_cases secs 0 0%Q None)
    as [[Heq Hall] | (k & s & Heq & Hk & Hv & Hlt & Hmax & Hfirst)].
  - rewrite Heq. split; [discriminate|].
    intros (s & Hn & Hv & Hpos & _). exfalso.
    apply (Qlt_not_le _ _ Hpos). eapply Hall; eauto.
  - rewrite Heq. simpl. split.
    + intros [= <-]. exists s. repeat split; auto.
    + intros (s' & Hn & Hv' & Hpos & Hmax' & Hfirst').
      f_equal.
      destruct (Nat.lt_trichotomy k n) as [Hlt1 | [Heq1 | Hgt1]]; [|exact Heq1|].
      * exfalso. pose proof (Hfirst' k s Hlt1 Hk Hv) as H1.
        pose proof (Hmax n s' Hn Hv') as H2.
        apply (Qlt_not_le _ _ H1 H2).
      * exfalso. pose proof (Hfirst n s' Hgt1 Hn Hv') as H1.
        pose proof (Hmax' k s Hk Hv) as H2.
        apply (Qlt_not_le _ _ H1 H2).
Qed.

Lemma scan_none (secs : list section) :
  scan secs 0 0%Q None = None <-> forall n, ~ candidate secs n.
Proof.
  destruct (scan_cases secs 0 0%Q None)
    as [[Heq Hall] | (k & s & Heq & Hk & Hv & Hlt & Hmax & Hfirst)].
  - rewrite Heq. split; [|reflexivity].
    intros _ n (s & Hn & Hv & Hpos).
    apply (Qlt_not_le _ _ Hpos). eapply Hall; eauto.
  - rewrite Heq. split; [discriminate|].
    intros Hno. exfalso. apply (Hno k). exists s. auto.
Qed.

Lemma scan_visibility (secs secs' : list section) :
  visibility secs = visibility secs' ->
  forall i m b, scan secs i m b = scan secs' i m b.
Proof.
  revert secs'. induction secs as [|s rest IH]; intros [|s' rest'] Hv;
    try discriminate; [reflexivity|].
  simpl in Hv. injection Hv as Hb Hr Hrest.
  intros i m b. simpl. rewrite Hb, Hr.
  destruct (isVisible s' && Qlt_bool m (visibilityRatio s')); apply IH; exact Hrest.
Qed.


(** *** Operations that do not move the current section *)

Lemma same_tracking_refl e : same_tracking e e.
Proof. split; reflexivity. Qed.

Lemma same_tracking_trans e1 e2 e3 :
  same_tracking e1 e2 -> same_tracking e2 e3 -> same_tracking e1 e3.
Proof. intros [? ?] [? ?]. split; congruence. Qed.

Lemma listened_same_tracking e e' : listened e e' -> same_tracking e e'.
Proof. intros [(Hs & Hc & _) _]. split; congruence. Qed.

Lemma same_tracking_invariant e e' :
  same_tracking e e' -> tracks_leading e -> tracks_leading e'.
Proof.
  intros [Hv Hc] Hinv n Hn. rewrite Hc. apply Hinv.
  rewrite <- Hn. apply scan_visibility. symmetry. exact Hv.
Qed.

Lemma visibility_set_animations (secs : list section) sec s anims :
  secs !! sec = Some s ->
  visibility (<[sec := set_animations anims s]> secs) = visibility secs.
Proof.
  intros Hs. unfold visibility. rewrite list_fmap_insert. simpl.
  apply list_insert_id. rewrite list_lookup_fmap, Hs. reflexivity.
Qed.

Lemma triggerSectionAnimations_tracking sec e :
  same_tracking e (triggerSectionAnimations sec e).
Proof.
  unfold triggerSectionAnimations.
  destruct (sections e !! sec) as [s|] eqn:Hs; [|apply same_tracking_refl].
  destruct (trigger_entries sec 0 (animations s)) as [anims effs].
  split; simpl; [|reflexivity].
  apply visibility_set_animations. exact Hs.
Qed.

Lemma perform_tracking effs e : same_tracking e (perform effs e).
Proof. split; reflexivity. Qed.

Lemma handleSectionVisibility_tracking sec en e :
  same_tracking e (handleSectionVisibility sec en e).
Proof.
  unfold handleSectionVisibility.
  destruct (sections e !! sec) as [s|]; [|apply same_tracking_refl].
  repeat match goal with
         | |- context [if ?b then _ else _] => destruct b
         | |- context [match ?o with Some _ => _ | None => _ end] => destruct o
         end;
    first [apply same_tracking_refl | apply perform_tracking
          | apply triggerSectionAnimations_tracking].
Qed.

Lemma fold_left_tracking {A : Type} (f : engine W -> A -> engine W) (xs : list A) :
  (forall e x, same_tracking e (f e x)) ->
  forall e, same_tracking e (fold_left f xs e).
Proof.
  intros Hf. induction xs as [|x rest IH]; intros e; simpl.
  - apply same_tracking_refl.
  - eapply same_tracking_trans; [apply Hf | apply IH].
Qed.

Lemma handleAnimationTrigger_tracking entries e :
  same_tracking e (handleAnimationTrigger entries e).
Proof.
  unfold handleAnimationTrigger. apply fold_left_tracking.
  intros e0 en.
  repeat match goal with
         | |- context [if ?b then _ else _] => destruct b
         | |- context [match ?o with Some _ => _ | None => _ end] => destruct o
         end;
    first [apply same_tracking_refl | apply triggerSectionAnimations_tracking].
Qed.

Lemma start_tracking in_view e : same_tracking e (start in_view e).
Proof.
  unfold start. apply fold_left_tracking. intros e0 sec.
  destruct (in_view sec);
    [apply triggerSectionAnimations_tracking | apply same_tracking_refl].
Qed.

Lemma updateProgress_tracking vp e : same_tracking e (updateProgress vp e).
Proof.
  unfold updateProgress. destruct (progress_bar vp); split; reflexivity.
Qed.

Lemma emit_tracking event data e :
  returns (same_tracking e) (emit event data e).
Proof.
  eapply returns_weaken; [apply emit_returns|].
  intros s. apply listened_same_tracking.
Qed.

Lemma returns_tracking_after e e1 (c : engine W -> completion (engine W)) :
  same_tracking e e1 ->
  returns (same_tracking e1) (c e1) ->
  returns (same_tracking e) (c e1).
Proof.
  intros H1 H2. eapply returns_weaken; [exact H2|].
  intros s Hs. eapply same_tracking_trans; eauto.
Qed.


(** *** The tracker's invariant *)

Lemma updateCurrentSection_returns e :
  returns (fun e' =>
             tracks_leading e' /\ sections e' = sections e /\
             (scan (sections e) 0 0%Q None = None ->
              currentSection e' = currentSection e))
          (updateCurrentSection e).
Proof.
  unfold updateCurrentSection.
  destruct (scan (sections e) 0 0%Q None) as [n|] eqn:Hscan.
  - case_bool_decide as Hcur.
    + simpl. split; [|split; [reflexivity | discriminate]].
      intros n' Hn'. congruence.
    + eapply returns_weaken; [apply emit_returns|].
      intros e' [(Hs & Hc & _) _]. simpl in Hs, Hc.
      split; [|split; [exact Hs | discriminate]].
      intros n' Hn'. rewrite Hs in Hn'. congruence.
  - simpl. split; [|split; [reflexivity | auto]].
    intros n' Hn'. congruence.
Qed.

Lemma update_then_emit_returns event data e1 :
  returns (fun e3 =>
             exists e2,
               (tracks_leading e2 /\ sections e2 = sections e1 /\
                (scan (sections e1) 0 0%Q None = None ->
                 currentSection e2 = currentSection e1)) /\
               same_tracking e2 e3)
          (updateCurrentSection e1 >>> emit event data).
Proof.
  eapply returns_andThen; [apply updateCurrentSection_returns|].
  intros e2 H2. eapply returns_weaken; [apply emit_tracking|].
  intros e3 H3. exists e2. exact (conj H2 H3).
Qed.

Lemma handleEntry_unchanged_without_candidate en e :
  returns (fun e' => (forall n, ~ candidate (sections e') n) ->
                     currentSection e' = currentSection e)
          (handleEntry en e).
Proof.
  unfold handleEntry.
  destruct (sections_get (entry_key en) (sections e)) as [sec|]; [|simpl; auto].
  set (e1 := set_sections _ e).
  eapply returns_andThen; [apply update_then_emit_returns|].
  intros e3 (e2 & (Hinv & Hsecs & Hnone) & [Hv3 Hc3]). simpl.
  intros Hno.
  destruct (handleSectionVisibility_tracking sec en e3) as [Hv4 Hc4].
  rewrite Hc4, Hc3. apply Hnone.
  rewrite <- Hsecs.
  rewrite (scan_visibility (sections e2)
             (sections (handleSectionVisibility sec en e3)))
    by congruence.
  apply scan_none. exact Hno.
Qed.

Lemma handleEntry_invariant en e :
  tracks_leading e -> returns tracks_leading (handleEntry en e).
Proof.
  intros Hinv. unfold handleEntry.
  destruct (sections_get (entry_key en) (sections e)) as [sec|]; [|exact Hinv].
  set (e1 := set_sections _ e).
  eapply returns_andThen; [apply update_then_emit_returns|].
  intros e3 (e2 & (Hinv2 & _) & H3). simpl.
  eapply same_tracking_invariant;
    [apply handleSectionVisibility_tracking|].
  eapply same_tracking_invariant; eauto.
Qed.

Lemma handleIntersection_invariant entries e :
  tracks_leading e -> returns tracks_leading (handleIntersection entries e).
Proof.
  intros Hinv. unfold handleIntersection.
  apply returns_forEach; [|exact Hinv].
  intros en s _. apply handleEntry_invariant.
Qed.

Lemma debouncedScroll_tracking vp e :
  returns (same_tracking e) (debouncedScroll vp e).
Proof.
  unfold debouncedScroll, handleScroll.
  eapply returns_andThen.
  - eapply returns_andThen with (Q := same_tracking e).
    + destruct (isScrolling e); [apply same_tracking_refl|].
      eapply returns_weaken; [apply emit_tracking|].
      intros s [Hv Hc]. split; [exact Hv | exact Hc].
    + intros e1 H1.
      eapply returns_weaken; [apply emit_tracking|].
      intros s Hs. eapply same_tracking_trans; [exact H1|].
      eapply same_tracking_trans; [apply updateProgress_tracking | exact Hs].
  - intros e2 H2. simpl.
    eapply same_tracking_trans; [exact H2 | apply perform_tracking].
Qed.

Lemma triggerAnimation_tracking sec idx e :
  returns (same_tracking e) (triggerAnimation sec idx e).
Proof.
  unfold triggerAnimation.
  destruct (sections e !! sec ≫= _) as [a|]; [|apply same_tracking_refl].
  eapply returns_weaken; [apply emit_tracking|].
  intros s [Hv Hc]. split; [exact Hv | exact Hc].
Qed.

Lemma step_tracking (ev : @event W) e :
  match ev with SectionBatch _ => True
           | _ => returns (same_tracking e) (step ev e) end.
Proof.
  destruct ev as [entries|entries|vp|vp|in_view|t|name cb|name cb|sid];
    simpl; auto.
  - apply handleAnimationTrigger_tracking.
  - apply debouncedScroll_tracking.
  - unfold handleResize.
    eapply returns_weaken; [apply emit_tracking|].
    intros s Hs.
    eapply same_tracking_trans; [apply updateProgress_tracking | exact Hs].
  - apply start_tracking.
  - destruct t as [sec idx|el|el classes|]; simpl;
      try apply perform_tracking.
    + apply triggerAnimation_tracking.
    + eapply returns_weaken; [apply emit_tracking|].
      intros s [Hv Hc]. split; [exact Hv | exact Hc].
  - split; reflexivity.
  - unfold off. destruct (callbacks e !! name); split; reflexivity.
  - unfold navigateToSection.
    destruct (position sid (sections e)); simpl; [|apply perform_tracking].
    eapply returns_weaken; [apply emit_tracking|].
    intros s [Hv Hc]. split; [exact Hv | exact Hc].
Qed.

Lemma step_invariant (ev : @event W) e :
  tracks_leading e -> returns tracks_leading (step ev e).
Proof.
  intros Hinv.
  destruct ev as [entries| | | | | | | | ] eqn:Hev;
    [apply handleIntersection_invariant; exact Hinv | ..];
    (eapply returns_weaken;
     [match goal with
      | |- returns _ (step ?ev0 _) => exact (step_tracking ev0 e)
      end|];
     intros s Hs; eapply same_tracking_invariant; eauto).
Qed.

Lemma run_invariant (evs : list (@event W)) e :
  tracks_leading e -> returns tracks_leading (run evs e).
Proof.
  intros Hinv. unfold run. apply returns_forEach; [|exact Hinv].
  intros ev s _. apply step_invariant.
Qed.

(** *** The freshly discovered page *)

Lemma map_set_Forall (P : section -> Prop) key value m :
  P value -> Forall P m -> Forall P (map_set key value m).
Proof.
  intros Hv. induction 1 as [|s rest Hs Hrest IH]; simpl.
  - constructor; [exact Hv | constructor].
  - destruct (String.eqb (id s) key); constructor; auto.
Qed.

Lemma discoverSections_Forall (P : section -> Prop) els :
  (forall index el, P (sectionData index el)) ->
  Forall P (discoverSections els).
Proof.
  intros HP. unfold discoverSections.
  generalize (imap pair els). intros l.
  assert (H : Forall P []) by constructor. revert H.
  generalize (@nil section). induction l as [|[index el] rest IH]; intros m Hm.
  - exact Hm.
  - simpl. apply IH. apply map_set_Forall; auto.
Qed.

Lemma scan_invisible secs :
  Forall (fun s => isVisible s = false) secs ->
  forall i m b, scan secs i m b = b.
Proof.
  induction 1 as [|s rest Hs Hrest IH]; intros i m b; simpl; [reflexivity|].
  rewrite Hs. simpl. apply IH.
Qed.

Lemma create_invariant els (w : W) : tracks_leading (create els w).
Proof.
  intros n Hn. unfold create in Hn. simpl in Hn.
  rewrite scan_invisible in Hn; [discriminate|].
  apply discoverSections_Forall. reflexivity.
Qed.


(** C1, as amended.  Whatever happens to the engine after discovery
    (batches of the section observer interleaved with every other
    event), whenever some visible section has a positive
    [visibilityRatio] the current section is the leading one: the first
    section in iteration order among the visible sections of greatest
    ratio.  The current section is recomputed after every entry of a
    batch, and an entry after which no visible section has a positive
    ratio leaves the current section as it was before that entry. *)
Theorem current_section_is_leading_section :
  (forall (els : list section_element) (w : W) (evs : list (@event W)),
      returns (fun e => forall n, leading (sections e) n ->
                                  currentSection e = Some n)
              (run evs (create els w)))
  /\
  (forall (e : engine W) (en : entry),
      returns (fun e' => (forall n, ~ candidate (sections e') n) ->
                         currentSection e' = currentSection e)
              (handleEntry en e)).
Proof.
  split.
  - intros els w evs.
    eapply returns_weaken; [apply run_invariant, create_invariant|].
    intros e Hinv n Hn. apply Hinv. apply scan_leading. exact Hn.
  - intros e en. apply handleEntry_unchanged_without_candidate.
Qed.

End WithWorld.

(** C1, counterexample to the claim as stated.  "problem" is current
    and both sections are visible; one batch reports that both have
    left.  After the batch no section is visible, yet the current
    section is no longer the one from before the batch: the first entry
    made "intro" current.  Recomputing once per batch would have kept
    "problem". *)
Lemma current_section_moves_in_batch_that_hides_all :
  exists e1 e2 : engine unit,
    handleIntersection Scenarios.both_enter Scenarios.two_sections = Normal e1 /\
    handleIntersection Scenarios.both_leave e1 = Normal e2 /\
    currentSection e1 = Some 1%nat /\
    Forall (fun s => isVisible s = false) (sections e2) /\
    currentSection e2 = Some 0%nat /\
    spec_current_after_batch Scenarios.both_leave (sections e1)
                             (currentSection e1) = Some 1%nat /\
    currentSection e2 <>
    spec_current_after_batch Scenarios.both_leave (sections e1)
                             (currentSection e1).
Proof.
  do 2 eexists.
  split; [vm_compute; reflexivity|].
  split; [vm_compute; reflexivity|].
  vm_compute. repeat split; try discriminate.
  repeat constructor.
Qed.


(** *** Animation entries *)
Section Entries.
Context {W : Type}.
Implicit Types (e : engine W).

Lemma scheduled_app tr1 tr2 sec idx :
  scheduled (tr1 ++ tr2) sec idx
  = (scheduled tr1 sec idx + scheduled tr2 sec idx)%nat.
Proof. induction tr1 as [|eff rest IH]; simpl; [reflexivity | lia]. Qed.

Lemma scheduled_quiet more sec idx :
  Forall quiet more -> scheduled more sec idx = 0%nat.
Proof.
  induction 1 as [|eff rest Heff _ IH]; simpl; [reflexivity|].
  rewrite IH. destruct eff as [[]| | | | | | | | |]; simpl in *; tauto.
Qed.

Lemma listener_effect_quiet eff : listener_effect eff -> quiet eff.
Proof. destruct eff; simpl; tauto. Qed.

Lemma entries_step_refl e : entries_step e e.
Proof. intros sec idx. split; [auto | reflexivity]. Qed.

Lemma entries_step_trans e1 e2 e3 :
  entries_step e1 e2 -> entries_step e2 e3 -> entries_step e1 e3.
Proof.
  intros H12 H23 sec idx.
  destruct (H12 sec idx) as [Hm12 He12], (H23 sec idx) as [Hm23 He23].
  split; [auto|].
  destruct (is_triggered e1 sec idx), (is_triggered e2 sec idx),
    (is_triggered e3 sec idx); lia.
Qed.

Lemma quiet_step_refl e : quiet_step e e.
Proof. split; [auto|]. exists []. rewrite app_nil_r. auto. Qed.

Lemma quiet_step_trans e1 e2 e3 :
  quiet_step e1 e2 -> quiet_step e2 e3 -> quiet_step e1 e3.
Proof.
  intros [H12 (m1 & Ht1 & Hm1)] [H23 (m2 & Ht2 & Hm2)]. split.
  - intros sec idx. rewrite H23. apply H12.
  - exists (m1 ++ m2). rewrite Ht2, Ht1, app_assoc.
    split; [reflexivity | apply Forall_app; auto].
Qed.

Lemma quiet_step_entries_step e e' : quiet_step e e' -> entries_step e e'.
Proof.
  intros [Hflags (more & Htr & Hq)] sec idx. rewrite Hflags. split; [auto|].
  rewrite Htr, scheduled_app, (scheduled_quiet more) by exact Hq. lia.
Qed.

Lemma listened_quiet_step e e' : listened e e' -> quiet_step e e'.
Proof.
  intros [(Hs & _) (more & Htr & Hm)]. split.
  - intros sec idx. unfold is_triggered. rewrite Hs. reflexivity.
  - exists more. split; [exact Htr|].
    eapply Forall_impl; [exact Hm|]. apply listener_effect_quiet.
Qed.

Lemma perform_quiet_step effs e :
  Forall quiet effs -> quiet_step e (perform effs e).
Proof. intros Hq. split; [reflexivity|]. exists effs. auto. Qed.

Lemma emit_quiet_step event data e :
  returns (quiet_step e) (emit event data e).
Proof.
  eapply returns_weaken; [apply emit_returns|].
  intros s. apply listened_quiet_step.
Qed.

Lemma emit_after_quiet_step event data e e1 :
  quiet_step e e1 -> returns (quiet_step e) (emit event data e1).
Proof.
  intros H1. eapply returns_weaken; [apply emit_quiet_step|].
  intros s Hs. eapply quiet_step_trans; eauto.
Qed.

Lemma timers_quiet {A : Type} (f : A -> task) (g : A -> Q) (xs : list A) :
  (forall x, match f x with TriggerAnimation _ _ => False | _ => True end) ->
  Forall quiet (map (fun x => SetTimeout (f x) (g x)) xs).
Proof.
  intros Hf. apply Forall_map. apply Forall_forall. intros x _.
  specialize (Hf x). simpl. destruct (f x); auto.
Qed.

Lemma set_visibility_quiet_step v r sec e :
  quiet_step e (set_sections (alter (set_visibility v r) sec (sections e)) e).
Proof.
  split; [|exists []; simpl; rewrite app_nil_r; auto].
  intros s idx. unfold is_triggered. simpl.
  destruct (decide (sec = s)) as [->|Hne].
  - rewrite list_lookup_alter_eq.
    destruct (sections e !! s) as [x|]; reflexivity.
  - rewrite list_lookup_alter_ne by exact Hne. reflexivity.
Qed.


(** The loop of [triggerSectionAnimations] raises every flag and adds
    one timer for each entry whose flag was down. *)
Lemma trigger_entries_spec sec anims :
  forall idx0,
    (trigger_entries sec idx0 anims).1
    = (fun a => if triggered a then a else mark_triggered a) <$> anims
    /\
    forall sec' idx',
      scheduled (trigger_entries sec idx0 anims).2 sec' idx'
      = if Nat.eqb sec sec' && (idx0 <=? idx')%nat
        then match anims !! (idx' - idx0)%nat with
             | Some a => if triggered a then 0%nat else 1%nat
             | None => 0%nat
             end
        else 0%nat.
Proof.
  induction anims as [|a rest IH]; intros idx0.
  - split; [reflexivity|]. intros sec' idx'. cbn [trigger_entries snd scheduled].
    destruct (Nat.eqb sec sec' && (idx0 <=? idx')%nat); reflexivity.
  - destruct (IH (S idx0)) as [Hfst Hsnd].
    cbn [trigger_entries].
    destruct (trigger_entries sec (S idx0) rest) as [rest' effs] eqn:Hrec.
    cbn [fst snd] in Hfst, Hsnd.
    assert (Hlook : forall idx', (idx0 < idx')%nat ->
                     (a :: rest) !! (idx' - idx0)%nat = rest !! (idx' - S idx0)%nat).
    { intros idx' Hlt.
      replace (idx' - idx0)%nat with (S (idx' - S idx0)) by lia. reflexivity. }
    destruct (triggered a) eqn:Ha; cbn [fst snd].
    + split; [rewrite Hfst; cbn [fmap list_fmap]; rewrite Ha; reflexivity|].
      intros sec' idx'. rewrite Hsnd.
      destruct (Nat.eqb sec sec'); cbn [andb]; [|reflexivity].
      destruct (Nat.leb_spec (S idx0) idx'), (Nat.leb_spec idx0 idx');
        try lia; try reflexivity.
      * rewrite Hlook by lia. reflexivity.
      * replace (idx' - idx0)%nat with 0%nat by lia. cbn [lookup list_lookup].
        rewrite Ha. reflexivity.
    + split; [rewrite Hfst; cbn [fmap list_fmap]; rewrite Ha; reflexivity|].
      intros sec' idx'. cbn [scheduled entry_timer]. rewrite Hsnd.
      destruct (Nat.eqb sec sec'); cbn [andb]; [|reflexivity].
      destruct (Nat.eqb_spec idx0 idx') as [->|Hne].
      * rewrite Nat.sub_diag. cbn [lookup list_lookup]. rewrite Ha.
        destruct (Nat.leb_spec (S idx') idx'), (Nat.leb_spec idx' idx');
          try lia; reflexivity.
      * destruct (Nat.leb_spec (S idx0) idx'), (Nat.leb_spec idx0 idx');
          try lia; try reflexivity.
        rewrite Hlook by lia. reflexivity.
Qed.

Lemma triggerSectionAnimations_entries_step sec e :
  entries_step e (triggerSectionAnimations sec e).
Proof.
  unfold triggerSectionAnimations.
  destruct (sections e !! sec) as [s|] eqn:Hs; [|apply entries_step_refl].
  destruct (trigger_entries_spec sec (animations s) 0) as [Hfst Hsnd].
  destruct (trigger_entries sec 0 (animations s)) as [anims effs].
  simpl in Hfst, Hsnd. subst anims.
  intros sec' idx'. unfold is_triggered. simpl.
  rewrite scheduled_app, Hsnd.
  destruct (Nat.eqb_spec sec sec') as [<-|Hne]; simpl.
  - rewrite list_lookup_insert_eq by (eapply lookup_lt_Some; eauto).
    rewrite Hs. simpl. rewrite list_lookup_fmap, Nat.sub_0_r.
    destruct (animations s !! idx') as [a|]; simpl; [|split; [auto | lia]].
    destruct (triggered a) eqn:Ha; simpl; rewrite ?Ha; split; auto; lia.
  - rewrite list_lookup_insert_ne by exact Hne.
    split; [auto | lia].
Qed.

Lemma fold_left_entries_step {A : Type} (f : engine W -> A -> engine W)
      (xs : list A) :
  (forall e x, entries_step e (f e x)) ->
  forall e, entries_step e (fold_left f xs e).
Proof.
  intros Hf. induction xs as [|x rest IH]; intros e; simpl.
  - apply entries_step_refl.
  - eapply entries_step_trans; [apply Hf | apply IH].
Qed.

Lemma handleAnimationTrigger_entries_step entries e :
  entries_step e (handleAnimationTrigger entries e).
Proof.
  unfold handleAnimationTrigger. apply fold_left_entries_step.
  intros e0 en.
  repeat match goal with
         | |- context [if ?b then _ else _] => destruct b
         | |- context [match ?o with Some _ => _ | None => _ end] => destruct o
         end;
    first [apply entries_step_refl | apply triggerSectionAnimations_entries_step].
Qed.

Lemma start_entries_step in_view e : entries_step e (start in_view e).
Proof.
  unfold start. apply fold_left_entries_step. intros e0 sec.
  destruct (in_view sec);
    [apply triggerSectionAnimations_entries_step | apply entries_step_refl].
Qed.

Lemma handleSectionVisibility_entries_step sec en e :
  entries_step e (handleSectionVisibility sec en e).
Proof.
  unfold handleSectionVisibility.
  destruct (sections e !! sec) as [s|]; [|apply entries_step_refl].
  repeat match goal with
         | |- context [if ?b then _ else _] => destruct b
         | |- context [match ?o with Some _ => _ | None => _ end] => destruct o
         end;
    first [ apply entries_step_refl
          | apply triggerSectionAnimations_entries_step
          | apply quiet_step_entries_step, perform_quiet_step ].
  - repeat constructor.
  - unfold triggerCounterAnimations. apply timers_quiet. intros; exact I.
  - unfold triggerComparisonAnimation.
    destruct (el_before (element s)), (el_arrow (element s)),
      (el_after (element s)); repeat constructor.
  - unfold triggerTimelineAnimations. apply timers_quiet. intros; exact I.
  - unfold triggerTierAnimations. apply timers_quiet. intros; exact I.
Qed.


Lemma updateCurrentSection_quiet_step e :
  returns (quiet_step e) (updateCurrentSection e).
Proof.
  unfold updateCurrentSection.
  destruct (scan (sections e) 0 0%Q None) as [n|]; [|apply quiet_step_refl].
  case_bool_decide; [apply quiet_step_refl|].
  apply emit_after_quiet_step. split; [reflexivity|].
  exists []. simpl. rewrite app_nil_r. auto.
Qed.

Lemma handleEntry_entries_step en e :
  returns (entries_step e) (handleEntry en e).
Proof.
  unfold handleEntry.
  destruct (sections_get (entry_key en) (sections e)) as [sec|];
    [|apply entries_step_refl].
  apply returns_rel_andThen; [apply entries_step_trans | |].
  - eapply returns_weaken with (Q := quiet_step e);
      [|apply quiet_step_entries_step].
    apply returns_rel_andThen; [apply quiet_step_trans | |].
    + eapply returns_rel_after;
        [apply quiet_step_trans | apply set_visibility_quiet_step
        | apply updateCurrentSection_quiet_step].
    + intros s. apply emit_quiet_step.
  - intros s. apply handleSectionVisibility_entries_step.
Qed.

Lemma emit_entries_step event data e e1 :
  quiet_step e e1 -> returns (entries_step e) (emit event data e1).
Proof.
  intros H1. eapply returns_weaken; [apply emit_after_quiet_step; exact H1|].
  intros s. apply quiet_step_entries_step.
Qed.

Lemma updateProgress_quiet_step vp e : quiet_step e (updateProgress vp e).
Proof.
  unfold updateProgress. destruct (progress_bar vp).
  - split; [reflexivity|]. eexists. split; [reflexivity|]. repeat constructor.
  - split; [reflexivity|]. exists []. simpl. rewrite app_nil_r. auto.
Qed.

Lemma field_update_quiet_step e e' :
  sections e' = sections e -> trace e' = trace e -> quiet_step e e'.
Proof.
  intros Hs Ht. split.
  - intros sec idx. unfold is_triggered. rewrite Hs. reflexivity.
  - exists []. rewrite app_nil_r. auto.
Qed.

Lemma debouncedScroll_quiet_step vp e :
  returns (quiet_step e) (debouncedScroll vp e).
Proof.
  unfold debouncedScroll, handleScroll.
  apply returns_rel_andThen; [apply quiet_step_trans | |].
  - apply returns_rel_andThen; [apply quiet_step_trans | |].
    + destruct (isScrolling e); [apply quiet_step_refl|].
      apply emit_after_quiet_step. apply field_update_quiet_step; reflexivity.
    + intros s. apply emit_after_quiet_step. apply updateProgress_quiet_step.
  - intros s. simpl. apply perform_quiet_step. repeat constructor.
Qed.

Lemma triggerAnimation_quiet_step sec idx e :
  returns (quiet_step e) (triggerAnimation sec idx e).
Proof.
  unfold triggerAnimation.
  destruct (sections e !! sec ≫= _) as [a|]; [|apply quiet_step_refl].
  apply emit_after_quiet_step. apply perform_quiet_step.
  destruct (String.eqb (anim_type a) "counter"); [repeat constructor|].
  destruct (String.eqb (anim_type a) "reveal"); [|repeat constructor].
  unfold triggerRevealAnimation. apply timers_quiet. intros; exact I.
Qed.

Lemma step_entries_step (ev : @event W) e :
  returns (entries_step e) (step ev e).
Proof.
  destruct ev as [entries|entries|vp|vp|in_view|t|name cb|name cb|sid]; simpl.
  - unfold handleIntersection.
    apply returns_rel_forEach;
      [apply entries_step_refl | apply entries_step_trans
      | intros; apply handleEntry_entries_step].
  - apply handleAnimationTrigger_entries_step.
  - eapply returns_weaken; [apply debouncedScroll_quiet_step|].
    intros s. apply quiet_step_entries_step.
  - unfold handleResize. apply emit_entries_step, updateProgress_quiet_step.
  - apply start_entries_step.
  - destruct t as [sec idx|el|el classes|]; simpl.
    + eapply returns_weaken; [apply triggerAnimation_quiet_step|].
      intros s. apply quiet_step_entries_step.
    + apply quiet_step_entries_step, perform_quiet_step. repeat constructor.
    + apply quiet_step_entries_step, perform_quiet_step. repeat constructor.
    + apply emit_entries_step. apply field_update_quiet_step; reflexivity.
  - apply quiet_step_entries_step, field_update_quiet_step; reflexivity.
  - apply quiet_step_entries_step.
    unfold off. destruct (callbacks e !! name);
      apply field_update_quiet_step; reflexivity.
  - unfold navigateToSection.
    destruct (position sid (sections e)); simpl.
    + apply emit_entries_step, perform_quiet_step. repeat constructor.
    + apply quiet_step_entries_step, perform_quiet_step. repeat constructor.
Qed.

Lemma run_entries_step (evs : list (@event W)) e :
  returns (entries_step e) (run evs e).
Proof.
  unfold run. apply returns_rel_forEach;
    [apply entries_step_refl | apply entries_step_trans
    | intros; apply step_entries_step].
Qed.

Lemma entries_step_consistent e e' :
  entries_step e e' -> scheduled_iff_triggered e -> scheduled_iff_triggered e'.
Proof.
  intros Hstep Hc sec idx.
  destruct (Hstep sec idx) as [Hm He]. rewrite (Hc sec idx) in He.
  destruct (is_triggered e sec idx), (is_triggered e' sec idx); lia.
Qed.

Lemma create_untriggered els (w : W) sec idx :
  is_triggered (create els w) sec idx = false.
Proof.
  unfold is_triggered, create. cbn [sections].
  assert (H : Forall (fun s => forall i a, animations s !! i = Some a ->
                                           triggered a = false)
                     (discoverSections els)).
  { apply discoverSections_Forall. intros index el i a.
    unfold sectionData, discoverSectionAnimations. cbn [animations].
    rewrite list_lookup_imap.
    destruct (el_animated el !! i); simpl; [|discriminate].
    intros [= <-]. reflexivity. }
  destruct (discoverSections els !! sec) as [s|] eqn:Hs; simpl; [|reflexivity].
  destruct (animations s !! idx) as [a|] eqn:Ha; [|reflexivity].
  rewrite Forall_forall in H. eapply H; [|exact Ha].
  eapply list_elem_of_lookup_2. exact Hs.
Qed.

Lemma create_consistent els (w : W) : scheduled_iff_triggered (create els w).
Proof.
  intros sec idx. rewrite create_untriggered. reflexivity.
Qed.


Lemma triggerSectionAnimations_exact e sec idx a :
  sections e !! sec ≫= (fun s => animations s !! idx) = Some a ->
  is_triggered (triggerSectionAnimations sec e) sec idx = true /\
  scheduled (trace (triggerSectionAnimations sec e)) sec idx
  = (scheduled (trace e) sec idx + (if triggered a then 0 else 1))%nat.
Proof.
  intros Ha. unfold triggerSectionAnimations, is_triggered.
  destruct (sections e !! sec) as [s|] eqn:Hs; [|discriminate].
  simpl in Ha.
  destruct (trigger_entries_spec sec (animations s) 0) as [Hfst Hsnd].
  destruct (trigger_entries sec 0 (animations s)) as [anims effs].
  simpl in Hfst, Hsnd. subst anims. simpl.
  rewrite scheduled_app, Hsnd, Nat.eqb_refl, Nat.sub_0_r, Ha. simpl.
  rewrite list_lookup_insert_eq by (eapply lookup_lt_Some; eauto).
  simpl. rewrite list_lookup_fmap, Ha. simpl.
  destruct (triggered a) eqn:Hta; simpl; rewrite ?Hta; auto.
Qed.

(** C2.  Take any two moments of the engine's life after discovery, the
    second no earlier than the first.  For every animation entry: a
    flag that is set stays set; the entry's animation has been
    scheduled exactly once if its flag is set and never otherwise, so
    it is scheduled at most once however often its section is reported;
    and if it was scheduled between the two moments, the flag was down
    at the first and is up at the second.  The flag goes up inside
    [triggerSectionAnimations] itself, together with the [setTimeout],
    and not when the timer later runs the animation. *)
Theorem triggered_flag_is_monotone :
  (forall (els : list section_element) (w : W)
          (before after : list (@event W)) (sec idx : nat),
      returns
        (fun e1 =>
           returns
             (fun e2 =>
                (is_triggered e1 sec idx = true ->
                 is_triggered e2 sec idx = true) /\
                (scheduled (trace e2) sec idx
                 = if is_triggered e2 sec idx then 1 else 0)%nat /\
                (scheduled (trace e1) sec idx
                 <= scheduled (trace e2) sec idx)%nat /\
                ((scheduled (trace e1) sec idx
                  < scheduled (trace e2) sec idx)%nat ->
                 is_triggered e1 sec idx = false /\
                 is_triggered e2 sec idx = true))
             (run after e1))
        (run before (create els w)))
  /\
  (forall (e : engine W) (sec idx : nat) (a : animation),
      sections e !! sec ≫= (fun s => animations s !! idx) = Some a ->
      is_triggered (triggerSectionAnimations sec e) sec idx = true /\
      scheduled (trace (triggerSectionAnimations sec e)) sec idx
      = (scheduled (trace e) sec idx + (if triggered a then 0 else 1))%nat).
Proof.
  split; [|apply triggerSectionAnimations_exact].
  intros els w before after sec idx.
  eapply returns_weaken; [apply run_entries_step|].
  intros e1 H01.
  eapply returns_weaken; [apply run_entries_step|].
  intros e2 H12.
  pose proof (entries_step_consistent _ _ H01 (create_consistent els w)) as Hc1.
  pose proof (entries_step_consistent _ _ H12 Hc1) as Hc2.
  destruct (H12 sec idx) as [Hmono Heq].
  specialize (Hc1 sec idx). specialize (Hc2 sec idx).
  destruct (is_triggered e1 sec idx), (is_triggered e2 sec idx);
    repeat split; auto; try lia; try discriminate;
    specialize (Hmono eq_refl); discriminate.
Qed.

End Entries.

(** C2, at a concrete page: the section's second entry exists, so a
    call of [triggerSectionAnimations] sets its flag and schedules it. *)
Lemma triggered_flag_is_monotone_witness :
  sections Scenarios.animated_page !! 0%nat
    ≫= (fun s => animations s !! 1%nat)
  = Some (Build_animation "counter" 0 (1 # 2) (8 # 10) false)
  /\
  (is_triggered (triggerSectionAnimations 0 Scenarios.animated_page) 0 1 = true
   /\
   scheduled (trace (triggerSectionAnimations 0 Scenarios.animated_page)) 0 1
   = (scheduled (trace Scenarios.animated_page) 0 1
      + (if triggered (Build_animation "counter" 0 (1 # 2) (8 # 10) false)
         then 0 else 1))%nat).
Proof.
  split; [reflexivity|].
  apply (proj2 (@triggered_flag_is_monotone unit)). reflexivity.
Defined.


(** *** Publish / subscribe *)
Section Listeners.
Context {W : Type}.
Implicit Types (e : engine W) (cb : callback W) (cbs : list (callback W)).


Lemma invocations_app tr1 tr2 :
  invocations (tr1 ++ tr2) = invocations tr1 ++ invocations tr2.
Proof.
  induction tr1 as [|eff rest IH]; [reflexivity|].
  destruct eff; simpl; rewrite IH; reflexivity.
Qed.

Lemma logged_errors_app tr1 tr2 :
  logged_errors (tr1 ++ tr2) = logged_errors tr1 ++ logged_errors tr2.
Proof.
  induction tr1 as [|eff rest IH]; [reflexivity|].
  destruct eff; simpl; rewrite IH; reflexivity.
Qed.




Lemma on_other event event' cb e :
  event <> event' ->
  callbacks (on event cb e) !! event' = callbacks e !! event'.
Proof. intros Hne. unfold on. simpl. apply lookup_insert_ne. exact Hne. Qed.



End Listeners.

(** Three listeners, the second of which throws: all three are called,
    in order, and the error is logged once. *)
Example emit_survives_a_throwing_listener :
  exists e' : engine (list nat),
    emit "scroll" Undefined Scenarios.three_listeners = Normal e' /\
    world e' = [1; 2; 3]%nat /\
    trace e' = [Invoke 1 Undefined; Invoke 2 Undefined;
                ConsoleError "Error in event callback for scroll:" "boom";
                Invoke 3 Undefined].
Proof. eexists. split; [vm_compute; reflexivity|]. split; reflexivity. Qed.

End EngineFacts.

(** ** ProgressIndicator *)
Module ProgressFacts.
Import JsNum JsNumFacts Browser Progress.

Lemma Qeq_bool_false_of_pos (x : Q) : (0 < x)%Q -> Qeq_bool x 0 = false.
Proof.
  intros Hx. destruct (Qeq_bool x 0) eqn:E; [|reflexivity].
  apply Qeq_bool_iff in E. rewrite E in Hx. exfalso.
  apply (Qlt_irrefl 0). exact Hx.
Qed.

Lemma clamp_unit (x : Q) : (0 <= clamp x 0 1 <= 1)%Q.
Proof.
  unfold clamp.
  destruct (Qlt_bool x 0) eqn:E0; [split; [apply Qle_refl | discriminate]|].
  apply Qlt_bool_false_iff in E0.
  destruct (Qlt_bool 1 x) eqn:E1; [split; [discriminate | apply Qle_refl]|].
  apply Qlt_bool_false_iff in E1. split; assumption.
Qed.

(** [Math.min(Math.max(a / b, 0), 1)] is the clamp when [b] is positive. *)
Lemma newProgress_clamp (a b : Q) :
  (0 < b)%Q ->
  exists q,
    js_min (js_max (js_div (Finite a) (Finite b)) (Finite 0)) (Finite 1)
    = Finite q /\
    (q == clamp (a / b) 0 1)%Q.
Proof.
  intros Hb. unfold js_div. rewrite (Qeq_bool_false_of_pos b Hb).
  unfold js_max, js_le, clamp.
  destruct (Qle_bool (a / b) 0) eqn:E0.
  - apply Qle_bool_iff in E0. unfold js_min, js_le. simpl.
    exists 0%Q. split; [reflexivity|].
    destruct (Qlt_bool (a / b) 0) eqn:E; [reflexivity|].
    apply Qlt_bool_false_iff in E.
    destruct (Qlt_bool 1 (a / b)) eqn:E1.
    + apply Qlt_bool_iff in E1. lra.
    + lra.
  - assert (Hpos : (0 < a / b)%Q).
    { apply Qnot_le_lt. intros H. apply Qle_bool_iff in H. congruence. }
    unfold js_min, js_le.
    destruct (Qlt_bool (a / b) 0) eqn:E; [apply Qlt_bool_iff in E; lra|].
    destruct (Qle_bool (a / b) 1) eqn:E1.
    + apply Qle_bool_iff in E1. exists (a / b)%Q. split; [reflexivity|].
      destruct (Qlt_bool 1 (a / b)) eqn:E2; [apply Qlt_bool_iff in E2; lra|].
      reflexivity.
    + exists 1%Q. split; [reflexivity|].
      destruct (Qlt_bool 1 (a / b)) eqn:E2; [reflexivity|].
      apply Qlt_bool_false_iff in E2. apply Qle_bool_iff in E2. congruence.
Qed.

Lemma calculateScrollProgress_degenerate vp p :
  (scrollHeight vp - innerHeight vp <= 0)%Q ->
  Progress.scrollProgress (calculateScrollProgress vp p) = Finite 0.
Proof.
  intros H. unfold calculateScrollProgress, js_le.
  apply Qle_bool_iff in H. rewrite H. reflexivity.
Qed.

Lemma spec_fraction_degenerate vp :
  (scrollHeight vp - innerHeight vp <= 0)%Q -> spec_fraction vp = 0%Q.
Proof.
  intros H. unfold spec_fraction. apply Qle_bool_iff in H. rewrite H.
  reflexivity.
Qed.

Lemma spec_fraction_unit vp : (0 <= spec_fraction vp <= 1)%Q.
Proof.
  unfold spec_fraction.
  destruct (Qle_bool (scrollHeight vp - innerHeight vp) 0).
  - split; [apply Qle_refl | discriminate].
  - apply clamp_unit.
Qed.

(** What one recomputation stores. *)
Lemma calculateScrollProgress_value vp p q :
  Progress.scrollProgress p = Finite q ->
  exists q',
    Progress.scrollProgress (calculateScrollProgress vp p) = Finite q' /\
    ((scrollHeight vp - innerHeight vp <= 0)%Q -> (q' == 0)%Q) /\
    ((0 < scrollHeight vp - innerHeight vp)%Q -> smoothing p = false ->
     (q' == spec_fraction vp)%Q) /\
    ((0 < scrollHeight vp - innerHeight vp)%Q -> smoothing p = true ->
     (q' == q + (spec_fraction vp - q) * (1 # 10))%Q).
Proof.
  intros Hq. unfold calculateScrollProgress, js_le.
  destruct (Qle_bool (scrollHeight vp - innerHeight vp) 0) eqn:E.
  - apply Qle_bool_iff in E. exists 0%Q. simpl.
    split; [reflexivity|]. split; [reflexivity|]. split; intros; lra.
  - assert (Hpos : (0 < scrollHeight vp - innerHeight vp)%Q).
    { apply Qnot_le_lt. intros H. apply Qle_bool_iff in H. congruence. }
    destruct (newProgress_clamp (js_or (pageYOffset vp) (scrollTop vp))
                                (scrollHeight vp - innerHeight vp) Hpos)
      as (n & Hn & Hclamp).
    rewrite Hn.
    assert (Hspec : (n == spec_fraction vp)%Q).
    { unfold spec_fraction. rewrite E. exact Hclamp. }
    destruct (smoothing p) eqn:Hsm; simpl.
    + rewrite Hq. simpl. eexists. split; [reflexivity|].
      split; [intros; lra|]. split; [discriminate|].
      intros _ _. rewrite Hspec. reflexivity.
    + exists n. split; [reflexivity|].
      split; [intros; lra|]. split; [auto | discriminate].
Qed.

Lemma calculateScrollProgress_in_unit vp p :
  in_unit (Progress.scrollProgress p) ->
  in_unit (Progress.scrollProgress (calculateScrollProgress vp p)).
Proof.
  destruct (Progress.scrollProgress p) as [q| | |] eqn:Hq; simpl; try tauto.
  intros Hunit.
  destruct (calculateScrollProgress_value vp p q Hq)
    as (q' & Hq' & Hdeg & Hplain & Hsmooth).
  rewrite Hq'. simpl.
  pose proof (spec_fraction_unit vp) as Hs.
  destruct (Qlt_le_dec 0 (scrollHeight vp - innerHeight vp)) as [Hpos|Hneg].
  - destruct (smoothing p).
    + specialize (Hsmooth Hpos eq_refl). lra.
    + specialize (Hplain Hpos eq_refl). lra.
  - specialize (Hdeg Hneg). lra.
Qed.

Lemma recompute_in_unit vp p :
  in_unit (Progress.scrollProgress p) ->
  in_unit (Progress.scrollProgress (recompute vp p)).
Proof.
  intros H. unfold recompute, updateProgress, frame.
  destruct (isUpdating p); simpl; [exact H|].
  apply (calculateScrollProgress_in_unit vp (set_isUpdating true p)). exact H.
Qed.

Lemma recompute_all_in_unit vps :
  forall p, in_unit (Progress.scrollProgress p) ->
            in_unit (Progress.scrollProgress
                       (fold_left (fun p vp => recompute vp p) vps p)).
Proof.
  induction vps as [|vp rest IH]; intros p H; simpl; [exact H|].
  apply IH, recompute_in_unit, H.
Qed.

(** C5, as amended: the progress indicator.  Whatever the scroll
    position, negative or beyond the end included, every recomputation
    leaves the stored fraction a finite number in [0, 1], over the
    indicator's whole life.  When the document is no higher than the
    viewport the stored value is 0 and nothing is divided.  Otherwise,
    without smoothing it is clamp(scrollTop / (documentHeight -
    viewportHeight), 0, 1), and with smoothing (the default) it moves
    one tenth of the way from the previous value towards that clamp. *)
Theorem progress_indicator_fraction :
  (forall (options_smoothing : option bool) (vps : list viewport),
      in_unit (Progress.scrollProgress
                 (fold_left (fun p vp => recompute vp p) vps
                            (Progress.create options_smoothing))))
  /\
  (forall (vp : viewport) (p : indicator) (q : Q),
      Progress.scrollProgress p = Finite q ->
      exists q',
        Progress.scrollProgress (calculateScrollProgress vp p) = Finite q' /\
        ((scrollHeight vp - innerHeight vp <= 0)%Q -> (q' == 0)%Q) /\
        ((0 < scrollHeight vp - innerHeight vp)%Q -> smoothing p = false ->
         (q' == clamp (js_or (pageYOffset vp) (scrollTop vp)
                       / (scrollHeight vp - innerHeight vp)) 0 1)%Q) /\
        ((0 < scrollHeight vp - innerHeight vp)%Q -> smoothing p = true ->
         (q' == q + (clamp (js_or (pageYOffset vp) (scrollTop vp)
                            / (scrollHeight vp - innerHeight vp)) 0 1 - q)
                    * (1 # 10))%Q)).
Proof.
  split.
  - intros opt vps. apply recompute_all_in_unit. simpl.
    split; [apply Qle_refl | discriminate].
  - intros vp p q Hq.
    destruct (calculateScrollProgress_value vp p q Hq)
      as (q' & Hq' & Hdeg & Hplain & Hsmooth).
    exists q'. split; [exact Hq'|]. split; [exact Hdeg|].
    assert (Hspec : (0 < scrollHeight vp - innerHeight vp)%Q ->
                    spec_fraction vp
                    = clamp (js_or (pageYOffset vp) (scrollTop vp)
                             / (scrollHeight vp - innerHeight vp)) 0 1).
    { intros Hpos. unfold spec_fraction.
      destruct (Qle_bool (scrollHeight vp - innerHeight vp) 0) eqn:E;
        [|reflexivity].
      apply Qle_bool_iff in E. lra. }
    split; intros Hpos Hsm; rewrite <- (Hspec Hpos); auto.
Qed.

(** C5 at a concrete state: a fresh indicator holds the finite value 0. *)
Lemma progress_indicator_fraction_witness :
  Progress.scrollProgress (Progress.create None) = Finite 0 /\
  exists q',
    Progress.scrollProgress
      (calculateScrollProgress Scenarios.half_way (Progress.create None))
    = Finite q' /\
    ((scrollHeight Scenarios.half_way - innerHeight Scenarios.half_way <= 0)%Q
     -> (q' == 0)%Q) /\
    ((0 < scrollHeight Scenarios.half_way - innerHeight Scenarios.half_way)%Q ->
     smoothing (Progress.create None) = false ->
     (q' == clamp (js_or (pageYOffset Scenarios.half_way)
                         (scrollTop Scenarios.half_way)
                   / (scrollHeight Scenarios.half_way
                      - innerHeight Scenarios.half_way)) 0 1)%Q) /\
    ((0 < scrollHeight Scenarios.half_way - innerHeight Scenarios.half_way)%Q ->
     smoothing (Progress.create None) = true ->
     (q' == 0 + (clamp (js_or (pageYOffset Scenarios.half_way)
                              (scrollTop Scenarios.half_way)
                        / (scrollHeight Scenarios.half_way
                           - innerHeight Scenarios.half_way)) 0 1 - 0)
                * (1 # 10))%Q).
Proof.
  split; [reflexivity|].
  apply (proj2 progress_indicator_fraction Scenarios.half_way
               (Progress.create None) 0%Q).
  reflexivity.
Defined.

(** C5, counterexample to the claim as stated.  With the default
    options the indicator smooths: scrolled half way down, the fraction
    it stores after the recomputation is 1/20 and not the clamp 1/2. *)
Lemma progress_indicator_lags_behind_clamp :
  exists q,
    Progress.scrollProgress (recompute Scenarios.half_way (Progress.create None))
    = Finite q /\
    (q == 1 # 20)%Q /\
    (spec_fraction Scenarios.half_way == 1 # 2)%Q /\
    ~ same (Progress.scrollProgress
              (recompute Scenarios.half_way (Progress.create None)))
           (Finite (spec_fraction Scenarios.half_way)).
Proof.
  eexists. split; [vm_compute; reflexivity|].
  split; [reflexivity|]. split; [reflexivity|].
  vm_compute. discriminate.
Qed.

End ProgressFacts.

(** ** Counter animations *)
Module CounterFacts.
Import JsNum JsNumFacts Counter.

Section Animate.
Variables (target : Z) (startValue : Q) (duration : Q) (startTime : Q).
Variable (display : Z -> string).
Hypothesis duration_positive : (0 < duration)%Q.

Definition finished : counter := Build_counter (display target) false.

Lemma late_frame_progress (t : Q) :
  (startTime + duration <= t)%Q -> (1 <= (t - startTime) / duration)%Q.
Proof.
  intros H. apply Qle_shift_div_l; [exact duration_positive|]. lra.
Qed.

Lemma early_frame_progress (t : Q) :
  (t < startTime + duration)%Q -> ((t - startTime) / duration < 1)%Q.
Proof.
  intros H. apply Qlt_shift_div_r; [exact duration_positive|]. lra.
Qed.

(** A frame at or after the end of the animation writes the target. *)
Lemma animate_late (t : Q) (c : counter) :
  (startTime + duration <= t)%Q ->
  animate target startValue duration startTime display t c = finished.
Proof.
  intros H. pose proof (late_frame_progress t H) as Hp.
  unfold animate, Qmin.
  destruct (Qle_bool ((t - startTime) / duration) 1) eqn:E.
  - apply Qle_bool_iff in E.
    destruct (Qlt_bool ((t - startTime) / duration) 1) eqn:E1;
      [|reflexivity].
    apply Qlt_bool_iff in E1. lra.
  - reflexivity.
Qed.

(** A frame before the end writes the interpolated value and asks for
    another frame. *)
Lemma animate_early (t : Q) (c : counter) :
  (t < startTime + duration)%Q ->
  animate target startValue duration startTime display t c
  = Build_counter
      (display (currentValue target startValue ((t - startTime) / duration)))
      true.
Proof.
  intros H. pose proof (early_frame_progress t H) as Hp.
  unfold animate, Qmin.
  destruct (Qle_bool ((t - startTime) / duration) 1) eqn:E.
  - destruct (Qlt_bool ((t - startTime) / duration) 1) eqn:E1;
      [reflexivity|].
    apply Qlt_bool_false_iff in E1. lra.
  - exfalso. assert (Hle : ((t - startTime) / duration <= 1)%Q) by lra.
    apply Qle_bool_iff in Hle. congruence.
Qed.

Lemma clamp01_inside (x : Q) : (0 <= x)%Q -> (x <= 1)%Q -> clamp01 x = x.
Proof.
  intros H0 H1. unfold clamp01.
  destruct (Qlt_bool x 0) eqn:E0; [apply Qlt_bool_iff in E0; lra|].
  destruct (Qlt_bool 1 x) eqn:E1; [apply Qlt_bool_iff in E1; lra|].
  reflexivity.
Qed.

Lemma animate_early_spec (t : Q) (c : counter) :
  (startTime <= t)%Q -> (t < startTime + duration)%Q ->
  animate target startValue duration startTime display t c
  = Build_counter
      (display (spec_value startValue target
                           (clamp01 ((t - startTime) / duration))))
      true.
Proof.
  intros H0 H1. rewrite animate_early by exact H1.
  rewrite clamp01_inside; [reflexivity | | ].
  - apply Qle_shift_div_l; [exact duration_positive|]. lra.
  - apply Qlt_le_weak, early_frame_progress, H1.
Qed.

Lemma frames_cons (t : Q) (ts : list Q) (c : counter) :
  frames target startValue duration startTime display (t :: ts) c
  = frames target startValue duration startTime display ts
           (on_frame target startValue duration startTime display c t).
Proof. reflexivity. Qed.

Lemma frames_finished (ts : list Q) :
  frames target startValue duration startTime display ts finished = finished.
Proof.
  induction ts as [|t rest IH]; [reflexivity|].
  rewrite frames_cons. exact IH.
Qed.

Lemma on_frame_late (c : counter) (t : Q) :
  requested c = true -> (startTime + duration <= t)%Q ->
  on_frame target startValue duration startTime display c t = finished.
Proof. intros Hr Hl. unfold on_frame. rewrite Hr. apply animate_late, Hl. Qed.

Lemma on_frame_early (c : counter) (t : Q) :
  requested c = true -> (t < startTime + duration)%Q ->
  requested (on_frame target startValue duration startTime display c t) = true.
Proof.
  intros Hr He. unfold on_frame. rewrite Hr, animate_early by exact He.
  reflexivity.
Qed.

(** Whatever the timestamps before and after it, one frame at or after
    the end of the animation leaves the target on display for good. *)
Lemma frames_reach_target (ts : list Q) :
  forall (c : counter) (t : Q),
    requested c = true ->
    In t ts -> (startTime + duration <= t)%Q ->
    frames target startValue duration startTime display ts c = finished.
Proof.
  induction ts as [|t0 rest IH]; intros c t Hr Hin Hlate; [destruct Hin|].
  rewrite frames_cons.
  destruct (Qlt_le_dec t0 (startTime + duration)) as [He|Hl].
  - destruct Hin as [->|Hin]; [lra|].
    apply (IH _ t); [|exact Hin|exact Hlate].
    apply on_frame_early; assumption.
  - rewrite on_frame_late by assumption. apply frames_finished.
Qed.

End Animate.

Lemma css_duration_nonzero (o : Animation.counter_options) :
  ~ (Animation.or_else (Animation.c_duration o) 2 * 1000 == 0)%Q.
Proof.
  unfold Animation.or_else.
  destruct (Animation.c_duration o) as [q|]; [|intros H; discriminate].
  destruct (Qeq_bool q 0) eqn:E; [intros H; discriminate|].
  intros H. assert (Hq : (q == 0)%Q) by lra.
  apply Qeq_bool_iff in Hq. congruence.
Qed.

(** Where the one-sided clamp of the code and the clamp to [0, 1] part:
    they agree from 0 on, and below 0 the code keeps the negative
    number. *)
Lemma Qmin_one_clamp01 (x : Q) :
  ((0 <= x)%Q -> Qmin x 1 = clamp01 x) /\
  ((x < 0)%Q -> Qmin x 1 = x /\ clamp01 x = 0%Q).
Proof.
  unfold Qmin, clamp01. split.
  - intros H0.
    destruct (Qlt_bool x 0) eqn:E0; [apply Qlt_bool_iff in E0; lra|].
    destruct (Qle_bool x 1) eqn:E1; destruct (Qlt_bool 1 x) eqn:E2;
      try reflexivity.
    + apply Qle_bool_iff in E1. apply Qlt_bool_iff in E2. lra.
    + apply Qlt_bool_false_iff in E2. apply Qle_bool_iff in E2. congruence.
  - intros Hneg.
    assert (E1 : Qle_bool x 1 = true) by (apply Qle_bool_iff; lra).
    assert (E0 : Qlt_bool x 0 = true) by (apply Qlt_bool_iff; exact Hneg).
    rewrite E1, E0. split; reflexivity.
Qed.

(** Every frame before the end, also one before the start, writes the
    formula at [Math.min(elapsed / duration, 1)]. *)
Lemma animate_early_capped (target : Z) (startValue duration startTime : Q)
  (display : Z -> string) (t : Q) (c : counter) :
  (0 < duration)%Q -> (t < startTime + duration)%Q ->
  animate target startValue duration startTime display t c
  = Build_counter
      (display (spec_value startValue target
                           (Qmin ((t - startTime) / duration) 1)))
      true.
Proof.
  intros Hd H. rewrite (animate_early _ _ _ _ _ Hd) by exact H.
  pose proof (early_frame_progress duration startTime Hd t H) as Hp.
  unfold Qmin.
  assert (E : Qle_bool ((t - startTime) / duration) 1 = true)
    by (apply Qle_bool_iff; lra).
  rewrite E. reflexivity.
Qed.

(** With a negative duration no frame at or after the start is the
    last one. *)
Lemma animate_backwards (target : Z) (startValue duration startTime : Q)
  (display : Z -> string) (t : Q) (c : counter) :
  (duration < 0)%Q -> (startTime <= t)%Q ->
  requested (animate target startValue duration startTime display t c) = true.
Proof.
  intros Hd Ht. unfold animate.
  set (x := ((t - startTime) / duration)%Q).
  assert (Hx : (x * duration == t - startTime)%Q)
    by (unfold x; field; lra).
  assert (Hle : (x <= 0)%Q).
  { destruct (Qlt_le_dec 0 x) as [Hpos|Hle]; [|exact Hle].
    exfalso.
    assert (Hprod : (0 < x * - duration)%Q)
      by (apply Qmult_lt_0_compat; lra).
    lra. }
  unfold Qmin.
  assert (E : Qle_bool x 1 = true) by (apply Qle_bool_iff; lra).
  rewrite E.
  assert (E1 : Qlt_bool x 1 = true) by (apply Qlt_bool_iff; lra).
  rewrite E1. reflexivity.
Qed.

Lemma frames_backwards (target : Z) (startValue duration startTime : Q)
  (display : Z -> string) (ts : list Q) :
  (duration < 0)%Q ->
  forall c : counter,
    requested c = true ->
    List.Forall (fun t => (startTime <= t)%Q) ts ->
    requested (frames target startValue duration startTime display ts c) = true.
Proof.
  intros Hd. induction ts as [|t rest IH]; intros c Hr Hall; [exact Hr|].
  rewrite frames_cons. inversion Hall as [|? ? Ht Hrest]; subst.
  apply IH; [|exact Hrest].
  unfold on_frame. rewrite Hr. apply animate_backwards; assumption.
Qed.

(** C7, as amended.  The engine's counters, and the controller's CSS
    counters when their duration option is positive (a missing or zero
    option counts as 2 seconds).  The normalised time is clamped from
    above only: every frame whose timestamp is less than the duration
    after the start -- also one whose timestamp is before the start --
    displays floor(start + (T - start) * (1 - (1 - t)^3)) with
    t = min(elapsed / duration, 1), and asks for the next frame.  That
    is the clamp to [0, 1] for every frame not before the start; for a
    frame before the start t is negative.  Whatever the timestamps of
    the frames, in whatever order and however far apart, once one of
    them is at or past the end of the duration the text is exactly the
    target (through the formatter if one is given) and no further
    frame is requested.  With a negative duration option no frame at
    or after the start ends the CSS counter. *)
Theorem counter_ends_on_target :
  (forall (data_target : option Z) (now t : Q) (c : counter),
      (t < now + 2000)%Q ->
      engine_animate data_target now t c
      = Build_counter
          (pretty (spec_value 0 (parse_target data_target)
                              (Qmin ((t - now) / 2000) 1)))
          true)
  /\
  (forall x : Q,
      ((0 <= x)%Q -> Qmin x 1 = clamp01 x) /\
      ((x < 0)%Q -> Qmin x 1 = x /\ clamp01 x = 0%Q))
  /\
  (forall (data_target : option Z) (now : Q) (text : string)
          (timestamps : list Q) (t : Q),
      In t timestamps -> (now + 2000 <= t)%Q ->
      engine_frames data_target now timestamps text
      = Build_counter (pretty (parse_target data_target)) false)
  /\
  (forall (target : Z) (o : Animation.counter_options) (now t : Q)
          (c : counter),
      (0 < Animation.or_else (Animation.c_duration o) 2)%Q ->
      (t < now + Animation.or_else (Animation.c_duration o) 2 * 1000)%Q ->
      Animation.animateCounterCSS_animate target o now t c
      = Build_counter
          (Animation.counter_display o
             (spec_value (Animation.or_else (Animation.c_startValue o) 0) target
                (Qmin ((t - now)
                       / (Animation.or_else (Animation.c_duration o) 2 * 1000))
                      1)))
          true)
  /\
  (forall (target : Z) (o : Animation.counter_options) (now : Q)
          (text : string) (timestamps : list Q) (t : Q),
      (0 < Animation.or_else (Animation.c_duration o) 2)%Q ->
      In t timestamps ->
      (now + Animation.or_else (Animation.c_duration o) 2 * 1000 <= t)%Q ->
      Animation.animateCounterCSS_frames target o now timestamps text
      = Build_counter (Animation.counter_display o target) false)
  /\
  (forall (target : Z) (o : Animation.counter_options) (now : Q)
          (text : string) (timestamps : list Q),
      (Animation.or_else (Animation.c_duration o) 2 < 0)%Q ->
      List.Forall (fun t => (now <= t)%Q) timestamps ->
      requested (Animation.animateCounterCSS_frames target o now timestamps text)
      = true).
Proof.
  split; [|split; [|split; [|split; [|split]]]].
  - intros data_target now t c H1. unfold engine_animate.
    apply animate_early_capped; [reflexivity | exact H1].
  - exact Qmin_one_clamp01.
  - intros data_target now text timestamps t Hin Hlate. unfold engine_frames.
    eapply frames_reach_target; [reflexivity | reflexivity | exact Hin | exact Hlate].
  - intros target o now t c Hd H1. unfold Animation.animateCounterCSS_animate.
    apply animate_early_capped; [lra | exact H1].
  - intros target o now text timestamps t Hd Hin Hlate.
    unfold Animation.animateCounterCSS_frames.
    eapply frames_reach_target; [lra | reflexivity | exact Hin | exact Hlate].
  - intros target o now text timestamps Hd Hall.
    unfold Animation.animateCounterCSS_frames.
    apply frames_backwards; [lra | reflexivity | exact Hall].
Qed.

(** C7 on a counter to 1200 started at time 100: the frame at 84
    milliseconds, before the start; frames at 116, 1100, 2099 and 2105
    milliseconds, the last one past the end; a CSS counter of one
    second whose frame at 600 is half way and whose frame at 1100 ends
    it; and a CSS counter with a duration of minus one second. *)
Lemma counter_ends_on_target_witness :
  ((84 < 100 + 2000)%Q /\
   engine_animate (Some 1200) 100 84 (engine_start "0")
   = Build_counter
       (pretty (spec_value 0 (parse_target (Some 1200))
                           (Qmin ((84 - 100) / 2000) 1)))
       true)
  /\
  (In 2105%Q [116%Q; 1100%Q; 2099%Q; 2105%Q] /\ (100 + 2000 <= 2105)%Q /\
   engine_frames (Some 1200) 100 [116%Q; 1100%Q; 2099%Q; 2105%Q] "0"
   = Build_counter (pretty (parse_target (Some 1200))) false)
  /\
  ((0 < Animation.or_else (Animation.c_duration Scenarios.one_second) 2)%Q /\
   (600 < 100 + Animation.or_else (Animation.c_duration Scenarios.one_second) 2
                * 1000)%Q /\
   Animation.animateCounterCSS_animate 1200 Scenarios.one_second 100 600
                                       (engine_start "0")
   = Build_counter
       (Animation.counter_display Scenarios.one_second
          (spec_value
             (Animation.or_else (Animation.c_startValue Scenarios.one_second) 0)
             1200
             (Qmin ((600 - 100)
                    / (Animation.or_else
                         (Animation.c_duration Scenarios.one_second) 2 * 1000))
                   1)))
       true)
  /\
  (In 1100%Q [600%Q; 1100%Q] /\
   (100 + Animation.or_else (Animation.c_duration Scenarios.one_second) 2
          * 1000 <= 1100)%Q /\
   Animation.animateCounterCSS_frames 1200 Scenarios.one_second 100
                                      [600%Q; 1100%Q] "0"
   = Build_counter (Animation.counter_display Scenarios.one_second 1200) false)
  /\
  ((Animation.or_else (Animation.c_duration Scenarios.minus_one_second) 2 < 0)%Q
   /\
   List.Forall (fun t => (100 <= t)%Q) [116%Q; 5000%Q] /\
   requested (Animation.animateCounterCSS_frames
                1200 Scenarios.minus_one_second 100 [116%Q; 5000%Q] "0")
   = true).
Proof.
  split; [|split; [|split; [|split]]].
  - split; [reflexivity|].
    apply (proj1 counter_ends_on_target). reflexivity.
  - split; [simpl; tauto|]. split; [discriminate|].
    apply (proj1 (proj2 (proj2 counter_ends_on_target))) with (t := 2105%Q);
      [simpl; tauto | discriminate].
  - split; [reflexivity|]. split; [reflexivity|].
    apply (proj1 (proj2 (proj2 (proj2 counter_ends_on_target))));
      reflexivity.
  - split; [simpl; tauto|]. split; [discriminate|].
    apply (proj1 (proj2 (proj2 (proj2 (proj2 counter_ends_on_target)))))
      with (t := 1100%Q); [reflexivity | simpl; tauto | discriminate].
  - assert (Hall : List.Forall (fun t => (100 <= t)%Q) [116%Q; 5000%Q])
      by (repeat constructor; discriminate).
    split; [reflexivity|]. split; [exact Hall|].
    apply (proj2 (proj2 (proj2 (proj2 (proj2 counter_ends_on_target)))));
      [reflexivity | exact Hall].
Defined.

(** C7, counterexample to the claim as stated.  A counter to 1200
    started at time 100 and given a frame with timestamp 84: the code
    computes t = -16/2000 and displays -30, where the formula at t
    clamped to [0, 1] gives 0. *)
Lemma counter_before_start_is_not_clamped_below :
  textContent (engine_animate (Some 1200) 100 84 (engine_start "0"))
  = "-30"%string /\
  pretty (spec_value 0 (parse_target (Some 1200))
                     (clamp01 ((84 - 100) / 2000)))
  = "0"%string /\
  engine_animate (Some 1200) 100 84 (engine_start "0")
  <> Build_counter
       (pretty (spec_value 0 (parse_target (Some 1200))
                           (clamp01 ((84 - 100) / 2000))))
       true.
Proof.
  assert (Hcode : textContent (engine_animate (Some 1200) 100 84
                                              (engine_start "0"))
                  = "-30"%string) by (vm_compute; reflexivity).
  assert (Hspec : pretty (spec_value 0 (parse_target (Some 1200))
                                     (clamp01 ((84 - 100) / 2000)))
                  = "0"%string) by (vm_compute; reflexivity).
  split; [exact Hcode|]. split; [exact Hspec|].
  intros Heq. rewrite Heq in Hcode. cbn [textContent] in Hcode.
  rewrite Hspec in Hcode. discriminate.
Qed.

End CounterFacts.

(** ** AnimationController *)
Module AnimationFacts.
Import JsNum Animation.

Lemma classList_add_present cls classes : cls ∈ classList_add cls classes.
Proof.
  unfold classList_add. case_bool_decide as H; [exact H|].
  apply elem_of_app. right. apply list_elem_of_singleton. reflexivity.
Qed.

Lemma classList_add_keeps cls other classes :
  other ∈ classes -> other ∈ classList_add cls classes.
Proof.
  intros H. unfold classList_add. case_bool_decide; [exact H|].
  apply elem_of_app. left. exact H.
Qed.

(** C8.  With the reduced-motion preference active and honoured, an
    entrance animation of any type, with any options, with or without
    GSAP, puts the element in its final state at once (opacity 1,
    transform none, class [visible]) and asks for no timer, no frame and
    no tween; a counter gets its target as text at once, again with no
    frame; and a staggered entrance does the same to every element. *)
Theorem reduced_motion_shows_final_state :
  forall (c : controller),
    reducedMotion c = true -> respectReducedMotion (opts c) = true ->
    (forall (gsap : bool) (el : nat) (e : element) (type : string)
            (o : entrance_options),
        let r := animateIn c gsap el e type o in
        style_opacity r.1 = Some "1"%string /\
        style_transform r.1 = Some "none"%string /\
        "visible"%string ∈ classList r.1 /\
        (forall cls, cls ∈ classList e -> cls ∈ classList r.1) /\
        textContent r.1 = textContent e /\
        r.2 = [])
    /\
    (forall (gsap : bool) (el : nat) (e : element) (target : Z)
            (o : counter_options),
        let r := animateCounter c gsap el e target o in
        textContent r.1 = pretty target /\
        classList r.1 = classList e /\
        r.2 = [])
    /\
    (forall (gsap : bool) (el0 : nat) (es : list element) (type : string)
            (o : entrance_options),
        animateStagger c gsap el0 es type o
        = (showElementImmediately <$> es, [])).
Proof.
  intros c Hr Hrespect.
  assert (Hskip : shouldSkipAnimation c = true).
  { unfold shouldSkipAnimation. rewrite Hr, Hrespect. reflexivity. }
  split; [|split].
  - intros gsap el e type o. unfold animateIn. rewrite Hskip. simpl.
    split; [reflexivity|]. split; [reflexivity|].
    split; [apply classList_add_present|].
    split; [intros cls; apply classList_add_keeps|].
    split; reflexivity.
  - intros gsap el e target o. unfold animateCounter. rewrite Hskip. simpl.
    repeat split.
  - intros gsap el0 es type o. unfold animateStagger. rewrite Hskip.
    reflexivity.
Qed.

(** C8 on a hidden heading tagged [fade-up]. *)
Lemma reduced_motion_shows_final_state_witness :
  reducedMotion Scenarios.calm_controller = true /\
  respectReducedMotion (opts Scenarios.calm_controller) = true /\
  (let r := animateIn Scenarios.calm_controller true 0 Scenarios.hidden_heading
                      "fadeUp" Scenarios.no_entrance_options in
   style_opacity r.1 = Some "1"%string /\
   style_transform r.1 = Some "none"%string /\
   "visible"%string ∈ classList r.1 /\
   (forall cls, cls ∈ classList Scenarios.hidden_heading -> cls ∈ classList r.1) /\
   textContent r.1 = textContent Scenarios.hidden_heading /\
   r.2 = []).
Proof.
  split; [reflexivity|]. split; [reflexivity|].
  apply (proj1 (reduced_motion_shows_final_state
                  Scenarios.calm_controller eq_refl eq_refl)).
Defined.

End AnimationFacts.

(** ** NavigationController *)
Module NavigationFacts.
Import Navigation.

(** A step that leaves the navigation in flight, the history and the
    page structure alone. *)
Definition bystander (c c' : controller) : Prop :=
  opts c' = opts c /\ sections c' = sections c /\
  isNavigating c' = isNavigating c /\
  navigationHistory c' = navigationHistory c /\
  pending c' = pending c.

(** Idle with nothing pending, or navigating with exactly one scroll
    promise outstanding. *)
Definition one_in_flight (c : controller) : Prop :=
  (isNavigating c = false /\ pending c = []) \/
  (isNavigating c = true /\ exists cont, pending c = [cont]).

(** The history entry an accepted navigation records. *)
Definition recorded (c : controller) (s : section) (now : Q) : history_entry :=
  Build_history_entry (currentSectionIndex c) (index s) now.

Lemma bystander_refl c : bystander c c.
Proof. repeat split. Qed.

Lemma bystander_trans c1 c2 c3 :
  bystander c1 c2 -> bystander c2 c3 -> bystander c1 c3.
Proof.
  intros (?&?&?&?&?) (?&?&?&?&?). repeat split; congruence.
Qed.

Lemma perform_bystander effs c : bystander c (perform effs c).
Proof. repeat split. Qed.

Lemma updateActiveNavigation_bystander c : bystander c (updateActiveNavigation c).
Proof.
  unfold updateActiveNavigation.
  destruct (sections c !! currentSectionIndex c); repeat split.
Qed.

Lemma handleFocusChange_bystander sid c : bystander c (handleFocusChange sid c).
Proof.
  unfold handleFocusChange. destruct sid as [sid|]; [|apply bystander_refl].
  destruct (String.eqb sid ""); [apply bystander_refl|].
  destruct (findIndex sid (sections c)) as [i|]; [|apply bystander_refl].
  destruct (Nat.eqb i (currentSectionIndex c)); [apply bystander_refl|].
  eapply bystander_trans; [|apply updateActiveNavigation_bystander].
  repeat split.
Qed.

(** The three ways a call of [navigateToSection] can go. *)
Lemma navigateToSection_cases sectionId update_url now c :
  (isNavigating c = true /\ navigateToSection sectionId update_url now c = c)
  \/
  (isNavigating c = false /\ find_section sectionId (sections c) = None /\
   navigateToSection sectionId update_url now c
   = perform [ConsoleWarn ("Section " ++ sectionId ++ " not found")] c)
  \/
  (exists s,
      isNavigating c = false /\ find_section sectionId (sections c) = Some s /\
      let c' := navigateToSection sectionId update_url now c in
      opts c' = opts c /\ sections c' = sections c /\
      isNavigating c' = true /\
      currentSectionIndex c' = index s /\
      navigationHistory c' = navigationHistory c ++ [recorded c s now] /\
      pending c'
      = pending c ++ [Build_continuation s sectionId update_url
                                         (currentSectionIndex c)] /\
      location_hash c' = location_hash c).
Proof.
  unfold navigateToSection.
  destruct (isNavigating c) eqn:Hn; [left; auto|].
  destruct (find_section sectionId (sections c)) as [s|] eqn:Hf;
    [|right; left; auto].
  right; right. exists s. split; [reflexivity|]. split; [reflexivity|].
  unfold scrollToSection. simpl.
  destruct (smoothScroll (opts c)); simpl; repeat split.
Qed.

Lemma navigateToSection_dropped sectionId update_url now c :
  isNavigating c = true -> navigateToSection sectionId update_url now c = c.
Proof. intros H. unfold navigateToSection. rewrite H. reflexivity. Qed.

Lemma navigateNext_dropped now c :
  isNavigating c = true -> navigateNext now c = c.
Proof.
  intros H. unfold navigateNext.
  destruct (_ <? _)%nat; [|reflexivity].
  destruct (sections c !! _); [|reflexivity].
  apply navigateToSection_dropped, H.
Qed.

Lemma navigatePrevious_dropped now c :
  isNavigating c = true -> navigatePrevious now c = c.
Proof.
  intros H. unfold navigatePrevious.
  destruct (_ <? _)%nat; [|reflexivity].
  destruct (sections c !! _); [|reflexivity].
  apply navigateToSection_dropped, H.
Qed.

(** While a navigation is in flight, a request changes nothing but the
    trace (and the fragment, when the browser itself changed it). *)
Lemma request_while_navigating ev now c :
  isNavigating c = true -> is_request ev = true ->
  bystander c (after (step ev now c)) /\
  currentSectionIndex (after (step ev now c)) = currentSectionIndex c /\
  location_hash (after (step ev now c))
  = match ev with HashChanged hash => hash | _ => location_hash c end.
Proof.
  intros Hn Hreq.
  destruct ev as [key cm form|hash|href|sid u| | |sid|k];
    try discriminate; simpl.
  - destruct (keyboardNavigation (opts c)); [|repeat split].
    unfold handleKeydown.
    repeat match goal with
           | |- context [if ?b then _ else _] => destruct b
           | |- context [match ?o with Some _ => _ | None => _ end] =>
               destruct o
           end; simpl;
      rewrite ?navigateNext_dropped, ?navigatePrevious_dropped,
        ?navigateToSection_dropped by exact Hn;
      repeat split.
  - destruct (updateURL (opts c)); [|repeat split].
    unfold handleHashChange.
    destruct (_ && _);
      rewrite ?navigateToSection_dropped by exact Hn; repeat split.
  - unfold handleNavClick.
    destruct (_ && _);
      rewrite ?navigateToSection_dropped by exact Hn; repeat split.
  - rewrite navigateToSection_dropped by exact Hn. repeat split.
  - rewrite navigateNext_dropped by exact Hn. repeat split.
  - rewrite navigatePrevious_dropped by exact Hn. repeat split.
Qed.

Lemma navigateToSection_keeps_navigating sectionId update_url now c :
  isNavigating c = true ->
  isNavigating (navigateToSection sectionId update_url now c) = true.
Proof. intros H. rewrite navigateToSection_dropped; assumption. Qed.

(** Only the end of a scroll brings the controller back to idle. *)
Lemma back_to_idle ev now c :
  isNavigating c = true ->
  isNavigating (after (step ev now c)) = false ->
  exists k cont, ev = ScrollDone k /\ pending c !! k = Some cont.
Proof.
  intros Hn Hidle.
  destruct (is_request ev) eqn:Hreq.
  - destruct (request_while_navigating ev now c Hn Hreq) as [(_&_&H&_) _].
    congruence.
  - destruct ev as [| | | | | |sid|k]; try discriminate; simpl in Hidle.
    + exfalso. destruct (keyboardNavigation (opts c)); [|congruence].
      destruct (handleFocusChange_bystander sid c) as (_&_&H&_). congruence.
    + exists k. unfold scrollDone in Hidle.
      destruct (pending c !! k) as [cont|]; [eauto | congruence].
Qed.

Lemma scrollDone_single cont c :
  pending c = [cont] ->
  let c' := scrollDone 0 c in
  isNavigating c' = false /\ pending c' = [] /\
  navigationHistory c' = navigationHistory c /\
  location_hash c'
  = (if k_updateURL cont && updateURL (opts c) then k_sectionId cont
     else location_hash c).
Proof.
  intros Hp. unfold scrollDone. rewrite Hp. simpl.
  unfold updateActiveNavigation.
  destruct (k_updateURL cont && updateURL (opts c)); simpl;
    destruct (sections c !! currentSectionIndex c); simpl; repeat split.
Qed.

Lemma navigateToSection_one_in_flight sectionId update_url now c :
  one_in_flight c -> one_in_flight (navigateToSection sectionId update_url now c).
Proof.
  intros Hinv.
  destruct (navigateToSection_cases sectionId update_url now c)
    as [[Hn ->] | [(Hn & Hf & ->) | (s & Hn & Hf & H)]]; [exact Hinv|exact Hinv|].
  destruct H as (_ & _ & Hnav & _ & _ & Hpend & _).
  right. split; [exact Hnav|].
  destruct Hinv as [[_ Hp] | [Hn' _]]; [|congruence].
  rewrite Hpend, Hp. eexists. reflexivity.
Qed.

Lemma bystander_one_in_flight c c' :
  bystander c c' -> one_in_flight c -> one_in_flight c'.
Proof.
  intros (_&_&Hn&_&Hp) Hinv. unfold one_in_flight. rewrite Hn, Hp. exact Hinv.
Qed.

Lemma step_one_in_flight ev now c :
  one_in_flight c -> one_in_flight (after (step ev now c)).
Proof.
  intros Hinv.
  assert (Hperf : forall effs, one_in_flight (perform effs c)).
  { intros effs. eapply bystander_one_in_flight;
      [apply perform_bystander | exact Hinv]. }
  assert (Hnext : forall d, one_in_flight d -> one_in_flight (navigateNext now d)).
  { intros d Hd. unfold navigateNext. destruct (_ <? _)%nat; [|exact Hd].
    destruct (sections d !! _); [|exact Hd].
    apply navigateToSection_one_in_flight, Hd. }
  assert (Hprev : forall d, one_in_flight d ->
                            one_in_flight (navigatePrevious now d)).
  { intros d Hd. unfold navigatePrevious. destruct (_ <? _)%nat; [|exact Hd].
    destruct (sections d !! _); [|exact Hd].
    apply navigateToSection_one_in_flight, Hd. }
  destruct ev as [key cm form|hash|href|sid u| | |sid|k]; simpl.
  - destruct (keyboardNavigation (opts c)); [|exact Hinv].
    unfold handleKeydown.
    repeat match goal with
           | |- context [if ?b then _ else _] => destruct b
           | |- context [match ?o with Some _ => _ | None => _ end] =>
               destruct o
           end; simpl;
      first [ exact Hinv | apply Hperf | apply Hnext, Hperf | apply Hprev, Hperf
            | apply navigateToSection_one_in_flight, Hperf ].
  - assert (H0 : one_in_flight (set_location_hash hash c)) by exact Hinv.
    destruct (updateURL (opts c)); [|exact H0].
    unfold handleHashChange. destruct (_ && _); [|exact H0].
    apply navigateToSection_one_in_flight, H0.
  - unfold handleNavClick. destruct (_ && _); [|apply Hperf].
    apply navigateToSection_one_in_flight, Hperf.
  - apply navigateToSection_one_in_flight, Hinv.
  - apply Hnext, Hinv.
  - apply Hprev, Hinv.
  - destruct (keyboardNavigation (opts c)); [|exact Hinv].
    eapply bystander_one_in_flight;
      [apply handleFocusChange_bystander | exact Hinv].
  - unfold scrollDone.
    destruct (pending c !! k) as [cont|] eqn:Hk; [|exact Hinv].
    destruct Hinv as [[_ Hp] | [_ [cont' Hp]]];
      [rewrite Hp in Hk; discriminate|].
    rewrite Hp in Hk. destruct k as [|k]; [|discriminate].
    left. rewrite Hp. simpl. unfold updateActiveNavigation.
    destruct (k_updateURL cont && updateURL (opts c)); simpl;
      destruct (sections c !! currentSectionIndex c); simpl; split; reflexivity.
Qed.

Lemma run_one_in_flight evs :
  forall c, one_in_flight c -> one_in_flight (run evs c).
Proof.
  induction evs as [|[ev now] rest IH]; intros c Hinv; simpl; [exact Hinv|].
  apply IH, step_one_in_flight, Hinv.
Qed.

(** C4.  Idle -> Navigating -> Idle.  While a navigation is in flight,
    go-to-specific, next and previous return the controller unchanged,
    and so does every request that reaches them through a key, a link
    or a hash change: the navigation in flight, the history log, the
    current index and the fragment written by the controller stay as
    they are.  The flag goes back to false only when a pending scroll
    ends.  From the initial state there is never more than one scroll
    pending; when it ends the controller is idle again, the history is
    as the accepted request left it, and the fragment is the accepted
    request's section id if a URL update was asked for and enabled. *)
Theorem navigation_is_idle_navigating_idle :
  (forall (c : controller) (sectionId : string) (update_url : bool) (now : Q),
      isNavigating c = true ->
      navigateToSection sectionId update_url now c = c /\
      navigateNext now c = c /\
      navigatePrevious now c = c)
  /\
  (forall (c : controller) (ev : event) (now : Q),
      isNavigating c = true -> is_request ev = true ->
      let c' := after (step ev now c) in
      isNavigating c' = true /\
      pending c' = pending c /\
      navigationHistory c' = navigationHistory c /\
      currentSectionIndex c' = currentSectionIndex c /\
      location_hash c'
      = match ev with HashChanged hash => hash | _ => location_hash c end)
  /\
  (forall (c : controller) (ev : event) (now : Q),
      isNavigating c = true ->
      isNavigating (after (step ev now c)) = false ->
      exists k cont, ev = ScrollDone k /\ pending c !! k = Some cont)
  /\
  (forall (o : options) (els : list (string * Q)) (hash : string)
          (evs : list (event * Q)),
      let c := run evs (create o els hash) in
      (isNavigating c = false /\ pending c = []) \/
      (isNavigating c = true /\
       exists cont,
         pending c = [cont] /\
         let c' := scrollDone 0 c in
         isNavigating c' = false /\ pending c' = [] /\
         navigationHistory c' = navigationHistory c /\
         location_hash c'
         = (if k_updateURL cont && updateURL (opts c) then k_sectionId cont
            else location_hash c))).
Proof.
  split; [|split; [|split]].
  - intros c sectionId update_url now Hn.
    split; [apply navigateToSection_dropped, Hn|].
    split; [apply navigateNext_dropped, Hn | apply navigatePrevious_dropped, Hn].
  - intros c ev now Hn Hreq.
    destruct (request_while_navigating ev now c Hn Hreq)
      as [(_&_&H1&H2&H3) [H4 H5]].
    simpl. repeat split; congruence.
  - intros c ev now. apply back_to_idle.
  - intros o els hash evs c.
    assert (Hinv : one_in_flight c).
    { apply run_one_in_flight. left. split; reflexivity. }
    destruct Hinv as [H | [Hn [cont Hp]]]; [left; exact H|].
    right. split; [exact Hn|]. exists cont. split; [exact Hp|].
    apply scrollDone_single, Hp.
Qed.


(** C4 on the page of two sections while it scrolls to "problem": a
    request for "intro" is dropped, and the end of the scroll is what
    brings the controller back to idle. *)
Lemma navigation_is_idle_navigating_idle_witness :
  isNavigating Scenarios.scrolling_to_problem = true /\
  (navigateToSection "intro" true 5 Scenarios.scrolling_to_problem
   = Scenarios.scrolling_to_problem /\
   navigateNext 5 Scenarios.scrolling_to_problem
   = Scenarios.scrolling_to_problem /\
   navigatePrevious 5 Scenarios.scrolling_to_problem
   = Scenarios.scrolling_to_problem) /\
  is_request (NavClicked "#intro") = true /\
  (let c' := after (step (NavClicked "#intro") 5 Scenarios.scrolling_to_problem) in
   isNavigating c' = true /\
   pending c' = pending Scenarios.scrolling_to_problem /\
   navigationHistory c' = navigationHistory Scenarios.scrolling_to_problem /\
   currentSectionIndex c' = currentSectionIndex Scenarios.scrolling_to_problem /\
   location_hash c' = location_hash Scenarios.scrolling_to_problem) /\
  isNavigating (after (step (ScrollDone 0) 9 Scenarios.scrolling_to_problem))
  = false /\
  (exists k cont,
      ScrollDone 0 = ScrollDone k /\
      pending Scenarios.scrolling_to_problem !! k = Some cont).
Proof.
  split; [reflexivity|].
  split; [apply (proj1 navigation_is_idle_navigating_idle); reflexivity|].
  split; [reflexivity|].
  split; [apply (proj1 (proj2 navigation_is_idle_navigating_idle)
                   Scenarios.scrolling_to_problem (NavClicked "#intro") 5%Q);
          reflexivity|].
  split; [reflexivity|].
  apply (proj1 (proj2 (proj2 navigation_is_idle_navigating_idle))
           Scenarios.scrolling_to_problem (ScrollDone 0) 9%Q); reflexivity.
Defined.

Lemma find_section_unknown sectionId (secs : list section) :
  ~ In sectionId (map id secs) -> find_section sectionId secs = None.
Proof.
  unfold find_section. induction secs as [|s rest IH]; intros Hnot; simpl;
    [reflexivity|].
  destruct (String.eqb (id s) sectionId) eqn:E.
  - apply String.eqb_eq in E. exfalso. apply Hnot. left. exact E.
  - apply IH. intros Hin. apply Hnot. right. exact Hin.
Qed.

(** C6.  A call of [navigateToSection] with an id that no discovered
    section has changes nothing in the navigation state: the history,
    the current index, the fragment, the flag (false stays false), the
    pending scrolls.  It pushes no state, dispatches no event and asks
    for no scroll: the trace grows by one warning when the controller
    is idle and by nothing when a navigation is in flight.  The call
    completes normally. *)
Theorem unknown_section_is_a_no_op :
  forall (c : controller) (sectionId : string) (update_url : bool) (now : Q),
    ~ In sectionId (map id (sections c)) ->
    let c' := navigateToSection sectionId update_url now c in
    step (NavigateTo sectionId update_url) now c = Normal c' /\
    navigationHistory c' = navigationHistory c /\
    currentSectionIndex c' = currentSectionIndex c /\
    location_hash c' = location_hash c /\
    isNavigating c' = isNavigating c /\
    pending c' = pending c /\
    sections c' = sections c /\
    opts c' = opts c /\
    trace c'
    = trace c ++ (if isNavigating c then []
                  else [ConsoleWarn ("Section " ++ sectionId ++ " not found")]).
Proof.
  intros c sectionId update_url now Hnot.
  pose proof (find_section_unknown sectionId (sections c) Hnot) as Hf.
  unfold navigateToSection. cbn [step]. unfold navigateToSection.
  rewrite Hf.
  destruct (isNavigating c) eqn:Hn; cbn.
  - rewrite app_nil_r, Hn. repeat split.
  - rewrite Hn. repeat split.
Qed.

(** C6 on the idle page of two sections and the id "appendix". *)
Lemma unknown_section_is_a_no_op_witness :
  ~ In "appendix"%string (map id (sections Scenarios.two_stops)) /\
  (let c' := navigateToSection "appendix" true 3 Scenarios.two_stops in
   step (NavigateTo "appendix" true) 3 Scenarios.two_stops = Normal c' /\
   navigationHistory c' = navigationHistory Scenarios.two_stops /\
   currentSectionIndex c' = currentSectionIndex Scenarios.two_stops /\
   location_hash c' = location_hash Scenarios.two_stops /\
   isNavigating c' = isNavigating Scenarios.two_stops /\
   pending c' = pending Scenarios.two_stops /\
   sections c' = sections Scenarios.two_stops /\
   opts c' = opts Scenarios.two_stops /\
   trace c'
   = trace Scenarios.two_stops
     ++ (if isNavigating Scenarios.two_stops then []
         else [ConsoleWarn ("Section " ++ "appendix" ++ " not found")])).
Proof.
  assert (H : ~ In "appendix"%string (map id (sections Scenarios.two_stops))).
  { simpl. intros [H|[H|[]]]; discriminate. }
  split; [exact H|].
  apply (unknown_section_is_a_no_op Scenarios.two_stops "appendix" true 3%Q H).
Defined.

(** *** The history log *)

Lemma bystander_history c c' :
  bystander c c' -> navigationHistory c' = navigationHistory c ++ [].
Proof. intros (_&_&_&H&_). rewrite app_nil_r. exact H. Qed.

Lemma navigateToSection_history sectionId update_url now c :
  exists more,
    navigationHistory (navigateToSection sectionId update_url now c)
    = navigationHistory c ++ more.
Proof.
  destruct (navigateToSection_cases sectionId update_url now c)
    as [[Hn ->] | [(Hn & Hf & ->) | (s & Hn & Hf & H)]].
  - exists []. rewrite app_nil_r. reflexivity.
  - exists []. rewrite app_nil_r. reflexivity.
  - destruct H as (_ & _ & _ & _ & Hh & _). eexists. exact Hh.
Qed.

Lemma step_history ev now c :
  exists more,
    navigationHistory (after (step ev now c)) = navigationHistory c ++ more.
Proof.
  assert (Hnext : forall d, exists more,
               navigationHistory (navigateNext now d)
               = navigationHistory d ++ more).
  { intros d. unfold navigateNext.
    destruct (_ <? _)%nat; [|exists []; rewrite app_nil_r; reflexivity].
    destruct (sections d !! _); [|exists []; rewrite app_nil_r; reflexivity].
    apply navigateToSection_history. }
  assert (Hprev : forall d, exists more,
               navigationHistory (navigatePrevious now d)
               = navigationHistory d ++ more).
  { intros d. unfold navigatePrevious.
    destruct (_ <? _)%nat; [|exists []; rewrite app_nil_r; reflexivity].
    destruct (sections d !! _); [|exists []; rewrite app_nil_r; reflexivity].
    apply navigateToSection_history. }
  assert (Hsame : exists more, navigationHistory c = navigationHistory c ++ more).
  { exists []. rewrite app_nil_r. reflexivity. }
  destruct ev as [key cm form|hash|href|sid u| | |sid|k]; simpl.
  - destruct (keyboardNavigation (opts c)); [|exact Hsame].
    unfold handleKeydown.
    repeat match goal with
           | |- context [if ?b then _ else _] => destruct b
           | |- context [match ?o with Some _ => _ | None => _ end] =>
               destruct o
           end; simpl;
      first [ exact Hsame
            | apply (Hnext (perform [PreventDefault] c))
            | apply (Hprev (perform [PreventDefault] c))
            | apply (navigateToSection_history _ _ _ (perform [PreventDefault] c)) ].
  - destruct (updateURL (opts c)); [|exact Hsame].
    unfold handleHashChange. destruct (_ && _); [|exact Hsame].
    apply (navigateToSection_history _ _ _ (set_location_hash hash c)).
  - unfold handleNavClick. destruct (_ && _); [|exact Hsame].
    apply (navigateToSection_history _ _ _ (perform [PreventDefault] c)).
  - apply navigateToSection_history.
  - apply Hnext.
  - apply Hprev.
  - destruct (keyboardNavigation (opts c)); [|exact Hsame].
    exists []. apply bystander_history, handleFocusChange_bystander.
  - unfold scrollDone. destruct (pending c !! k) as [cont|]; [|exact Hsame].
    exists []. rewrite app_nil_r. unfold updateActiveNavigation. simpl.
    destruct (k_updateURL cont && updateURL (opts c)); simpl;
      destruct (sections c !! currentSectionIndex c); reflexivity.
Qed.

Lemma run_history evs :
  forall c, exists more,
    navigationHistory (run evs c) = navigationHistory c ++ more.
Proof.
  induction evs as [|[ev now] rest IH]; intros c; simpl.
  - exists []. rewrite app_nil_r. reflexivity.
  - destruct (step_history ev now c) as [m1 H1].
    destruct (IH (after (step ev now c))) as [m2 H2].
    exists (m1 ++ m2). rewrite H2, H1, app_assoc. reflexivity.
Qed.

End NavigationFacts.

(** ** AccessibilityController: the focus history *)
Module AccessibilityFacts.
Import Accessibility.

Lemma handleFocus_window target now sec announce c :
  (length (focusHistory c) <= 50)%nat ->
  focusHistory (handleFocus target now sec announce c)
  = (if (length (focusHistory c) <? 50)%nat then focusHistory c
     else tail (focusHistory c))
    ++ [Build_focus_entry target now sec]
  /\ (length (focusHistory (handleFocus target now sec announce c)) <= 50)%nat.
Proof.
  intros Hlen. unfold handleFocus. cbn [focusHistory].
  rewrite length_app. cbn [length].
  destruct (Nat.ltb_spec (length (focusHistory c)) 50) as [Hlt|Hge].
  - destruct (Nat.ltb_spec 50 (length (focusHistory c) + 1)) as [H|H]; [lia|].
    split; [reflexivity|]. rewrite length_app. simpl. lia.
  - destruct (Nat.ltb_spec 50 (length (focusHistory c) + 1)) as [H|H]; [|lia].
    destruct (focusHistory c) as [|e rest] eqn:Hh; [simpl in Hge; lia|].
    simpl. split; [reflexivity|]. rewrite length_app. simpl in *. lia.
Qed.

End AccessibilityFacts.

(** ** The two history logs side by side *)
Module HistoryFacts.

(** C9, as amended.  The navigation history is not bounded: an accepted
    navigation appends one entry (from the current index, to the
    target's index, at the time of the call) and no event ever removes
    or replaces an entry, so the log after any events extends the log
    before them.  The 50-entry sliding window is the focus history of
    the accessibility controller: a focus event appends an entry and,
    once 50 are held, drops the oldest. *)
Theorem navigation_history_grows_focus_history_slides :
  (forall (c : Navigation.controller) (sectionId : string) (update_url : bool)
          (now : Q) (s : Navigation.section),
      Navigation.isNavigating c = false ->
      Navigation.find_section sectionId (Navigation.sections c) = Some s ->
      Navigation.navigationHistory
        (Navigation.navigateToSection sectionId update_url now c)
      = Navigation.navigationHistory c
        ++ [Navigation.Build_history_entry
              (Navigation.currentSectionIndex c) (Navigation.index s) now])
  /\
  (forall (evs : list (Navigation.event * Q)) (c : Navigation.controller),
      exists more,
        Navigation.navigationHistory (Navigation.run evs c)
        = Navigation.navigationHistory c ++ more)
  /\
  (forall (c : Accessibility.controller) (target : nat) (now : Q)
          (sec : option string) (announce : bool),
      (length (Accessibility.focusHistory c) <= 50)%nat ->
      let c' := Accessibility.handleFocus target now sec announce c in
      Accessibility.focusHistory c'
      = (if (length (Accessibility.focusHistory c) <? 50)%nat
         then Accessibility.focusHistory c
         else tail (Accessibility.focusHistory c))
        ++ [Accessibility.Build_focus_entry target now sec]
      /\ (length (Accessibility.focusHistory c') <= 50)%nat).
Proof.
  split; [|split].
  - intros c sectionId update_url now s Hn Hf.
    destruct (NavigationFacts.navigateToSection_cases sectionId update_url now c)
      as [[Hn' _] | [(_ & Hf' & _) | (s' & _ & Hf' & H)]]; [congruence..|].
    destruct H as (_ & _ & _ & _ & Hh & _).
    rewrite Hf in Hf'. injection Hf' as <-. exact Hh.
  - intros evs c. apply NavigationFacts.run_history.
  - intros c target now sec announce Hlen.
    apply AccessibilityFacts.handleFocus_window, Hlen.
Qed.

(** C9 on the idle page of two sections, and on a fresh focus history. *)
Lemma navigation_history_grows_focus_history_slides_witness :
  (Navigation.isNavigating Scenarios.two_stops = false /\
   Navigation.find_section "problem" (Navigation.sections Scenarios.two_stops)
   = Some (Navigation.Build_section "problem" 1 900) /\
   Navigation.navigationHistory
     (Navigation.navigateToSection "problem" true 7 Scenarios.two_stops)
   = Navigation.navigationHistory Scenarios.two_stops
     ++ [Navigation.Build_history_entry
           (Navigation.currentSectionIndex Scenarios.two_stops)
           (Navigation.index (Navigation.Build_section "problem" 1 900)) 7])
  /\
  ((length (Accessibility.focusHistory Accessibility.create) <= 50)%nat /\
   let c' := Accessibility.handleFocus 4 7 None false Accessibility.create in
   Accessibility.focusHistory c'
   = (if (length (Accessibility.focusHistory Accessibility.create) <? 50)%nat
      then Accessibility.focusHistory Accessibility.create
      else tail (Accessibility.focusHistory Accessibility.create))
     ++ [Accessibility.Build_focus_entry 4 7 None]
   /\ (length (Accessibility.focusHistory c') <= 50)%nat).
Proof.
  split.
  - split; [reflexivity|]. split; [reflexivity|].
    apply (proj1 navigation_history_grows_focus_history_slides);
      reflexivity.
  - split; [simpl; lia|].
    apply (proj2 (proj2 navigation_history_grows_focus_history_slides)).
    simpl. lia.
Defined.

(** C9, counterexample to the claim as stated: fifty-one navigations,
    each one completed before the next, leave fifty-one entries in the
    navigation history. *)
Lemma navigation_history_exceeds_fifty :
  length (Navigation.navigationHistory
            (Navigation.run Scenarios.fifty_one_navigations Scenarios.two_stops))
  = 51%nat
  /\ ~ (length (Navigation.navigationHistory
                  (Navigation.run Scenarios.fifty_one_navigations
                                  Scenarios.two_stops)) <= 50)%nat.
Proof.
  assert (H : length (Navigation.navigationHistory
                        (Navigation.run Scenarios.fifty_one_navigations
                                        Scenarios.two_stops)) = 51%nat)
    by (vm_compute; reflexivity).
  split; [exact H|]. rewrite H. lia.
Qed.

End HistoryFacts.

(** ** MediaController *)
Module MediaFacts.
Import Media.

(** A record that no load is working on and that has not loaded. *)
Definition idle (m : media) : Prop := loading m = false /\ loaded m = false.

(** While every load fails, a call on an image with a fallback never
    returns: each nested call starts one more load. *)
Lemma loadMedia_offline (net : network) :
  (forall n source, net n source = false) ->
  forall (fuel : nat) (m : media) (w : world),
    type m = Image -> truthy (src m) = true -> truthy (fallbackSrc m) = true ->
    idle m ->
    exists m' w',
      loadMedia fuel net m w = Awaiting m' w' /\
      attempts w' = (attempts w + fuel)%nat.
Proof.
  intros Hnet. induction fuel as [|fuel IH]; intros m w Ht Hs Hf [Hl Hd].
  - simpl. rewrite Hl, Hd. simpl. exists m, w. split; [reflexivity | lia].
  - cbn [loadMedia]. rewrite Hl, Hd. cbn [orb].
    unfold load. cbn [type set_flags]. rewrite Ht.
    unfold loadImage. cbn [src set_flags]. rewrite Hs.
    unfold fetch. rewrite Hnet. cbn [fallbackSrc set_flags]. rewrite Hf.
    unfold loadFallback.
    match goal with
    | |- context [loadMedia fuel net ?m1 ?w1] =>
        destruct (IH m1 w1) as (m' & w' & Hcall & Hatt);
        [exact Ht | exact Hf | exact Hf | split; reflexivity |]
    end.
    rewrite Hcall. exists m', w'. split; [reflexivity|].
    rewrite Hatt. cbn [attempts perform]. lia.
Qed.

(** C3, the failing input.  An image whose primary source and whose
    fallback both fail: however long the call is observed it has not
    returned, and it has started as many loads as nested calls were
    observed; after three of them the two attempts the claim allows
    are already exceeded. *)
Theorem failed_fallback_is_retried_without_bound :
  (forall fuel : nat,
      exists m w,
        loadMedia fuel Scenarios.offline Scenarios.broken_image
                  Scenarios.fresh_world
        = Awaiting m w /\
        attempts w = fuel)
  /\
  (spec_max_attempts
   < attempts (world_of (loadMedia 3 Scenarios.offline Scenarios.broken_image
                                   Scenarios.fresh_world)))%nat.
Proof.
  split.
  - intros fuel.
    destruct (loadMedia_offline Scenarios.offline (fun _ _ => eq_refl) fuel
                Scenarios.broken_image Scenarios.fresh_world)
      as (m & w & H & Hatt); try reflexivity; [split; reflexivity|].
    exists m, w. split; [exact H | exact Hatt].
  - vm_compute. lia.
Qed.

End MediaFacts.

(** ** ScrollytellingEngine: scroll progress *)
Module EngineProgressFacts.
Import JsNum JsNumFacts Browser Engine.

Lemma js_min_one_bounded (a : jsnum) :
  js_min a (Finite 1) = NaN \/ js_le (js_min a (Finite 1)) (Finite 1) = true.
Proof.
  destruct a as [q| | |]; simpl; auto.
  destruct (Qle_bool q 1) eqn:E; simpl; rewrite ?E; auto.
Qed.

Lemma progress_of_updateProgress {W : Type} (vp : viewport) (e : engine W) :
  scrollProgress (updateProgress vp e)
  = js_min (js_div (Finite (js_or (pageYOffset vp) (scrollTop vp)))
                   (Finite (scrollHeight vp - innerHeight vp)))
           (Finite 1).
Proof. unfold updateProgress. destruct (progress_bar vp); reflexivity. Qed.

(** X1.  The engine's own scroll fraction, [Math.min(scrollTop / range, 1)],
    is capped at 1 but has neither a floor at 0 nor a guard for an
    empty range.  On a page with nothing to scroll and at the top it is
    [NaN]; above the top of a scrollable page (bounce scrolling) it is
    negative; it is a fraction in [0, 1] when the page is scrollable
    and the position is not negative; and it is never above 1. *)
Theorem engine_progress_edge_cases :
  forall (W : Type) (vp : viewport) (e : engine W),
    let top := js_or (pageYOffset vp) (scrollTop vp) in
    let range := (scrollHeight vp - innerHeight vp)%Q in
    let progress := scrollProgress (updateProgress vp e) in
    ((range == 0)%Q -> (top == 0)%Q -> progress = NaN) /\
    ((0 < range)%Q -> (top < 0)%Q ->
     exists q, progress = Finite q /\ (q < 0)%Q) /\
    ((0 < range)%Q -> (0 <= top)%Q -> in_unit progress) /\
    (progress = NaN \/ js_le progress (Finite 1) = true).
Proof.
  intros W vp e top range progress.
  unfold progress. rewrite progress_of_updateProgress. fold top. fold range.
  split; [|split; [|split]].
  - intros Hr Ht. unfold js_div.
    apply Qeq_bool_iff in Hr. apply Qeq_bool_iff in Ht. rewrite Hr, Ht.
    reflexivity.
  - intros Hr Ht. unfold js_div.
    rewrite (ProgressFacts.Qeq_bool_false_of_pos range Hr).
    assert (Hneg : (top / range < 0)%Q).
    { apply Qlt_shift_div_r; [exact Hr | lra]. }
    unfold js_min, js_le.
    assert (Hle : Qle_bool (top / range) 1 = true) by (apply Qle_bool_iff; lra).
    rewrite Hle. eauto.
  - intros Hr Ht. unfold js_div.
    rewrite (ProgressFacts.Qeq_bool_false_of_pos range Hr).
    assert (Hpos : (0 <= top / range)%Q).
    { apply Qle_shift_div_l; [exact Hr | lra]. }
    unfold js_min, js_le.
    destruct (Qle_bool (top / range) 1) eqn:E; simpl.
    + apply Qle_bool_iff in E. split; assumption.
    + split; [discriminate | apply Qle_refl].
  - apply js_min_one_bounded.
Qed.

(** On a page that fits its viewport, and above the top of a page
    scrolled by a bounce. *)
Lemma engine_progress_edge_cases_witness :
  ((scrollHeight Scenarios.short_page - innerHeight Scenarios.short_page == 0)%Q
   /\ (js_or (pageYOffset Scenarios.short_page) (scrollTop Scenarios.short_page)
       == 0)%Q
   /\ scrollProgress (updateProgress Scenarios.short_page Scenarios.two_sections)
      = NaN)
  /\
  ((0 < scrollHeight Scenarios.bounced - innerHeight Scenarios.bounced)%Q
   /\ (js_or (pageYOffset Scenarios.bounced) (scrollTop Scenarios.bounced) < 0)%Q
   /\ exists q,
       scrollProgress (updateProgress Scenarios.bounced Scenarios.two_sections)
       = Finite q /\ (q < 0)%Q).
Proof.
  split.
  - split; [reflexivity|]. split; [reflexivity|].
    apply (proj1 (engine_progress_edge_cases unit Scenarios.short_page
                    Scenarios.two_sections)); reflexivity.
  - split; [reflexivity|]. split; [reflexivity|].
    apply (proj1 (proj2 (engine_progress_edge_cases unit Scenarios.bounced
                           Scenarios.two_sections))); reflexivity.
Defined.

End EngineProgressFacts.

(** ** ScrollytellingEngine: further properties *)
Module EngineExtras.
Import JsNum JsNumFacts Browser Engine EngineFacts.

Section WithWorld.
Context {W : Type}.
Implicit Types (e : engine W) (cb : callback W) (cbs : list (callback W)).

(** *** Triggering a section twice *)

Lemma trigger_entries_triggered sec anims :
  forall idx0,
    Forall (fun a => triggered a = true) anims ->
    trigger_entries sec idx0 anims = (anims, []).
Proof.
  induction anims as [|a rest IH]; intros idx0 Hall; [reflexivity|].
  apply Forall_cons in Hall. destruct Hall as [Ha Hrest].
  cbn [trigger_entries]. rewrite (IH (S idx0) Hrest), Ha. reflexivity.
Qed.

Lemma raised_all_triggered (anims : list animation) :
  Forall (fun a => triggered a = true)
         ((fun a => if triggered a then a else mark_triggered a) <$> anims).
Proof.
  induction anims as [|a rest IH]; [constructor|].
  cbn [fmap list_fmap]. constructor; [|exact IH].
  destruct (triggered a) eqn:Ha; [exact Ha | reflexivity].
Qed.

(** X2.  After [triggerSectionAnimations] every entry of the section has its
    flag set, and calling it again changes nothing at all: no flag, no
    timer. *)
Theorem triggering_twice_is_triggering_once :
  forall (e : engine W) (sec : nat),
    let e1 := triggerSectionAnimations sec e in
    (forall idx a,
        sections e1 !! sec ≫= (fun s => animations s !! idx) = Some a ->
        triggered a = true)
    /\ triggerSectionAnimations sec e1 = e1.
Proof.
  intros e sec. unfold triggerSectionAnimations.
  destruct (sections e !! sec) as [s|] eqn:Hs.
  - destruct (trigger_entries_spec sec (animations s) 0) as [Hfst _].
    destruct (trigger_entries sec 0 (animations s)) as [anims effs].
    cbn [fst] in Hfst. subst anims.
    assert (Hlt : (sec < length (sections e))%nat)
      by (eapply lookup_lt_Some; eauto).
    cbn zeta. cbn [sections perform set_sections].
    rewrite list_lookup_insert_eq by exact Hlt.
    split.
    + intros idx a. cbn [mbind option_bind animations set_animations].
      intros Ha. pose proof (raised_all_triggered (animations s)) as Hall.
      rewrite Forall_forall in Hall. apply Hall.
      eapply list_elem_of_lookup_2. exact Ha.
    + cbn [animations set_animations].
      rewrite trigger_entries_triggered by apply raised_all_triggered.
      unfold perform, set_sections, set_animations. cbn.
      rewrite list_insert_insert_eq, app_nil_r. reflexivity.
  - cbn zeta. rewrite Hs. split; [|reflexivity].
    intros idx a. cbn. discriminate.
Qed.

(** *** Discovery *)

Definition ids (m : list section) : list string := id <$> m.







(** *** Subscribing and unsubscribing *)

Lemma remove_first_absent ref cbs :
  Forall (fun c => cb_ref c <> ref) cbs -> remove_first ref cbs = cbs.
Proof.
  induction 1 as [|c rest Hc _ IH]; [reflexivity|].
  cbn. destruct (Nat.eqb_spec (cb_ref c) ref); [contradiction|].
  rewrite IH. reflexivity.
Qed.

Lemma remove_first_appended ref cb cbs :
  cb_ref cb = ref ->
  Forall (fun c => cb_ref c <> ref) cbs ->
  remove_first ref (cbs ++ [cb]) = cbs.
Proof.
  intros Hcb. induction 1 as [|c rest Hc _ IH]; cbn.
  - rewrite Hcb, Nat.eqb_refl. reflexivity.
  - destruct (Nat.eqb_spec (cb_ref c) ref); [contradiction|].
    rewrite IH. reflexivity.
Qed.

(** X4.  [off] undoes [on]: for a listener that was not registered for the
    event before, registering it and removing it again leaves the
    event's listeners as they were, and neither call touches the
    listeners of any other event. *)
Theorem off_undoes_on :
  forall (e : engine W) (event : string) (cb : callback W),
    Forall (fun c => cb_ref c <> cb_ref cb) (default [] (callbacks e !! event)) ->
    default [] (callbacks (off event cb (on event cb e)) !! event)
    = default [] (callbacks e !! event)
    /\
    forall other, other <> event ->
                  callbacks (off event cb (on event cb e)) !! other
                  = callbacks e !! other.
Proof.
  intros e event cb Hfresh. unfold off, on. cbn [callbacks set_callbacks].
  rewrite lookup_insert_eq. cbn [callbacks set_callbacks].
  split.
  - rewrite lookup_insert_eq. cbn.
    apply remove_first_appended; [reflexivity | exact Hfresh].
  - intros other Hne.
    rewrite !lookup_insert_ne by (intros Heq; apply Hne; symmetry; exact Heq).
    reflexivity.
Qed.

(** *** Announcing the current section *)


End WithWorld.

(** A registered listener that is not yet among the page's three. *)
Lemma off_undoes_on_witness :
  Forall (fun c => cb_ref c <> cb_ref (Scenarios.noting 7))
         (default [] (callbacks Scenarios.three_listeners !! "scroll"%string))
  /\
  (default []
     (callbacks (off "scroll" (Scenarios.noting 7)
                     (on "scroll" (Scenarios.noting 7) Scenarios.three_listeners))
      !! "scroll"%string)
   = default [] (callbacks Scenarios.three_listeners !! "scroll"%string)
   /\
   forall other, other <> "scroll"%string ->
                 callbacks (off "scroll" (Scenarios.noting 7)
                                (on "scroll" (Scenarios.noting 7)
                                    Scenarios.three_listeners)) !! other
                 = callbacks Scenarios.three_listeners !! other).
Proof.
  assert (H : Forall (fun c => cb_ref c <> cb_ref (Scenarios.noting 7))
                     (default [] (callbacks Scenarios.three_listeners
                                  !! "scroll"%string))).
  { vm_compute. repeat constructor; discriminate. }
  split; [exact H|]. apply off_undoes_on. exact H.
Defined.

End EngineExtras.

(** ** Counter animations: the values on display *)
Module CounterExtras.
Import JsNum JsNumFacts Counter.

Local Open Scope Q_scope.

Lemma cube_bounds (a : Q) : 0 <= a -> a <= 1 -> 0 <= a ^ 3 /\ a ^ 3 <= 1.
Proof. intros H0 H1. simpl. split; nra. Qed.

Lemma cube_mono (a b : Q) : 0 <= b -> b <= a -> b ^ 3 <= a ^ 3.
Proof.
  intros Hb Hab. simpl.
  assert (H : 0 <= (a - b) * (a * a + a * b + b * b)).
  { apply Qmult_le_0_compat; [lra | nra]. }
  nra.
Qed.

Lemma cube_above_one (a : Q) : 1 < a -> 1 < a ^ 3.
Proof. intros H. simpl. nra. Qed.

(** The progress of a frame: [Math.min(elapsed / 2000, 1)]. *)
Definition progress_at (now t : Q) : Q := Qmin ((t - now) / 2000) 1.

Lemma progress_at_range (now t : Q) :
  now <= t -> 0 <= progress_at now t /\ progress_at now t <= 1.
Proof.
  intros H. unfold progress_at, Qmin.
  assert (H0 : 0 <= (t - now) / 2000).
  { apply Qle_shift_div_l; [reflexivity | lra]. }
  destruct (Qle_bool ((t - now) / 2000) 1) eqn:E.
  - apply Qle_bool_iff in E. split; assumption.
  - split; [discriminate | apply Qle_refl].
Qed.

Lemma progress_at_mono (now t1 t2 : Q) :
  t1 <= t2 -> progress_at now t1 <= progress_at now t2.
Proof.
  intros H. unfold progress_at, Qmin.
  assert (Hd : (t1 - now) / 2000 <= (t2 - now) / 2000).
  { unfold Qdiv. apply Qmult_le_compat_r; [lra | discriminate]. }
  destruct (Qle_bool ((t1 - now) / 2000) 1) eqn:E1;
    destruct (Qle_bool ((t2 - now) / 2000) 1) eqn:E2.
  - exact Hd.
  - apply Qle_bool_iff in E1. exact E1.
  - apply Qle_bool_iff in E2.
    assert (H1 : ~ (t1 - now) / 2000 <= 1)
      by (intros Hc; apply Qle_bool_iff in Hc; congruence).
    lra.
  - apply Qle_refl.
Qed.

(** What a frame leaves on display, whether it is the last one or not. *)
Lemma engine_animate_text (data_target : option Z) (now t : Q) (c : counter) :
  textContent (engine_animate data_target now t c)
  = pretty (currentValue (parse_target data_target) 0 (progress_at now t)).
Proof.
  unfold engine_animate, animate. fold (progress_at now t).
  destruct (Qlt_bool (progress_at now t) 1) eqn:E; [reflexivity|].
  apply Qlt_bool_false_iff in E. cbn [textContent]. f_equal.
  assert (Hp : progress_at now t == 1).
  { unfold progress_at, Qmin in *.
    destruct (Qle_bool ((t - now) / 2000) 1) eqn:E1; [|reflexivity].
    apply Qle_bool_iff in E1. lra. }
  unfold currentValue.
  assert (Hv : 0 + (inject_Z (parse_target data_target) - 0)
                   * (1 - (1 - progress_at now t) ^ 3)
               == inject_Z (parse_target data_target)).
  { rewrite Hp. simpl. ring. }
  rewrite Hv. symmetry. apply Qfloor_Z.
Qed.

Lemma currentValue_range (target : Z) (p : Q) :
  (0 <= target)%Z -> 0 <= p -> p <= 1 ->
  (0 <= currentValue target 0 p <= target)%Z.
Proof.
  intros HT H0 H1. unfold currentValue.
  destruct (cube_bounds (1 - p)) as [Hc0 Hc1]; [lra | lra |].
  assert (HTq : 0 <= inject_Z target).
  { change 0 with (inject_Z 0). rewrite <- Zle_Qle. exact HT. }
  set (x := 0 + (inject_Z target - 0) * (1 - (1 - p) ^ 3)).
  assert (Hx0 : 0 <= x) by (unfold x; nra).
  assert (HxT : x <= inject_Z target) by (unfold x; nra).
  split.
  - apply Z.le_trans with (Qfloor (inject_Z 0));
      [rewrite Qfloor_Z; apply Z.le_refl | apply Qfloor_resp_le; exact Hx0].
  - apply Z.le_trans with (Qfloor (inject_Z target));
      [apply Qfloor_resp_le; exact HxT | rewrite Qfloor_Z; apply Z.le_refl].
Qed.

Lemma currentValue_mono (target : Z) (p1 p2 : Q) :
  (0 <= target)%Z -> 0 <= p1 -> p1 <= p2 -> p2 <= 1 ->
  (currentValue target 0 p1 <= currentValue target 0 p2)%Z.
Proof.
  intros HT H0 H12 H1. unfold currentValue. apply Qfloor_resp_le.
  assert (HTq : 0 <= inject_Z target).
  { change 0 with (inject_Z 0). rewrite <- Zle_Qle. exact HT. }
  pose proof (cube_mono (1 - p1) (1 - p2)) as Hc.
  assert (Hc' : (1 - p2) ^ 3 <= (1 - p1) ^ 3) by (apply Hc; lra).
  nra.
Qed.

(** X6.  The engine's counter never runs backwards and never overshoots: for
    a target that is not negative, the frames at two timestamps not
    before the start, the second no earlier than the first, display two
    integers between 0 and the target, the second no smaller than the
    first. *)
Theorem counter_climbs_to_target :
  forall (data_target : option Z) (now t1 t2 : Q) (c1 c2 : counter),
    (0 <= parse_target data_target)%Z ->
    now <= t1 -> t1 <= t2 ->
    exists v1 v2 : Z,
      textContent (engine_animate data_target now t1 c1) = pretty v1 /\
      textContent (engine_animate data_target now t2 c2) = pretty v2 /\
      (0 <= v1)%Z /\ (v1 <= v2)%Z /\ (v2 <= parse_target data_target)%Z.
Proof.
  intros data_target now t1 t2 c1 c2 HT H1 H12.
  exists (currentValue (parse_target data_target) 0 (progress_at now t1)),
         (currentValue (parse_target data_target) 0 (progress_at now t2)).
  split; [apply engine_animate_text|]. split; [apply engine_animate_text|].
  destruct (progress_at_range now t1 H1) as [Ha Hb].
  destruct (progress_at_range now t2) as [Hc Hd]; [lra|].
  pose proof (progress_at_mono now t1 t2 H12) as Hm.
  split; [apply currentValue_range; assumption|].
  split; [apply currentValue_mono; assumption|].
  apply currentValue_range; assumption.
Qed.

Lemma counter_climbs_to_target_witness :
  (0 <= parse_target (Some 1200%Z))%Z /\ 100 <= 116 /\ 116 <= 1100 /\
  exists v1 v2 : Z,
    textContent (engine_animate (Some 1200%Z) 100 116 (engine_start "0"))
    = pretty v1 /\
    textContent (engine_animate (Some 1200%Z) 100 1100 (engine_start "0"))
    = pretty v2 /\
    (0 <= v1)%Z /\ (v1 <= v2)%Z /\ (v2 <= parse_target (Some 1200%Z))%Z.
Proof.
  split; [discriminate|]. split; [discriminate|]. split; [discriminate|].
  apply counter_climbs_to_target; discriminate.
Defined.

(** X7.  The progress is capped at 1 but has no floor at 0: a frame whose
    timestamp is earlier than the time at which the counter was
    started displays a negative number when the target is positive. *)
Theorem frame_before_start_shows_negative_value :
  forall (data_target : option Z) (now t : Q) (c : counter),
    (0 < parse_target data_target)%Z -> t < now ->
    exists v : Z,
      textContent (engine_animate data_target now t c) = pretty v /\
      (v < 0)%Z /\ requested (engine_animate data_target now t c) = true.
Proof.
  intros data_target now t c HT Hlt.
  exists (currentValue (parse_target data_target) 0 (progress_at now t)).
  split; [apply engine_animate_text|].
  assert (Hneg : (t - now) / 2000 < 0).
  { apply Qlt_shift_div_r; [reflexivity | lra]. }
  assert (Hp : progress_at now t = (t - now) / 2000).
  { unfold progress_at, Qmin.
    assert (Hle : Qle_bool ((t - now) / 2000) 1 = true)
      by (apply Qle_bool_iff; lra).
    rewrite Hle. reflexivity. }
  split.
  - rewrite Hp. unfold currentValue.
    set (p := (t - now) / 2000) in *.
    assert (HTq : 0 < inject_Z (parse_target data_target)).
    { change 0 with (inject_Z 0). rewrite <- Zlt_Qlt. exact HT. }
    pose proof (cube_above_one (1 - p)) as Hc.
    assert (Hc' : 1 < (1 - p) ^ 3) by (apply Hc; lra).
    set (x := 0 + (inject_Z (parse_target data_target) - 0)
                  * (1 - (1 - p) ^ 3)).
    assert (Hx : x < 0) by (unfold x; nra).
    pose proof (Qfloor_le x) as Hf.
    assert (Hq : inject_Z (Qfloor x) < inject_Z 0)
      by (apply Qle_lt_trans with x; [exact Hf | exact Hx]).
    rewrite <- Zlt_Qlt in Hq. exact Hq.
  - unfold engine_animate, animate. fold (progress_at now t). rewrite Hp.
    assert (Hl : Qlt_bool ((t - now) / 2000) 1 = true)
      by (apply Qlt_bool_iff; lra).
    rewrite Hl. reflexivity.
Qed.

Lemma frame_before_start_shows_negative_value_witness :
  (0 < parse_target (Some 1200%Z))%Z /\ 84 < 100 /\
  exists v : Z,
    textContent (engine_animate (Some 1200%Z) 100 84 (engine_start "0"))
    = pretty v /\
    (v < 0)%Z /\
    requested (engine_animate (Some 1200%Z) 100 84 (engine_start "0")) = true.
Proof.
  split; [reflexivity|]. split; [reflexivity|].
  apply frame_before_start_shows_negative_value; reflexivity.
Defined.

End CounterExtras.

(** ** ProgressIndicator: coalescing and smoothing *)
Module ProgressExtras.
Import JsNum JsNumFacts Browser Progress ProgressFacts.

Lemma scroll_events_pending (n : nat) (p : indicator) :
  isUpdating p = true -> scroll_events n p = (p, 0%nat).
Proof.
  revert p. induction n as [|n IH]; intros p Hp; [reflexivity|].
  cbn [scroll_events]. unfold updateProgress. rewrite Hp.
  rewrite (IH p Hp). reflexivity.
Qed.

(** X8.  Scroll events are coalesced onto animation frames: however many
    arrive before the frame runs, exactly one frame is asked for and
    nothing is recomputed until it runs; the frame recomputes once and
    lets the next scroll event ask for a frame again. *)
Theorem scroll_events_share_one_frame :
  forall (n : nat) (p : indicator) (vp : viewport),
    isUpdating p = false ->
    let '(p1, frames) := scroll_events (S n) p in
    frames = 1%nat /\
    p1 = set_isUpdating true p /\
    Progress.scrollProgress p1 = Progress.scrollProgress p /\
    isUpdating (frame vp p1) = false /\
    Progress.scrollProgress (frame vp p1)
    = Progress.scrollProgress (calculateScrollProgress vp p).
Proof.
  intros n p vp Hp. cbn [scroll_events]. unfold updateProgress at 1.
  rewrite Hp. rewrite scroll_events_pending by reflexivity.
  split; [reflexivity|]. split; [reflexivity|]. split; [reflexivity|].
  split; [reflexivity|].
  unfold frame. cbn [Progress.scrollProgress set_isUpdating].
  unfold calculateScrollProgress.
  cbn [smoothing Progress.scrollProgress set_isUpdating].
  destruct (js_le _ _); [reflexivity|].
  destruct (smoothing p); reflexivity.
Qed.

Lemma scroll_events_share_one_frame_witness :
  isUpdating (Progress.create None) = false /\
  (let '(p1, frames) := scroll_events 5 (Progress.create None) in
   frames = 1%nat /\
   p1 = set_isUpdating true (Progress.create None) /\
   Progress.scrollProgress p1 = Progress.scrollProgress (Progress.create None) /\
   isUpdating (frame Scenarios.half_way p1) = false /\
   Progress.scrollProgress (frame Scenarios.half_way p1)
   = Progress.scrollProgress
       (calculateScrollProgress Scenarios.half_way (Progress.create None))).
Proof.
  split; [reflexivity|].
  apply (scroll_events_share_one_frame 4 (Progress.create None)
           Scenarios.half_way eq_refl).
Defined.

(** [x] to the power [n] *)
Fixpoint Qpow (x : Q) (n : nat) : Q :=
  match n with
  | O => 1%Q
  | S k => (x * Qpow x k)%Q
  end.

Lemma calculateScrollProgress_smoothing vp p :
  smoothing (calculateScrollProgress vp p) = smoothing p.
Proof.
  unfold calculateScrollProgress.
  destruct (js_le _ _); [reflexivity|].
  destruct (smoothing p) eqn:E; cbn; exact E.
Qed.

Lemma iter_smoothing (n : nat) vp p :
  smoothing (Nat.iter n (calculateScrollProgress vp) p) = smoothing p.
Proof.
  induction n as [|n IH]; [reflexivity|].
  rewrite Nat.iter_succ, calculateScrollProgress_smoothing. exact IH.
Qed.

(** X9.  With smoothing, the stored fraction closes in on the clamped
    fraction geometrically: while the viewport does not move, each
    recomputation leaves nine tenths of the remaining distance, so
    after [n] of them the distance is (9/10)^n times what it was. *)
Theorem smoothing_closes_in_geometrically :
  forall (vp : viewport) (n : nat) (p : indicator) (q : Q),
    smoothing p = true ->
    (0 < scrollHeight vp - innerHeight vp)%Q ->
    Progress.scrollProgress p = Finite q ->
    exists qn,
      Progress.scrollProgress (Nat.iter n (calculateScrollProgress vp) p)
      = Finite qn /\
      (qn - spec_fraction vp == Qpow (9 # 10) n * (q - spec_fraction vp))%Q.
Proof.
  intros vp n. induction n as [|n IH]; intros p q Hsm Hr Hq.
  - exists q. split; [exact Hq|]. simpl. ring.
  - destruct (IH p q Hsm Hr Hq) as (qn & Hqn & Hdist).
    rewrite Nat.iter_succ.
    set (pn := Nat.iter n (calculateScrollProgress vp) p) in *.
    assert (Hsmn : smoothing pn = true)
      by (unfold pn; rewrite iter_smoothing; exact Hsm).
    destruct (calculateScrollProgress_value vp pn qn Hqn)
      as (q' & Hq' & _ & _ & Hsmooth).
    exists q'. split; [exact Hq'|].
    specialize (Hsmooth Hr Hsmn). cbn [Qpow].
    apply Qeq_trans with ((9 # 10) * (qn - spec_fraction vp))%Q;
      [rewrite Hsmooth; ring | rewrite Hdist; ring].
Qed.

Lemma smoothing_closes_in_geometrically_witness :
  smoothing (Progress.create None) = true /\
  (0 < scrollHeight Scenarios.half_way - innerHeight Scenarios.half_way)%Q /\
  Progress.scrollProgress (Progress.create None) = Finite 0 /\
  exists qn,
    Progress.scrollProgress
      (Nat.iter 3 (calculateScrollProgress Scenarios.half_way)
                (Progress.create None))
    = Finite qn /\
    (qn - spec_fraction Scenarios.half_way
     == Qpow (9 # 10) 3 * (0 - spec_fraction Scenarios.half_way))%Q.
Proof.
  split; [reflexivity|]. split; [reflexivity|]. split; [reflexivity|].
  apply smoothing_closes_in_geometrically; reflexivity.
Defined.

End ProgressExtras.

(** ** NavigationController: further properties *)
Module NavigationExtras.
Import Navigation NavigationFacts.

(** Every section sits at its own index. *)
Definition placed (secs : list section) : Prop :=
  forall n s, secs !! n = Some s -> index s = n.

Definition valid_index (c : controller) : Prop :=
  currentSectionIndex c = 0%nat \/
  (currentSectionIndex c < length (sections c))%nat.

Lemma discoverSections_placed els : placed (discoverSections els).
Proof.
  intros n s. unfold discoverSections. rewrite list_lookup_imap.
  destruct (els !! n); cbn; [|discriminate]. intros [= <-]. reflexivity.
Qed.

Lemma discoverSections_ids els : id <$> discoverSections els = els.*1.
Proof.
  unfold discoverSections. apply list_eq. intros n.
  rewrite !list_lookup_fmap, list_lookup_imap.
  destruct (els !! n); reflexivity.
Qed.

Lemma find_section_lookup sectionId secs s :
  find_section sectionId secs = Some s ->
  exists n, secs !! n = Some s /\ id s = sectionId.
Proof.
  unfold find_section. induction secs as [|s0 rest IH]; cbn; [discriminate|].
  destruct (String.eqb (id s0) sectionId) eqn:E.
  - intros [= <-]. exists 0%nat. split; [reflexivity|]. apply String.eqb_eq, E.
  - intros H. destruct (IH H) as (n & Hn & Hid). exists (S n). auto.
Qed.

Lemma find_section_at secs :
  NoDup (id <$> secs) ->
  forall n s, secs !! n = Some s -> find_section (id s) secs = Some s.
Proof.
  unfold find_section. induction secs as [|s0 rest IH]; intros Hnd n s Hn;
    [rewrite lookup_nil in Hn; discriminate|].
  cbn in Hnd. apply NoDup_cons in Hnd. destruct Hnd as [Hnot Hnd].
  destruct n as [|n]; cbn in Hn.
  - injection Hn as ->. cbn. rewrite String.eqb_refl. reflexivity.
  - cbn. destruct (String.eqb (id s0) (id s)) eqn:E.
    + apply String.eqb_eq in E. exfalso. apply Hnot. rewrite E.
      apply list_elem_of_fmap. exists s. split; [reflexivity|].
      eapply list_elem_of_lookup_2. exact Hn.
    + apply (IH Hnd n s Hn).
Qed.

Lemma findIndex_lt sectionId secs i :
  findIndex sectionId secs = Some i -> (i < length secs)%nat.
Proof.
  revert i. induction secs as [|s rest IH]; intros i; cbn; [discriminate|].
  destruct (String.eqb (id s) sectionId); [intros [= <-]; lia|].
  destruct (findIndex sectionId rest) as [k|]; cbn; [|discriminate].
  intros [= <-]. specialize (IH k eq_refl). lia.
Qed.

(** What a call of [navigateToSection] keeps: the sections, and a valid
    current index when every section sits at its index. *)
Lemma navigateToSection_keeps sectionId update_url now c :
  sections (navigateToSection sectionId update_url now c) = sections c /\
  (placed (sections c) -> valid_index c ->
   valid_index (navigateToSection sectionId update_url now c)).
Proof.
  destruct (navigateToSection_cases sectionId update_url now c)
    as [[Hn ->] | [(Hn & Hf & ->) | (s & Hn & Hf & H)]];
    [split; auto | split; auto |].
  destruct H as (_ & Hs & _ & Hc & _). split; [exact Hs|].
  intros Hp _. right. unfold valid_index. rewrite Hc, Hs.
  destruct (find_section_lookup _ _ _ Hf) as (n & Hn' & _).
  rewrite (Hp n s Hn'). eapply lookup_lt_Some. exact Hn'.
Qed.

Lemma navigateNext_keeps now c :
  sections (navigateNext now c) = sections c /\
  (placed (sections c) -> valid_index c -> valid_index (navigateNext now c)).
Proof.
  unfold navigateNext. destruct (_ <? _)%nat; [|auto].
  destruct (sections c !! _); [|auto]. apply navigateToSection_keeps.
Qed.

Lemma navigatePrevious_keeps now c :
  sections (navigatePrevious now c) = sections c /\
  (placed (sections c) -> valid_index c -> valid_index (navigatePrevious now c)).
Proof.
  unfold navigatePrevious. destruct (_ <? _)%nat; [|auto].
  destruct (sections c !! _); [|auto]. apply navigateToSection_keeps.
Qed.

Lemma handleFocusChange_keeps sid c :
  sections (handleFocusChange sid c) = sections c /\
  (valid_index c -> valid_index (handleFocusChange sid c)).
Proof.
  split; [apply handleFocusChange_bystander|].
  unfold handleFocusChange. destruct sid as [sid|]; [|auto].
  destruct (String.eqb sid ""); [auto|].
  destruct (findIndex sid (sections c)) as [i|] eqn:Hi; [|auto].
  destruct (Nat.eqb i (currentSectionIndex c)); [auto|].
  intros _. right. unfold updateActiveNavigation. cbn.
  destruct (sections c !! i); cbn; eapply findIndex_lt; exact Hi.
Qed.

Lemma scrollDone_keeps k c :
  sections (scrollDone k c) = sections c /\
  currentSectionIndex (scrollDone k c) = currentSectionIndex c.
Proof.
  unfold scrollDone. destruct (pending c !! k) as [cont|]; [|auto].
  unfold updateActiveNavigation. cbn.
  destruct (k_updateURL cont && updateURL (opts c)); cbn;
    destruct (sections c !! currentSectionIndex c); cbn; auto.
Qed.

Lemma step_keeps ev now c :
  sections (after (step ev now c)) = sections c /\
  (placed (sections c) -> valid_index c -> valid_index (after (step ev now c))).
Proof.
  destruct ev as [key cm form|hash|href|sid u| | |sid|k]; cbn.
  - destruct (keyboardNavigation (opts c)); [|auto].
    unfold handleKeydown.
    repeat match goal with
           | |- context [if ?b then _ else _] => destruct b
           | |- context [match ?o with Some _ => _ | None => _ end] =>
               destruct o
           end; cbn;
      first [ split; [reflexivity | auto; fail]
            | apply (navigateNext_keeps now (perform [PreventDefault] c))
            | apply (navigatePrevious_keeps now (perform [PreventDefault] c))
            | apply (navigateToSection_keeps _ _ now (perform [PreventDefault] c)) ].
  - destruct (updateURL (opts c)); [|auto].
    unfold handleHashChange. destruct (_ && _); [|auto].
    apply (navigateToSection_keeps _ _ now (set_location_hash hash c)).
  - unfold handleNavClick. destruct (_ && _); [|auto].
    apply (navigateToSection_keeps _ _ now (perform [PreventDefault] c)).
  - apply navigateToSection_keeps.
  - apply navigateNext_keeps.
  - apply navigatePrevious_keeps.
  - destruct (keyboardNavigation (opts c)); [|auto].
    destruct (handleFocusChange_keeps sid c) as [H1 H2]. auto.
  - destruct (scrollDone_keeps k c) as [H1 H2]. split; [exact H1|].
    intros _ Hv. unfold valid_index. rewrite H1, H2. exact Hv.
Qed.

Lemma run_keeps evs :
  forall c,
    sections (run evs c) = sections c /\
    (placed (sections c) -> valid_index c -> valid_index (run evs c)).
Proof.
  induction evs as [|[ev now] rest IH]; intros c; cbn; [auto|].
  destruct (step_keeps ev now c) as [Hs Hv].
  destruct (IH (after (step ev now c))) as [Hs' Hv'].
  split; [congruence|]. intros Hp Hc. apply Hv'; [rewrite Hs; exact Hp|].
  apply Hv; assumption.
Qed.

(** X10.  On a page whose sections have distinct ids, at any moment of the
    controller's life: the current index points into the section list;
    [navigateNext] on the last section and [navigatePrevious] on the
    first do nothing; and when idle and not at that end, they start a
    navigation to the section exactly one place further or back. *)
Theorem next_and_previous_move_by_one :
  forall (o : options) (els : list (string * Q)) (hash : string)
         (evs : list (event * Q)) (now : Q),
    NoDup (els.*1) ->
    let c := run evs (create o els hash) in
    (currentSectionIndex c = 0%nat \/
     (currentSectionIndex c < length (sections c))%nat) /\
    ((length (sections c) <= currentSectionIndex c + 1)%nat ->
     navigateNext now c = c) /\
    (currentSectionIndex c = 0%nat -> navigatePrevious now c = c) /\
    (isNavigating c = false ->
     (currentSectionIndex c + 1 < length (sections c))%nat ->
     currentSectionIndex (navigateNext now c) = (currentSectionIndex c + 1)%nat
     /\ isNavigating (navigateNext now c) = true) /\
    (isNavigating c = false -> (0 < currentSectionIndex c)%nat ->
     currentSectionIndex (navigatePrevious now c) = (currentSectionIndex c - 1)%nat
     /\ isNavigating (navigatePrevious now c) = true).
Proof.
  intros o els hash evs now Hnd c.
  destruct (run_keeps evs (create o els hash)) as [Hsecs Hvalid].
  fold c in Hsecs, Hvalid. cbn [sections create] in Hsecs, Hvalid.
  assert (Hplaced : placed (sections c))
    by (rewrite Hsecs; apply discoverSections_placed).
  assert (Hids : NoDup (id <$> sections c))
    by (rewrite Hsecs, discoverSections_ids; exact Hnd).
  assert (Hv : valid_index c).
  { apply Hvalid; [apply discoverSections_placed | left; reflexivity]. }
  assert (Hgo : forall n s, isNavigating c = false -> sections c !! n = Some s ->
                 currentSectionIndex (navigateToSection (id s) true now c) = n /\
                 isNavigating (navigateToSection (id s) true now c) = true).
  { intros n s Hidle Hn.
    pose proof (find_section_at _ Hids n s Hn) as Hf.
    destruct (navigateToSection_cases (id s) true now c)
      as [[Hn' _] | [(_ & Hf' & _) | (s' & _ & Hf' & H)]]; [congruence..|].
    destruct H as (_ & _ & Hnav & Hc & _).
    rewrite Hf in Hf'. injection Hf' as <-.
    split; [rewrite Hc; apply (Hplaced n s Hn) | exact Hnav]. }
  split; [exact Hv|]. split; [|split; [|split]].
  - intros Hlast. unfold navigateNext.
    destruct (Nat.ltb_spec (currentSectionIndex c + 1) (length (sections c)));
      [lia | reflexivity].
  - intros Hfirst. unfold navigatePrevious. rewrite Hfirst. reflexivity.
  - intros Hidle Hroom. unfold navigateNext.
    destruct (Nat.ltb_spec (currentSectionIndex c + 1) (length (sections c)));
      [|lia].
    destruct (lookup_lt_is_Some_2 (sections c) (currentSectionIndex c + 1))
      as [s Hs]; [lia|].
    rewrite Hs. apply Hgo; assumption.
  - intros Hidle Hpos. unfold navigatePrevious.
    destruct (Nat.ltb_spec 0 (currentSectionIndex c)); [|lia].
    destruct Hv as [Hz|Hlt]; [lia|].
    destruct (lookup_lt_is_Some_2 (sections c) (currentSectionIndex c - 1))
      as [s Hs]; [lia|].
    rewrite Hs. apply Hgo; assumption.
Qed.

Lemma next_and_previous_move_by_one_witness :
  NoDup ([("intro", 0%Q); ("problem", 900%Q)].*1) /\
  (let c := run [] Scenarios.two_stops in
   (currentSectionIndex c = 0%nat \/
    (currentSectionIndex c < length (sections c))%nat) /\
   ((length (sections c) <= currentSectionIndex c + 1)%nat ->
    navigateNext 3 c = c) /\
   (currentSectionIndex c = 0%nat -> navigatePrevious 3 c = c) /\
   (isNavigating c = false ->
    (currentSectionIndex c + 1 < length (sections c))%nat ->
    currentSectionIndex (navigateNext 3 c) = (currentSectionIndex c + 1)%nat
    /\ isNavigating (navigateNext 3 c) = true) /\
   (isNavigating c = false -> (0 < currentSectionIndex c)%nat ->
    currentSectionIndex (navigatePrevious 3 c) = (currentSectionIndex c - 1)%nat
    /\ isNavigating (navigatePrevious 3 c) = true)).
Proof.
  assert (H : NoDup ([("intro"%string, 0%Q); ("problem"%string, 900%Q)].*1)).
  { cbn. repeat constructor; intros Hin;
      repeat (apply elem_of_cons in Hin; destruct Hin as [Hin|Hin];
              [discriminate|]); inversion Hin. }
  split; [exact H|].
  apply (next_and_previous_move_by_one
           (Build_options true true true 0)
           [("intro"%string, 0%Q); ("problem"%string, 900%Q)] "" [] 3%Q H).
Defined.


(** *** The keyboard *)



(** *** The URL *)

Lemma pushed_app tr1 tr2 : pushed (tr1 ++ tr2) = pushed tr1 ++ pushed tr2.
Proof.
  induction tr1 as [|eff rest IH]; [reflexivity|].
  destruct eff; cbn; rewrite IH; reflexivity.
Qed.

(** X12.  A navigation started by a hash change writes no URL: when its
    scroll ends the fragment is the one the browser reported and
    nothing was pushed, so it cannot cause a further hash change.  A
    navigation started by a link click pushes the section's fragment
    once, when its scroll ends. *)
Theorem hash_navigation_pushes_no_state :
  forall (c : controller) (hash : string) (now : Q) (s : section),
    updateURL (opts c) = true ->
    isNavigating c = false -> pending c = [] ->
    hash <> ""%string ->
    find_section hash (sections c) = Some s ->
    (let c1 := after (step (HashChanged hash) now c) in
     let c2 := scrollDone 0 c1 in
     isNavigating c1 = true /\ currentSectionIndex c1 = index s /\
     isNavigating c2 = false /\ location_hash c2 = hash /\
     pushed (trace c2) = pushed (trace c))
    /\
    (let d1 := after (step (NavClicked ("#" ++ hash)) now c) in
     let d2 := scrollDone 0 d1 in
     isNavigating d1 = true /\ currentSectionIndex d1 = index s /\
     pushed (trace d1) = pushed (trace c) /\
     isNavigating d2 = false /\ location_hash d2 = hash /\
     pushed (trace d2) = pushed (trace c) ++ [hash]).
Proof.
  intros c hash now s Hurl Hidle Hpend Hne Hf.
  assert (Hnz : String.eqb hash "" = false) by (apply String.eqb_neq; exact Hne).
  assert (Hknown : bool_decide (is_Some (find_section hash (sections c))) = true).
  { apply bool_decide_eq_true_2. rewrite Hf. eauto. }
  split.
  - cbn [step after]. rewrite Hurl. unfold handleHashChange.
    cbn [sections set_location_hash]. rewrite Hnz, Hknown. cbn [negb andb].
    unfold navigateToSection. cbn [isNavigating sections set_location_hash].
    rewrite Hidle, Hf. unfold scrollToSection, scrollDone, updateActiveNavigation.
    cbn [opts set_navigationHistory set_currentSectionIndex set_isNavigating
         set_location_hash].
    destruct (smoothScroll (opts c)); cbn; rewrite Hpend; cbn;
      destruct (sections c !! index s); cbn;
      rewrite ?pushed_app; cbn; rewrite ?app_nil_r; repeat split.
  - cbn [step after]. unfold handleNavClick.
    change (slice1 ("#" ++ hash)) with hash. cbn [sections perform].
    rewrite Hnz, Hknown. cbn [negb andb].
    unfold navigateToSection. cbn [isNavigating sections perform].
    rewrite Hidle, Hf. unfold scrollToSection, scrollDone, updateActiveNavigation.
    cbn [opts set_navigationHistory set_currentSectionIndex set_isNavigating
         perform].
    destruct (smoothScroll (opts c)); cbn; rewrite Hpend, ?Hurl; cbn;
      rewrite ?Hurl; cbn;
      destruct (sections c !! index s); cbn;
      rewrite ?pushed_app; cbn; rewrite ?app_nil_r; repeat split.
Qed.

Lemma hash_navigation_pushes_no_state_witness :
  updateURL (opts Scenarios.two_stops) = true /\
  isNavigating Scenarios.two_stops = false /\
  pending Scenarios.two_stops = [] /\
  "problem"%string <> ""%string /\
  find_section "problem" (sections Scenarios.two_stops)
  = Some (Build_section "problem" 1 900) /\
  (let c1 := after (step (HashChanged "problem") 4 Scenarios.two_stops) in
   let c2 := scrollDone 0 c1 in
   isNavigating c1 = true /\
   currentSectionIndex c1 = index (Build_section "problem" 1 900) /\
   isNavigating c2 = false /\ location_hash c2 = "problem"%string /\
   pushed (trace c2) = pushed (trace Scenarios.two_stops)).
Proof.
  split; [reflexivity|]. split; [reflexivity|]. split; [reflexivity|].
  split; [discriminate|]. split; [reflexivity|].
  apply (proj1 (hash_navigation_pushes_no_state Scenarios.two_stops "problem"
                  4%Q (Build_section "problem" 1 900)
                  eq_refl eq_refl eq_refl ltac:(discriminate) eq_refl)).
Defined.

End NavigationExtras.

(** ** NavigationController.smoothScrollTo *)
Module SmoothScrollFacts.
Import SmoothScroll.

Local Open Scope Q_scope.

Lemma Qle_bool_false (a b : Q) : Qle_bool a b = false -> b < a.
Proof.
  intros H. apply Qnot_le_lt. intros Hle. apply Qle_bool_iff in Hle. congruence.
Qed.

Lemma Qabs_pos (d : Q) : ~ d == 0 -> 0 < Qabs d.
Proof.
  intros Hd. unfold Qabs. destruct (Qle_bool 0 d) eqn:E.
  - apply Qle_bool_iff in E. destruct (Qlt_le_dec 0 d) as [H|H]; [exact H|].
    exfalso. apply Hd. lra.
  - apply Qle_bool_false in E. lra.
Qed.

Lemma scroll_duration_range (d : Q) :
  ~ d == 0 -> 0 < scroll_duration d /\ scroll_duration d <= 1000.
Proof.
  intros Hd. pose proof (Qabs_pos d Hd) as Hp.
  unfold scroll_duration, Qmin.
  assert (Hh : 0 < Qabs d / 2).
  { apply Qlt_shift_div_l; [reflexivity | lra]. }
  destruct (Qle_bool (Qabs d / 2) 1000) eqn:E.
  - apply Qle_bool_iff in E. split; assumption.
  - split; [reflexivity | apply Qle_refl].
Qed.

Lemma cube_bound (u : Q) :
  0 <= u -> u <= 1 # 2 -> 0 <= u * u * u /\ u * u * u <= 1 # 8.
Proof.
  intros H0 H1.
  assert (Hs0 : 0 <= u * u) by (apply Qmult_le_0_compat; assumption).
  assert (Hs1 : 0 <= ((1 # 2) - u) * ((1 # 2) + u))
    by (apply Qmult_le_0_compat; lra).
  assert (Hc0 : 0 <= u * u * u) by (apply Qmult_le_0_compat; assumption).
  assert (Hc1 : 0 <= ((1 # 4) - u * u) * u)
    by (apply Qmult_le_0_compat; [lra | assumption]).
  split; [exact Hc0 | lra].
Qed.

(** X13.  The easing curve starts at 0, ends at 1, stays between them on
    [0, 1], and is symmetric about the middle of the scroll:
    ease(1 - t) = 1 - ease(t). *)
Theorem easing_is_symmetric :
  forall t : Q,
    easeInOutCubic (1 - t) == 1 - easeInOutCubic t /\
    (0 <= t -> t <= 1 -> 0 <= easeInOutCubic t /\ easeInOutCubic t <= 1) /\
    (t == 0 -> easeInOutCubic t == 0) /\
    (t == 1 -> easeInOutCubic t == 1).
Proof.
  intros t. unfold easeInOutCubic.
  destruct (Qle_bool (1 # 2) t) eqn:Et; cbn [negb].
  - apply Qle_bool_iff in Et. split; [|split; [|split]].
    + destruct (Qle_bool (1 # 2) (1 - t)) eqn:E1; cbn [negb].
      * apply Qle_bool_iff in E1. assert (Ht : t == 1 # 2) by lra.
        rewrite Ht. reflexivity.
      * ring.
    + intros H0 H1.
      destruct (cube_bound (1 - t)) as [Hc0 Hc1]; [lra | lra |].
      split; lra.
    + intros H. lra.
    + intros H. rewrite H. reflexivity.
  - apply Qle_bool_false in Et. split; [|split; [|split]].
    + destruct (Qle_bool (1 # 2) (1 - t)) eqn:E1; cbn [negb].
      * ring.
      * apply Qle_bool_false in E1. lra.
    + intros H0 H1.
      destruct (cube_bound t) as [Hc0 Hc1]; [lra | lra |].
      split; lra.
    + intros H. rewrite H. reflexivity.
    + intros H. lra.
Qed.

Lemma easing_is_symmetric_witness :
  (0 <= 1 # 4) /\ (1 # 4 <= 1) /\
  0 <= easeInOutCubic (1 # 4) /\ easeInOutCubic (1 # 4) <= 1.
Proof.
  split; [discriminate|]. split; [discriminate|].
  apply (proj1 (proj2 (easing_is_symmetric (1 # 4)))); discriminate.
Defined.

Section Scroll.
Variables (startY targetY startTime : Q).
Hypothesis moves : ~ targetY - startY == 0.

Definition arrived (s : scroll) : Prop :=
  requested s = false /\ resolved s = true /\ position s == targetY.

Definition running (s : scroll) : Prop :=
  requested s = true /\ resolved s = false.

Lemma late_frame_arrives (t : Q) (s : scroll) :
  startTime + scroll_duration (targetY - startY) <= t ->
  arrived (animateScroll startY targetY startTime t s).
Proof.
  intros Hlate.
  destruct (scroll_duration_range _ moves) as [Hpos _].
  set (d := scroll_duration (targetY - startY)) in *.
  assert (Hp : 1 <= (t - startTime) / d).
  { apply Qle_shift_div_l; [exact Hpos | lra]. }
  unfold animateScroll. fold d.
  set (p := Qmin ((t - startTime) / d) 1).
  assert (Hp1 : p == 1).
  { unfold p, Qmin. destruct (Qle_bool ((t - startTime) / d) 1) eqn:E;
      [apply Qle_bool_iff in E; lra | reflexivity]. }
  assert (Hle : Qle_bool 1 p = true) by (apply Qle_bool_iff; lra).
  rewrite Hle. cbn [negb]. split; [reflexivity|]. split; [reflexivity|].
  cbn [position].
  destruct (easing_is_symmetric p) as (_ & _ & _ & H1).
  rewrite (H1 Hp1). ring.
Qed.

Lemma early_frame_runs (t : Q) (s : scroll) :
  t < startTime + scroll_duration (targetY - startY) ->
  running (animateScroll startY targetY startTime t s).
Proof.
  intros Hearly.
  destruct (scroll_duration_range _ moves) as [Hpos _].
  set (d := scroll_duration (targetY - startY)) in *.
  assert (Hp : (t - startTime) / d < 1).
  { apply Qlt_shift_div_r; [exact Hpos | lra]. }
  unfold animateScroll. fold d. unfold Qmin.
  assert (Hle : Qle_bool ((t - startTime) / d) 1 = true)
    by (apply Qle_bool_iff; lra).
  rewrite Hle.
  destruct (Qle_bool 1 ((t - startTime) / d)) eqn:E;
    [apply Qle_bool_iff in E; lra|].
  split; reflexivity.
Qed.

Lemma arrived_stays (ts : list Q) (s : scroll) :
  arrived s -> arrived (fold_left (on_frame startY targetY startTime) ts s).
Proof.
  revert s. induction ts as [|t rest IH]; intros s Hs; [exact Hs|].
  cbn [fold_left]. apply IH. unfold on_frame.
  destruct Hs as (Hr & Hrest). rewrite Hr. split; [exact Hr | exact Hrest].
Qed.

Lemma frames_arrive (ts : list Q) :
  forall (s : scroll) (t : Q),
    running s -> In t ts ->
    startTime + scroll_duration (targetY - startY) <= t ->
    arrived (fold_left (on_frame startY targetY startTime) ts s).
Proof.
  induction ts as [|t0 rest IH]; intros s t Hs Hin Hlate; [destruct Hin|].
  cbn [fold_left]. destruct Hs as [Hreq Hres].
  destruct (Qlt_le_dec t0 (startTime + scroll_duration (targetY - startY)))
    as [He|Hl].
  - destruct Hin as [->|Hin]; [lra|].
    apply (IH _ t); [|exact Hin|exact Hlate].
    unfold on_frame. rewrite Hreq. apply early_frame_runs, He.
  - apply arrived_stays. unfold on_frame. rewrite Hreq.
    apply late_frame_arrives, Hl.
Qed.

End Scroll.

(** X14.  A smooth scroll over a distance that is not zero lasts more than 0
    and at most 1000 milliseconds, and whatever the frame timestamps
    are, once one of them is at or past the end of that duration the
    window is exactly at the target, the promise has resolved and no
    further frame is requested. *)
Theorem smooth_scroll_ends_on_target :
  forall (startY targetY startTime : Q) (timestamps : list Q) (t : Q),
    ~ targetY - startY == 0 ->
    In t timestamps ->
    startTime + scroll_duration (targetY - startY) <= t ->
    let s := frames startY targetY startTime timestamps in
    0 < scroll_duration (targetY - startY) /\
    scroll_duration (targetY - startY) <= 1000 /\
    requested s = false /\ resolved s = true /\ position s == targetY.
Proof.
  intros startY targetY startTime timestamps t Hmoves Hin Hlate s.
  destruct (scroll_duration_range _ Hmoves) as [H0 H1].
  split; [exact H0|]. split; [exact H1|].
  apply (frames_arrive startY targetY startTime Hmoves timestamps
                       (smoothScrollTo startY) t);
    [split; reflexivity | exact Hin | exact Hlate].
Qed.

Lemma smooth_scroll_ends_on_target_witness :
  ~ 900 - 0 == 0 /\ In 460 [16; 230; 460] /\
  0 + scroll_duration (900 - 0) <= 460 /\
  (let s := frames 0 900 0 [16; 230; 460] in
   0 < scroll_duration (900 - 0) /\
   scroll_duration (900 - 0) <= 1000 /\
   requested s = false /\ resolved s = true /\ position s == 900).
Proof.
  assert (H : ~ 900 - 0 == 0) by discriminate.
  split; [exact H|]. split; [cbn; tauto|]. split; [discriminate|].
  apply (smooth_scroll_ends_on_target 0 900 0 [16; 230; 460] 460 H);
    [cbn; tauto | discriminate].
Defined.

End SmoothScrollFacts.

(** ** MediaController: loads that succeed, fail, or cannot start *)
Module MediaExtras.
Import Media.
Import MediaFacts.

(** What one call of [loadMedia] may change in the shared state: loads
    are only started, output is only appended, and at most the record's
    own id joins [loadedMedia]. *)
Definition grows (i : string) (w w' : world) : Prop :=
  loadedMedia w ⊆ loadedMedia w' /\
  loadedMedia w' ⊆ loadedMedia w ∪ {[i]} /\
  (attempts w <= attempts w')%nat /\
  exists effs, trace w' = trace w ++ effs.

Lemma grows_refl (i : string) (w : world) : grows i w w.
Proof.
  split; [set_solver|]. split; [set_solver|]. split; [lia|].
  exists []. symmetry. apply app_nil_r.
Qed.

Lemma grows_trans (i : string) (w1 w2 w3 : world) :
  grows i w1 w2 -> grows i w2 w3 -> grows i w1 w3.
Proof.
  intros (A1 & B1 & C1 & e1 & D1) (A2 & B2 & C2 & e2 & D2).
  split; [transitivity (loadedMedia w2); assumption|].
  split.
  { intros x Hx. apply B2 in Hx. apply elem_of_union in Hx as [Hx|Hx];
      [apply B1, Hx | apply elem_of_union_r, Hx]. }
  split; [lia|].
  exists (e1 ++ e2). rewrite D2, D1. symmetry. apply app_assoc.
Qed.

Lemma grows_perform (i : string) (effs : list effect) (w : world) :
  grows i w (perform effs w).
Proof.
  split; [set_solver|]. split; [set_solver|]. split; [cbn; lia|].
  exists effs. reflexivity.
Qed.

Lemma grows_fetch (i : string) (net : network) (source : option string)
  (w : world) :
  grows i w (fetch net source w).1.
Proof.
  split; [set_solver|]. split; [set_solver|]. split; [cbn; lia|].
  eexists. reflexivity.
Qed.

Lemma grows_loadImage (i : string) (net : network) (m : media) (w : world) :
  grows i w (loadImage net m w).1.
Proof.
  unfold loadImage. destruct (truthy (src m)); [|apply grows_refl].
  destruct (fetch net (src m) w) as [w1 ok] eqn:E.
  assert (H : grows i w w1).
  { replace w1 with (fetch net (src m) w).1 by (rewrite E; reflexivity).
    apply grows_fetch. }
  destruct ok; cbn [fst]; [|exact H].
  eapply grows_trans; [exact H | apply grows_perform].
Qed.

(** The [switch] keeps the record's id and sources and only grows the
    shared state. *)
Lemma load_keeps (net : network) (m : media) (w : world) :
  forall m' w' ok,
    load net m w = (m', w', ok) ->
    id m' = id m /\ src m' = src m /\ fallbackSrc m' = fallbackSrc m /\
    loaded m' = loaded m /\ loading m' = loading m /\ error m' = error m /\
    loadedMedia w' = loadedMedia w /\ grows (id m) w w'.
Proof.
  intros m' w' ok. unfold load, loadPicture, loadVideo.
  destruct (type m).
  - destruct (loadImage net m w) as [w1 ok1] eqn:E. intros H; injection H as <- <- <-.
    do 6 (split; [reflexivity|]).
    pose proof (grows_loadImage (id m) net m w) as G. rewrite E in G.
    split; [|exact G].
    revert E. unfold loadImage, fetch.
    destruct (truthy (src m)); [|intros [= <- _]; reflexivity].
    destruct (net (attempts w) (src m)); intros [= <- _]; reflexivity.
  - intros H; injection H as <- <- <-. do 6 (split; [reflexivity|]).
    split; [reflexivity | apply (grows_fetch (id m) net (src m) w)].
  - intros H; injection H as <- <- <-. do 6 (split; [reflexivity|]).
    split; [reflexivity | apply (grows_fetch (id m) net (src m) w)].
  - destruct (has_img m).
    + destruct (loadImage net (set_type Image m) w) as [w1 ok1] eqn:E.
      intros H; injection H as <- <- <-. do 6 (split; [reflexivity|]).
      pose proof (grows_loadImage (id m) net (set_type Image m) w) as G.
      rewrite E in G. split; [|exact G].
      revert E. unfold loadImage, fetch. cbn [src set_type].
      destruct (truthy (src m)); [|intros [= <- _]; reflexivity].
      destruct (net (attempts w) (src m)); intros [= <- _]; reflexivity.
    + intros H; injection H as <- <- <-. do 6 (split; [reflexivity|]).
      split; [reflexivity | apply grows_refl].
Qed.

(** X15.  Whatever the network does and however long a call of [loadMedia]
    is observed, it keeps the record's id, never removes an id from
    [loadedMedia], adds at most the record's own, never lowers the
    count of loads started, only appends to the output, and so never
    lowers the loading progress reported for the page. *)
Theorem loading_only_accumulates :
  forall (fuel : nat) (net : network) (m : media) (w : world) (total : nat),
    let o := loadMedia fuel net m w in
    id (record o) = id m /\
    loadedMedia w ⊆ loadedMedia (world_of o) /\
    loadedMedia (world_of o) ⊆ loadedMedia w ∪ {[id m]} /\
    (attempts w <= attempts (world_of o))%nat /\
    (exists effs, trace (world_of o) = trace w ++ effs) /\
    (getLoadingProgress total w <= getLoadingProgress total (world_of o))%Q.
Proof.
  intros fuel net m w total o.
  assert (H : id (record o) = id m /\ grows (id m) w (world_of o)).
  { subst o. revert m w.
    induction fuel as [|fuel IH]; intros m w; cbn [loadMedia].
    - destruct (loading m || loaded m); cbn; (split; [reflexivity | apply grows_refl]).
    - destruct (loading m || loaded m);
        [cbn; split; [reflexivity | apply grows_refl]|].
      destruct (load net (set_flags (loaded m) true (error m) m) w)
        as [[m2 w2] ok] eqn:E.
      apply load_keeps in E.
      destruct E as (Hid & _ & _ & _ & _ & _ & Hset & G).
      cbn [id set_flags] in Hid, G.
      destruct ok.
      + cbn [record world_of id set_flags]. split; [exact Hid|].
        eapply grows_trans; [exact G|].
        split; [cbn; apply union_subseteq_r|].
        split.
        { cbn. rewrite Hid. intros x Hx.
          apply elem_of_union in Hx as [Hx|Hx];
            [apply elem_of_union_r | apply elem_of_union_l]; exact Hx. }
        split; [cbn; lia|]. eexists. reflexivity.
      + cbn [fallbackSrc set_flags id].
        destruct (truthy (fallbackSrc m2)).
        * unfold loadFallback.
          match goal with
          | |- context [loadMedia fuel net ?m1 ?w1] =>
              destruct (IH m1 w1) as [Hid' G'];
              destruct (loadMedia fuel net m1 w1) as [m4 w4|m4 w4]
          end; cbn [record world_of id set_src set_flags] in *.
          -- split; [congruence|].
             rewrite Hid in G'.
             eapply grows_trans; [exact G|].
             eapply grows_trans; [apply grows_perform|].
             eapply grows_trans; [exact G'|].
             eapply grows_trans; apply grows_perform.
          -- split; [congruence|].
             rewrite Hid in G'.
             eapply grows_trans; [exact G|].
             eapply grows_trans; [apply grows_perform | exact G'].
        * cbn [record world_of id set_flags]. split; [exact Hid|].
          eapply grows_trans; [exact G|].
          eapply grows_trans; apply grows_perform. }
  destruct H as (Hid & A & B & C & D).
  split; [exact Hid|]. split; [exact A|]. split; [exact B|].
  split; [exact C|]. split; [exact D|].
  unfold getLoadingProgress. destruct (0 <? total)%nat eqn:Ht; [|apply Qle_refl].
  apply Nat.ltb_lt in Ht.
  apply Qmult_le_compat_r.
  - rewrite <- Zle_Qle. apply inj_le. apply subseteq_size, A.
  - apply Qinv_le_0_compat. change 0%Q with (inject_Z 0).
    rewrite <- Zle_Qle. lia.
Qed.

(** X16.  An image whose own source fails and whose fallback then loads ends
    up loaded and in [loadedMedia] after exactly two loads, with the
    fallback as its source -- and is still flagged as an error, and
    the page is told [media:error] after [media:loaded]. *)
Theorem loaded_fallback_is_still_reported_as_error :
  forall (fuel : nat) (net : network) (m : media) (w : world),
    type m = Image ->
    truthy (src m) = true -> truthy (fallbackSrc m) = true ->
    idle m ->
    net (attempts w) (src m) = false ->
    net (S (attempts w)) (fallbackSrc m) = true ->
    exists m' w',
      loadMedia (S (S fuel)) net m w = Returned m' w' /\
      loaded m' = true /\ loading m' = false /\ error m' = true /\
      src m' = fallbackSrc m /\
      attempts w' = (attempts w + 2)%nat /\
      loadedMedia w' = {[id m]} ∪ loadedMedia w /\
      trace w' =
        trace w ++
        [LoadStarted (src m);
         ConsoleError ("Failed to load media " ++ id m);
         LoadStarted (fallbackSrc m);
         SourceApplied (default "" (fallbackSrc m));
         Dispatch "media:loaded" (id m);
         ConsoleLog ("Loaded fallback for " ++ id m);
         Dispatch "media:error" (id m)].
Proof.
  intros fuel net m w Ht Hs Hf [Hl Hd] Hfail Hok.
  cbn [loadMedia]. rewrite Hl, Hd. cbn [orb].
  unfold load, loadImage, fetch, loadFallback. cbn [loadMedia].
  unfold load, loadImage, fetch.
  cbn [type src set_flags set_src fallbackSrc attempts perform loading loaded
       orb id error].
  rewrite ?Ht, ?Hs, ?Hf. rewrite Hfail.
  cbn [type src set_flags set_src fallbackSrc attempts perform loading loaded
       orb id error].
  rewrite ?Ht, ?Hs, ?Hf. rewrite Hok.
  cbn [type src set_flags set_src fallbackSrc attempts perform loading loaded
       orb id error].
  eexists. eexists. split; [reflexivity|].
  cbn [loaded loading error src set_flags set_src attempts loadedMedia trace
       perform].
  do 4 (split; [reflexivity|]). split; [lia|]. split; [reflexivity|].
  rewrite <- !app_assoc. reflexivity.
Qed.

Lemma loaded_fallback_is_still_reported_as_error_witness :
  exists m' w',
    loadMedia 2 Scenarios.only_good_loads Scenarios.patched_image
              Scenarios.fresh_world = Returned m' w' /\
    loaded m' = true /\ loading m' = false /\ error m' = true /\
    src m' = Some "good.jpg" /\
    attempts w' = 2%nat /\
    loadedMedia w' = {[ "hero" ]} ∪ ∅ /\
    trace w' =
      [LoadStarted (Some "bad.jpg");
       ConsoleError "Failed to load media hero";
       LoadStarted (Some "good.jpg");
       SourceApplied "good.jpg";
       Dispatch "media:loaded" "hero";
       ConsoleLog "Loaded fallback for hero";
       Dispatch "media:error" "hero"].
Proof.
  apply (loaded_fallback_is_still_reported_as_error
           0 Scenarios.only_good_loads Scenarios.patched_image
           Scenarios.fresh_world);
    [reflexivity | reflexivity | reflexivity | split; reflexivity
    | reflexivity | reflexivity].
Defined.

(** X17.  An image without a fallback whose load fails is left flagged as an
    error but neither loaded nor loading, so the guard of the
    intersection handler lets it through again: every later
    intersection starts one more load. *)
Theorem failed_image_is_retried_on_next_intersection :
  forall (fuel : nat) (net : network) (m : media) (w : world),
    type m = Image ->
    truthy (src m) = true -> truthy (fallbackSrc m) = false ->
    idle m ->
    net (attempts w) (src m) = false ->
    exists m' w',
      handleIntersection (S fuel) net m w = Returned m' w' /\
      idle m' /\ error m' = true /\
      type m' = Image /\ src m' = src m /\ fallbackSrc m' = fallbackSrc m /\
      attempts w' = S (attempts w) /\
      loadedMedia w' = loadedMedia w /\
      trace w' =
        trace w ++
        [LoadStarted (src m);
         ConsoleError ("Failed to load media " ++ id m);
         Dispatch "media:error" (id m)].
Proof.
  intros fuel net m w Ht Hs Hf [Hl Hd] Hfail.
  unfold handleIntersection. rewrite Hl, Hd. cbn [negb andb].
  cbn [loadMedia]. rewrite Hl, Hd. cbn [orb].
  unfold load. cbn [type set_flags]. rewrite Ht.
  unfold loadImage. cbn [src set_flags]. rewrite Hs.
  unfold fetch. rewrite Hfail. cbn [fallbackSrc set_flags]. rewrite Hf.
  eexists. eexists. split; [reflexivity|].
  cbn. rewrite <- !app_assoc. cbn. unfold idle. cbn.
  repeat split; assumption.
Qed.

Lemma failed_image_is_retried_on_next_intersection_witness :
  exists m' w',
    handleIntersection 1 Scenarios.offline Scenarios.lone_image
                       Scenarios.fresh_world = Returned m' w' /\
    idle m' /\ error m' = true /\
    type m' = Image /\ src m' = Some "bad.jpg" /\ fallbackSrc m' = None /\
    attempts w' = 1%nat /\
    loadedMedia w' = ∅ /\
    trace w' =
      [LoadStarted (Some "bad.jpg");
       ConsoleError "Failed to load media hero";
       Dispatch "media:error" "hero"].
Proof.
  apply (failed_image_is_retried_on_next_intersection
           0 Scenarios.offline Scenarios.lone_image Scenarios.fresh_world);
    [reflexivity | reflexivity | reflexivity | split; reflexivity
    | reflexivity].
Defined.

(** X18.  A [picture] without an [img] inside never starts a load and never
    becomes loaded, with or without a fallback and however long the
    call is observed. *)
Theorem picture_without_img_starts_no_load :
  forall (fuel : nat) (net : network) (m : media) (w : world),
    type m = Picture -> has_img m = false ->
    let o := loadMedia fuel net m w in
    attempts (world_of o) = attempts w /\
    loadedMedia (world_of o) = loadedMedia w /\
    loaded (record o) = loaded m.
Proof.
  induction fuel as [|fuel IH]; intros net m w Ht Hi o; subst o;
    cbn [loadMedia].
  - destruct (loading m || loaded m); cbn; repeat split.
  - destruct (loading m || loaded m); [cbn; repeat split|].
    unfold load, loadPicture. cbn [type has_img set_flags]. rewrite Ht, Hi.
    cbn [fallbackSrc set_flags].
    destruct (truthy (fallbackSrc m)); [|cbn; repeat split].
    unfold loadFallback.
    match goal with
    | |- context [loadMedia fuel net ?m1 ?w1] =>
        destruct (IH net m1 w1) as (A & B & C); [exact Ht | exact Hi |];
        destruct (loadMedia fuel net m1 w1) as [m4 w4|m4 w4]
    end; cbn in A, B, C |- *; repeat split; assumption.
Qed.

Lemma picture_without_img_starts_no_load_witness :
  let o := loadMedia 5 Scenarios.only_good_loads Scenarios.empty_picture
                     Scenarios.fresh_world in
  attempts (world_of o) = 0%nat /\
  loadedMedia (world_of o) = ∅ /\
  loaded (record o) = false.
Proof.
  apply (picture_without_img_starts_no_load
           5 Scenarios.only_good_loads Scenarios.empty_picture
           Scenarios.fresh_world); reflexivity.
Defined.

End MediaExtras.

(** ** AccessibilityController: the focus history over a whole session *)
Module AccessibilityExtras.
Import Accessibility.

Lemma tail_drop {A : Type} (k : nat) (l : list A) :
  tail (drop k l) = drop (S k) l.
Proof.
  revert l. induction k as [|k IH]; intros [|x l]; try reflexivity.
  change (tail (drop k l) = drop (S k) l). apply IH.
Qed.

Lemma announced_step (ev : focus_event) (l : list nat) :
  (if ev_announce ev then l ++ [ev_target ev] else l)
  = l ++ map ev_target (filter (fun ev => ev_announce ev = true) [ev]).
Proof.
  rewrite filter_cons, filter_nil.
  destruct (decide (ev_announce ev = true)) as [Hy|Hn];
    destruct (ev_announce ev); try congruence; cbn;
    rewrite ?app_nil_r; reflexivity.
Qed.

(** X19.  From the constructor on, the focus history is exactly the last 50
    focus events, oldest first; the focus index points at the newest
    of them (-1 while there is none); and the announcements are those
    of the events that asked for one, none dropped. *)
Theorem focus_history_is_the_last_fifty_events :
  forall evs : list focus_event,
    let c := focuses evs create in
    focusHistory c = drop (length evs - 50) (map entry_of evs) /\
    currentFocusIndex c = (Z.of_nat (Nat.min (length evs) 50) - 1)%Z /\
    announced c = map ev_target (filter (fun ev => ev_announce ev = true) evs).
Proof.
  intros evs. cbn zeta.
  induction evs as [|ev evs IH] using rev_ind.
  - cbn. repeat split.
  - destruct IH as (Hh & Hi & Ha).
    unfold focuses in *. rewrite fold_left_app. cbn [fold_left].
    set (c := fold_left _ evs create) in *.
    assert (Hlen : length (focusHistory c) = Nat.min (length evs) 50).
    { rewrite Hh, length_drop, length_map. lia. }
    rewrite length_app, map_app, filter_app, map_app. cbn [length map].
    unfold handleFocus.
    cbn [focusHistory currentFocusIndex announced].
    rewrite length_app. cbn [length]. rewrite Hlen, Hh.
    destruct (Nat.ltb_spec 50 (Nat.min (length evs) 50 + 1)) as [Hfull|Hroom].
    + assert (Hge : (50 <= length evs)%nat) by lia.
      split; [|split].
      * replace (length evs + 1 - 50)%nat with (S (length evs - 50)) by lia.
        rewrite drop_app_le by (rewrite length_map; lia).
        destruct (drop (length evs - 50) (map entry_of evs)) as [|e rest] eqn:E.
        { exfalso. apply (f_equal length) in E.
          rewrite length_drop, length_map in E. cbn in E. lia. }
        cbn [app tail]. rewrite <- tail_drop, E. reflexivity.
      * destruct (drop (length evs - 50) (map entry_of evs)) as [|e rest] eqn:E.
        { exfalso. apply (f_equal length) in E.
          rewrite length_drop, length_map in E. cbn in E. lia. }
        apply (f_equal length) in E.
        rewrite length_drop, length_map in E. cbn [length] in E.
        cbn [app tail]. rewrite length_app. cbn [length]. lia.
      * rewrite Ha. apply announced_step.
    + assert (Hlt : (length evs < 50)%nat) by lia.
      split; [|split].
      * replace (length evs + 1 - 50)%nat with 0%nat by lia.
        replace (length evs - 50)%nat with 0%nat by lia.
        rewrite !drop_0. reflexivity.
      * rewrite length_app, length_drop, length_map. cbn [length]. lia.
      * rewrite Ha. apply announced_step.
Qed.

End AccessibilityExtras.

(** ** AnimationController.animateStagger without GSAP *)
Module AnimationExtras.
Import Animation.




End AnimationExtras.

(** ** ContentManager: what the cache holds and what loads return *)
Module ContentFacts.
Import Content.

Section Cache.
Context {content : Type}.
Variable default : section -> content.
Variable net : string -> response content.

(** Every cached entry is what the network has for that section's file. *)
Definition faithful (m : manager content) : Prop :=
  forall (j : string) (c : content),
    contentCache m !! j = Some c ->
    exists s, find_section j (sections m) = Some s /\
              net (contentPath m ++ contentFile s)%string = Json c.

(** The options and the content structure, which no load changes. *)
Definition same_setup (m m' : manager content) : Prop :=
  sections m' = sections m /\ contentPath m' = contentPath m /\
  cacheContent m' = cacheContent m.

Lemma uncached_result (i : string) (m m' : manager content) :
  same_setup m m' ->
  (loadSectionContent default net i (without_cache m')).2
  = (loadSectionContent default net i (without_cache m)).2.
Proof.
  intros (Hs & Hp & _). unfold loadSectionContent.
  cbn [cacheContent without_cache sections contentPath]. rewrite Hs, Hp.
  destruct (find_section i (sections m)) as [s|]; [|reflexivity].
  destruct (net (contentPath m ++ contentFile s)%string); reflexivity.
Qed.

Lemma load_step (i : string) (m : manager content) :
  faithful m ->
  faithful (loadSectionContent default net i m).1 /\
  same_setup m (loadSectionContent default net i m).1 /\
  (loadSectionContent default net i m).2
  = (loadSectionContent default net i (without_cache m)).2.
Proof.
  intros Hf. unfold loadSectionContent at 1 2 3.
  unfold loadSectionContent. cbn [cacheContent without_cache sections contentPath].
  destruct (cacheContent m) eqn:Hc.
  - destruct (contentCache m !! i) as [c|] eqn:Hi.
    + cbn [fst snd]. split; [exact Hf|]. split; [repeat split|].
      destruct (Hf i c Hi) as (s & Hs & Hn). rewrite Hs, Hn. reflexivity.
    + destruct (find_section i (sections m)) as [s|] eqn:Hs;
        [|cbn; split; [exact Hf|]; split; [repeat split | reflexivity]].
      destruct (net (contentPath m ++ contentFile s)%string) eqn:Hn;
        cbn [fst snd]; (split; [|split; [repeat split; try exact Hc | reflexivity]]);
        try exact Hf.
      intros j c'. cbn [contentCache set_cache request sections contentPath].
      destruct (decide (j = i)) as [->|Hne].
      * rewrite lookup_insert_eq. intros [= <-]. exists s. split; assumption.
      * rewrite lookup_insert_ne by congruence. apply Hf.
  - destruct (find_section i (sections m)) as [s|] eqn:Hs;
      [|cbn; split; [exact Hf|]; split; [repeat split; exact Hc | reflexivity]].
    destruct (net (contentPath m ++ contentFile s)%string) eqn:Hn;
      cbn [fst snd]; (split; [exact Hf|]; split; [repeat split; exact Hc | reflexivity]).
Qed.

Lemma loads_transparent (ids : list string) :
  forall m : manager content,
    faithful m ->
    (loads default net ids m).2
    = map (fun i => (loadSectionContent default net i (without_cache m)).2) ids.
Proof.
  induction ids as [|i rest IH]; intros m Hf; [reflexivity|].
  cbn [loads map].
  destruct (load_step i m Hf) as (Hf1 & Hsame & Hr).
  destruct (loadSectionContent default net i m) as [m1 r] eqn:E1.
  cbn [fst snd] in Hf1, Hsame, Hr.
  specialize (IH m1 Hf1).
  destruct (loads default net rest m1) as [m2 rs] eqn:E2.
  cbn [snd] in IH |- *. rewrite Hr, IH. f_equal.
  apply map_ext. intros j. apply uncached_result, Hsame.
Qed.

End Cache.

(** X21.  While the files on the server do not change, caching cannot be
    seen in the results: starting with an empty cache, any series of
    loads settles exactly as it would with [cacheContent: false],
    defaults and rejections included. *)
Theorem caching_is_transparent_on_a_stable_network :
  forall (content : Type) (default : section -> content)
         (net : string -> response content) (ids : list string)
         (m : manager content),
    contentCache m = ∅ ->
    (loads default net ids m).2
    = map (fun i => (loadSectionContent default net i (without_cache m)).2) ids.
Proof.
  intros content default net ids m Hempty.
  apply loads_transparent. intros j c Hj.
  rewrite Hempty, lookup_empty in Hj. discriminate.
Qed.

Lemma caching_is_transparent_on_a_stable_network_witness :
  (loads Scenarios.placeholder Scenarios.hero_only
         ["hero"; "crisis"; "hero"; "team"]%string Scenarios.two_files).2
  = map (fun i => (loadSectionContent Scenarios.placeholder Scenarios.hero_only
                     i (without_cache Scenarios.two_files)).2)
        ["hero"; "crisis"; "hero"; "team"]%string.
Proof.
  apply (caching_is_transparent_on_a_stable_network
           string Scenarios.placeholder Scenarios.hero_only
           ["hero"; "crisis"; "hero"; "team"]%string Scenarios.two_files).
  reflexivity.
Defined.

(** X22.  With caching on, content that loaded once is served from the
    cache from then on: the first load asks the network for the
    section's file, the second returns the same content whatever the
    network would now say, asks for nothing and changes nothing. *)
Theorem cached_content_is_served_without_a_request :
  forall (content : Type) (default : section -> content)
         (net net' : string -> response content) (i : string)
         (m : manager content) (s : section) (c : content),
    cacheContent m = true ->
    contentCache m !! i = None ->
    find_section i (sections m) = Some s ->
    net (contentPath m ++ contentFile s)%string = Json c ->
    let first := loadSectionContent default net i m in
    let second := loadSectionContent default net' i first.1 in
    first.2 = inr c /\
    requests first.1 = requests m ++ [(contentPath m ++ contentFile s)%string] /\
    errors first.1 = errors m /\
    second = (first.1, inr c).
Proof.
  intros content default net net' i m s c Hc Hi Hs Hn first second.
  subst second first.
  assert (E : loadSectionContent default net i m
              = (set_cache (<[i := c]> (contentCache m))
                           (request (contentPath m ++ contentFile s)%string m),
                 inr c)).
  { unfold loadSectionContent. rewrite Hc, Hi, Hs, Hn. reflexivity. }
  rewrite E. cbn [fst snd].
  split; [reflexivity|]. split; [reflexivity|]. split; [reflexivity|].
  unfold loadSectionContent.
  cbn [cacheContent contentCache set_cache request]. rewrite Hc.
  rewrite lookup_insert_eq. reflexivity.
Qed.

Lemma cached_content_is_served_without_a_request_witness :
  let first := loadSectionContent Scenarios.placeholder Scenarios.hero_only
                                  "hero" Scenarios.two_files in
  let second := loadSectionContent Scenarios.placeholder (fun _ => BadJson)
                                   "hero" first.1 in
  first.2 = inr "hero content"%string /\
  requests first.1 = [] ++ ["./content/hero.json"%string] /\
  errors first.1 = [] /\
  second = (first.1, inr "hero content"%string).
Proof.
  apply (cached_content_is_served_without_a_request
           string Scenarios.placeholder Scenarios.hero_only (fun _ => BadJson)
           "hero" Scenarios.two_files
           (Build_section "hero" "Welcome" "hero" "hero.json")
           "hero content"%string);
    reflexivity.
Defined.


(** X24.  An update for a section of the content structure puts the new
    content into the cache before the page is touched: even when
    updating the page fails and the update rejects, later loads with
    caching on return the new content without asking the network. *)
Theorem rejected_update_still_changes_the_cache :
  forall (content : Type) (default : section -> content)
         (net : string -> response content) (dom : bool) (i : string)
         (c : content) (m : manager content) (s : section),
    find_section i (sections m) = Some s ->
    cacheContent m = true ->
    let updated := updateSectionContent dom i (Some c) m in
    (updated.2 = None <-> dom = true) /\
    contentCache updated.1 = <[i := c]> (contentCache m) /\
    loadSectionContent default net i updated.1 = (updated.1, inr c).
Proof.
  intros content default net dom i c m s Hs Hc updated. subst updated.
  unfold updateSectionContent. rewrite Hs.
  destruct dom; cbn [fst snd].
  - split; [split; reflexivity|]. split; [reflexivity|].
    unfold loadSectionContent. cbn [cacheContent contentCache set_cache].
    rewrite Hc, lookup_insert_eq. reflexivity.
  - split; [split; discriminate|]. split; [reflexivity|].
    unfold loadSectionContent.
    cbn [cacheContent contentCache set_cache console_error].
    rewrite Hc, lookup_insert_eq. reflexivity.
Qed.

Lemma rejected_update_still_changes_the_cache_witness :
  let updated := updateSectionContent false "hero" (Some "new text"%string)
                                      Scenarios.two_files in
  (updated.2 = None <-> false = true) /\
  contentCache updated.1
  = <["hero"%string := "new text"%string]> (contentCache Scenarios.two_files) /\
  loadSectionContent Scenarios.placeholder Scenarios.hero_only "hero" updated.1
  = (updated.1, inr "new text"%string).
Proof.
  apply (rejected_update_still_changes_the_cache
           string Scenarios.placeholder Scenarios.hero_only false "hero"
           "new text"%string Scenarios.two_files
           (Build_section "hero" "Welcome" "hero" "hero.json"));
    reflexivity.
Defined.

End ContentFacts.

(** ** GalleryManager: moving through a gallery in the lightbox *)
Module GalleryFacts.
Import Gallery.

(** The lightbox on image [i] of gallery [g], showing it. *)
Definition at_image (open : bool) (g : string) (i : Z) : lightbox :=
  Build_lightbox open (Some i) (Some g) (Some i).

Section Lightbox.
Variable galleries : gmap string nat.
Variables (g : string) (n : nat).
Hypothesis known : galleries !! g = Some n.
Hypothesis named : g <> ""%string.

Lemma named_gallery : no_gallery (Some g) = false.
Proof.
  cbn. destruct (String.eqb_spec g ""); [contradiction | reflexivity].
Qed.

Lemma update_at (open : bool) (i : Z) (old : option Z) :
  0 <= i < Z.of_nat n ->
  updateLightboxContent galleries (Build_lightbox open (Some i) (Some g) old)
  = Normal (at_image open g i).
Proof.
  intros Hi. unfold updateLightboxContent.
  cbn [currentGallery currentImageIndex lightboxOpen]. rewrite named_gallery.
  cbn [mbind option_bind]. rewrite known. unfold has_item.
  destruct (Z.leb_spec 0 i); [|lia]. destruct (Z.ltb_spec i (Z.of_nat n)); [|lia].
  reflexivity.
Qed.

Lemma next_at (open : bool) (i : Z) :
  0 <= i < Z.of_nat n ->
  nextImage galleries (at_image open g i)
  = Normal (at_image open g ((i + 1) mod Z.of_nat n)).
Proof.
  intros Hi. unfold nextImage, move, at_image.
  cbn [currentGallery currentImageIndex lightboxOpen shown].
  rewrite named_gallery. cbn [mbind option_bind]. rewrite known.
  unfold js_plus, js_rem. destruct (Z.eqb_spec (Z.of_nat n) 0); [lia|].
  rewrite Z.rem_mod_nonneg by lia.
  apply update_at. apply Z.mod_pos_bound. lia.
Qed.

Lemma previous_at (open : bool) (i : Z) :
  0 <= i < Z.of_nat n ->
  previousImage galleries (at_image open g i)
  = Normal (at_image open g ((i - 1) mod Z.of_nat n)).
Proof.
  intros Hi. unfold previousImage, move, at_image.
  cbn [currentGallery currentImageIndex lightboxOpen shown].
  rewrite named_gallery. cbn [mbind option_bind]. rewrite known.
  unfold js_plus, js_rem. destruct (Z.eqb_spec (Z.of_nat n) 0); [lia|].
  rewrite Z.rem_mod_nonneg by lia.
  replace ((i + -1 + Z.of_nat n) mod Z.of_nat n) with ((i - 1) mod Z.of_nat n).
  - apply update_at. apply Z.mod_pos_bound. lia.
  - replace (i + -1 + Z.of_nat n) with (i - 1 + 1 * Z.of_nat n) by lia.
    rewrite Z.mod_add by lia. reflexivity.
Qed.

Lemma open_at (i : Z) (st : lightbox) :
  0 <= i < Z.of_nat n ->
  openLightbox galleries g i st = Normal (at_image true g i).
Proof.
  intros Hi. unfold openLightbox. rewrite known. apply update_at, Hi.
Qed.

Lemma right_presses (k : nat) :
  forall i : Z,
    0 <= i < Z.of_nat n ->
    presses galleries (replicate k "ArrowRight"%string) (at_image true g i)
    = Normal (at_image true g ((i + Z.of_nat k) mod Z.of_nat n)).
Proof.
  induction k as [|k IH]; intros i Hi.
  - cbn. rewrite Z.add_0_r, Z.mod_small by lia. reflexivity.
  - unfold presses in *. cbn [replicate forEach].
    unfold keydown at 1. cbn [lightboxOpen at_image negb].
    cbn [String.eqb Ascii.eqb Bool.eqb].
    change (Build_lightbox true (Some i) (Some g) (Some i))
      with (at_image true g i).
    rewrite next_at by exact Hi. cbn [andThen].
    rewrite IH by (apply Z.mod_pos_bound; lia).
    f_equal. f_equal.
    rewrite Zplus_mod_idemp_l. f_equal. lia.
Qed.

End Lightbox.

(** X25.  In a lightbox that shows image [i] of a gallery, "next" moves to
    the following image and from the last to the first, "previous"
    the other way round; each keeps the index inside the gallery and
    shows the image it moves to, and each undoes the other. *)
Theorem next_and_previous_image_are_inverse :
  forall (galleries : gmap string nat) (g : string) (n : nat) (open : bool)
         (i : Z),
    galleries !! g = Some n ->
    g <> ""%string ->
    0 <= i < Z.of_nat n ->
    let st := at_image open g i in
    nextImage galleries st
    = Normal (at_image open g (if i + 1 =? Z.of_nat n then 0 else i + 1)) /\
    previousImage galleries st
    = Normal (at_image open g (if i =? 0 then Z.of_nat n - 1 else i - 1)) /\
    nextImage galleries st >>> previousImage galleries = Normal st /\
    previousImage galleries st >>> nextImage galleries = Normal st.
Proof.
  intros galleries g n open i Hk Hg Hi st. subst st.
  assert (Hn : (i + 1) mod Z.of_nat n
               = if i + 1 =? Z.of_nat n then 0 else i + 1).
  { destruct (Z.eqb_spec (i + 1) (Z.of_nat n)) as [->|Hne];
      [apply Z_mod_same_full | apply Z.mod_small; lia]. }
  assert (Hp : (i - 1) mod Z.of_nat n
               = if i =? 0 then Z.of_nat n - 1 else i - 1).
  { destruct (Z.eqb_spec i 0) as [->|Hne]; [|apply Z.mod_small; lia].
    replace (0 - 1) with (Z.of_nat n - 1 + (-1) * Z.of_nat n) by lia.
    rewrite Z.mod_add by lia. apply Z.mod_small. lia. }
  rewrite (next_at galleries g n Hk Hg open i Hi).
  rewrite (previous_at galleries g n Hk Hg open i Hi).
  cbn [andThen].
  rewrite (previous_at galleries g n Hk Hg open) by (apply Z.mod_pos_bound; lia).
  rewrite (next_at galleries g n Hk Hg open) by (apply Z.mod_pos_bound; lia).
  rewrite <- Hn, <- Hp.
  split; [reflexivity|]. split; [reflexivity|].
  split; do 2 f_equal.
  - rewrite Zminus_mod_idemp_l. replace (i + 1 - 1) with i by lia.
    apply Z.mod_small, Hi.
  - rewrite Zplus_mod_idemp_l. replace (i - 1 + 1) with i by lia.
    apply Z.mod_small, Hi.
Qed.

Lemma next_and_previous_image_are_inverse_witness :
  let st := at_image true "spainCenters" 2 in
  nextImage Scenarios.site_galleries st
  = Normal (at_image true "spainCenters" 0) /\
  previousImage Scenarios.site_galleries st
  = Normal (at_image true "spainCenters" 1) /\
  nextImage Scenarios.site_galleries st
    >>> previousImage Scenarios.site_galleries = Normal st /\
  previousImage Scenarios.site_galleries st
    >>> nextImage Scenarios.site_galleries = Normal st.
Proof.
  apply (next_and_previous_image_are_inverse
           Scenarios.site_galleries "spainCenters" 3 true 2);
    [reflexivity | discriminate | lia].
Defined.

(** X26.  Opening the lightbox on image [i] of a gallery and pressing the
    right arrow [k] times shows image [(i + k) mod n] of its [n]
    images; after [n] presses the lightbox is back on image [i]. *)
Theorem right_arrow_cycles_through_the_gallery :
  forall (galleries : gmap string nat) (g : string) (n : nat) (i : Z)
         (st : lightbox) (k : nat),
    galleries !! g = Some n ->
    g <> ""%string ->
    0 <= i < Z.of_nat n ->
    openLightbox galleries g i st
      >>> presses galleries (replicate k "ArrowRight"%string)
    = Normal (at_image true g ((i + Z.of_nat k) mod Z.of_nat n)) /\
    openLightbox galleries g i st
      >>> presses galleries (replicate n "ArrowRight"%string)
    = Normal (at_image true g i).
Proof.
  intros galleries g n i st k Hk Hg Hi.
  rewrite (open_at galleries g n Hk Hg i st Hi). cbn [andThen].
  rewrite !(right_presses galleries g n Hk Hg) by exact Hi.
  split; [reflexivity|]. do 2 f_equal.
  replace (i + Z.of_nat n) with (i + 1 * Z.of_nat n) by lia.
  rewrite Z.mod_add by lia. apply Z.mod_small, Hi.
Qed.

Lemma right_arrow_cycles_through_the_gallery_witness :
  openLightbox Scenarios.site_galleries "team" 1 create
    >>> presses Scenarios.site_galleries (replicate 5 "ArrowRight"%string)
  = Normal (at_image true "team" ((1 + Z.of_nat 5) mod Z.of_nat 2)) /\
  openLightbox Scenarios.site_galleries "team" 1 create
    >>> presses Scenarios.site_galleries (replicate 2 "ArrowRight"%string)
  = Normal (at_image true "team" 1).
Proof.
  apply (right_arrow_cycles_through_the_gallery
           Scenarios.site_galleries "team" 2 1 create 5);
    [reflexivity | discriminate | lia].
Defined.

End GalleryFacts.

(** ** AppleNavigation: the bar, its flag and its classes *)
Module AppleNavFacts.
Import AppleNav.

(** The flag [isVisible] says what the class list says; the toggle is
    [active] and the body locked exactly while the mobile menu is
    open; and an open mobile menu is visible. *)
Definition consistent (st : nav) : Prop :=
  isVisible st = visible_class st /\
  toggle_active st = mobile_open_class st /\
  body_locked st = mobile_open_class st /\
  (mobile_open_class st = true -> visible_class st = true).

Lemma gt_iff (a b : Q) : gt a b = true <-> (b < a)%Q.
Proof.
  unfold gt. split.
  - intros H. apply Qnot_le_lt. intros Hle. apply Qle_bool_iff in Hle.
    rewrite Hle in H. discriminate.
  - intros H. destruct (Qle_bool a b) eqn:E; [|reflexivity].
    apply Qle_bool_iff in E. exfalso. apply (Qlt_not_le _ _ H E).
Qed.

Lemma gt_false_iff (a b : Q) : gt a b = false <-> (a <= b)%Q.
Proof.
  unfold gt. split.
  - intros H. apply Qle_bool_iff. destruct (Qle_bool a b); [reflexivity | discriminate].
  - intros H. apply Qle_bool_iff in H. rewrite H. reflexivity.
Qed.

Lemma showNav_consistent (st : nav) : consistent st -> consistent (showNav st).
Proof.
  intros H. unfold showNav. destruct (negb (isMobile st)); [|exact H].
  destruct H as (A & B & C & D). unfold consistent. cbn.
  split; [reflexivity|]. split; [exact B|]. split; [exact C|]. reflexivity.
Qed.

Lemma hideNav_consistent (st : nav) : consistent st -> consistent (hideNav st).
Proof.
  intros H. unfold hideNav.
  destruct (negb (isMobile st) && negb (mobile_open_class st)) eqn:E;
    [|exact H].
  apply andb_true_iff in E. destruct E as [_ E]. apply negb_true_iff in E.
  destruct H as (A & B & C & D). unfold consistent. cbn.
  split; [reflexivity|]. split; [exact B|]. split; [exact C|].
  rewrite E. discriminate.
Qed.

Lemma hideMobileNav_consistent (st : nav) : consistent (hideMobileNav st).
Proof. unfold consistent. cbn. repeat split. discriminate. Qed.

Lemma showMobileNav_consistent (st : nav) : consistent (showMobileNav st).
Proof. unfold consistent. cbn. repeat split. Qed.

Lemma step_consistent (st : nav) (ev : event) :
  consistent st -> consistent (step st ev).
Proof.
  intros H. destruct ev as [cur| |w| |]; cbn [step].
  - unfold handleScroll.
    set (dir := if gt (cur - scrollPosition st) 0 && gt cur 100 then Down
                else if gt 0 (cur - scrollPosition st) then Up
                else scrollDirection st).
    set (st1 := Build_nav (isVisible st) (isMobile st) (scrollPosition st) dir
                          (visible_class st) (mobile_open_class st)
                          (toggle_active st) (body_locked st)).
    assert (H1 : consistent st1) by exact H.
    match goal with
    | |- consistent (Build_nav (isVisible ?x) _ _ _ _ _ _ _) =>
        assert (H2 : consistent x)
    end.
    { destruct (_ && _ && _); [apply showNav_consistent, H1|].
      destruct (_ || _); [apply hideNav_consistent, H1 | exact H1]. }
    exact H2.
  - unfold toggleMobileNav. destruct (mobile_open_class st);
      [apply hideMobileNav_consistent | apply showMobileNav_consistent].
  - unfold handleResize. cbn [isMobile mobile_open_class].
    destruct (_ && _); [apply hideMobileNav_consistent | exact H].
  - unfold handleOutsideClick.
    destruct (_ && _); [apply hideMobileNav_consistent | exact H].
  - apply hideMobileNav_consistent.
Qed.

(** X27.  Whatever happens to the bar -- scrolling, clicks on the toggle,
    resizes between mobile and desktop widths, clicks elsewhere, link
    timers -- if its flag and classes agree before, they agree after:
    [isVisible] is true exactly when the bar has the class [visible],
    the toggle is [active] and the body locked exactly while the bar
    has [mobile-open], and [mobile-open] never comes without
    [visible]. *)
Theorem bar_flag_and_classes_agree :
  forall (evs : list event) (st : nav),
    consistent st -> consistent (run evs st).
Proof.
  induction evs as [|ev evs IH]; intros st H; [exact H|].
  cbn [run fold_left]. apply IH, step_consistent, H.
Qed.

Lemma bar_flag_and_classes_agree_witness :
  consistent (run [Scrolled 300; Scrolled 250; ToggleClicked; Resized 500;
                   ClickedOutside; Resized 1280; Scrolled 40]
                  (create 1280 false false)).
Proof.
  apply (bar_flag_and_classes_agree
           [Scrolled 300; Scrolled 250; ToggleClicked; Resized 500;
            ClickedOutside; Resized 1280; Scrolled 40]
           (create 1280 false false)).
  unfold consistent. cbn. repeat split. discriminate.
Defined.

(** X28.  A scroll frame records the new position and leaves the mobile
    menu alone.  On a mobile window it does not show or hide the bar.
    On a desktop window without an open mobile menu the bar is hidden
    within the first 100 pixels and whenever the page has moved down
    beyond them, and is visible whenever the page has moved up to a
    position beyond 200 pixels. *)
Theorem scrolling_shows_and_hides_the_bar :
  forall (cur : Q) (st : nav),
    let st' := handleScroll cur st in
    scrollPosition st' = cur /\
    isMobile st' = isMobile st /\
    mobile_open_class st' = mobile_open_class st /\
    toggle_active st' = toggle_active st /\
    body_locked st' = body_locked st /\
    (isMobile st = true ->
     isVisible st' = isVisible st /\ visible_class st' = visible_class st) /\
    (isMobile st = false -> mobile_open_class st = false ->
     ((cur <= 100)%Q -> isVisible st' = false /\ visible_class st' = false) /\
     ((scrollPosition st < cur)%Q -> (100 < cur)%Q ->
      isVisible st' = false /\ visible_class st' = false /\
      scrollDirection st' = Down) /\
     ((cur < scrollPosition st)%Q -> (200 < cur)%Q ->
      isVisible st' = true /\ scrollDirection st' = Up)).
Proof.
  intros cur st st'. subst st'. unfold handleScroll.
  set (dir := if gt (cur - scrollPosition st) 0 && gt cur 100 then Down
              else if gt 0 (cur - scrollPosition st) then Up
              else scrollDirection st).
  cbn [isVisible scrollDirection].
  assert (Hdown : (scrollPosition st < cur)%Q -> (100 < cur)%Q -> dir = Down).
  { intros H1 H2. unfold dir.
    rewrite (proj2 (gt_iff (cur - scrollPosition st) 0)) by lra.
    rewrite (proj2 (gt_iff cur 100)) by exact H2. reflexivity. }
  assert (Hup : (cur < scrollPosition st)%Q -> dir = Up).
  { intros H1. unfold dir.
    rewrite (proj2 (gt_false_iff (cur - scrollPosition st) 0)) by lra.
    rewrite (proj2 (gt_iff 0 (cur - scrollPosition st))) by lra. reflexivity. }
  clearbody dir.
  unfold showNav, hideNav. cbn [isVisible isMobile mobile_open_class].
  destruct (gt cur 200) eqn:H200;
    [apply gt_iff in H200 | apply gt_false_iff in H200];
    (destruct (Qle_bool cur 100) eqn:H100;
     [apply Qle_bool_iff in H100
     |assert (Hgt : (100 < cur)%Q)
        by (apply Qnot_le_lt; intros Hle; apply Qle_bool_iff in Hle;
            congruence);
      clear H100]);
    try lra;
    destruct (isMobile st) eqn:Hm, (mobile_open_class st) eqn:Ho,
             (isVisible st) eqn:Hv, dir;
    cbn; rewrite ?Ho;
    repeat match goal with
           | |- _ /\ _ => split
           | |- _ -> _ => intro
           end;
    try reflexivity; try discriminate; try lra;
    try (exfalso;
         match goal with
         | H1 : (scrollPosition st < cur)%Q, H2 : (100 < cur)%Q |- _ =>
             specialize (Hdown H1 H2); discriminate
         end);
    try (exfalso;
         match goal with
         | H1 : (cur < scrollPosition st)%Q |- _ =>
             specialize (Hup H1); discriminate
         end).
Qed.

Lemma scrolling_shows_and_hides_the_bar_witness :
  isVisible (handleScroll 250 (handleScroll 300 (create 1280 false false)))
  = true /\
  scrollDirection (handleScroll 250 (handleScroll 300 (create 1280 false false)))
  = Up.
Proof.
  destruct (scrolling_shows_and_hides_the_bar
              250 (handleScroll 300 (create 1280 false false)))
    as (_ & _ & _ & _ & _ & _ & H).
  destruct (H eq_refl eq_refl) as (_ & _ & Hup).
  apply Hup; reflexivity.
Defined.

End AppleNavFacts.
